(** * TamaBotchi desktop pet: window orchestrator, command channel,
      conversation sync engine and mood/badge derivation.

    A shallow embedding of the TypeScript sources of the desktop overlay:
    - [main.ts]      (host process: the two native windows and the IPC handlers),
    - [preload.ts]   (the capability bridge [window.electronAPI]),
    - [api.ts]       (the HTTP calls to the remote conversation store),
    - [SummaryPanel.tsx], [ConversationCard.tsx] (the panel view),
    - [BunnyPet.tsx], [NotificationBadge.tsx]    (the companion view).

    Numbers that the code treats as integers (epoch seconds, counters, pixel
    coordinates, milliseconds) are [Z]. *)

From stdpp Require Import gmap strings list sorting pretty.
From Stdlib Require Import ZArith Ascii.

Local Open Scope Z_scope.

(** ** Data model (the interfaces of SummaryPanel.tsx / ConversationCard.tsx) *)

Module Message.
Record t := {
  from : string;
  text : string;
  timestamp : Z;
}.
End Message.

Module Summary.
Record t := {
  who : string;
  intent : string;
  requirements : list string;
  urgency : string;
  sentiment : string;
  action_items : list string;
  one_liner : string;
}.
End Summary.

Module Conversation.
Record t := {
  sender : string;
  conversation_id : string;
  started_at : Z;
  last_activity : Z;
  messages : list Message.t;
  read : bool;
  summary : option Summary.t;
}.
End Conversation.

(** ** [Array.prototype.sort] with a comparator

    [a] is placed after [b] exactly when [cmp a b > 0]; the sort is stable
    (ECMAScript 2019), so elements that compare equal keep their input
    order.  For a consistent comparator this determines the result. *)

Section JsSort.
Context {A : Type} (cmp : A → A → Z).

Fixpoint sort_insert (x : A) (l : list A) : list A :=
  match l with
  | [] => [x]
  | y :: l' =>
      if decide (cmp x y ≤ 0) then x :: y :: l' else y :: sort_insert x l'
  end.

Definition js_sort (l : list A) : list A := foldr sort_insert [] l.
End JsSort.

(** [n || d] on an integer: [0] is the falsy one. *)
Definition js_or (n : Z) (d : Z) : Z :=
  if decide (n = 0) then d else n.

(** [x || d] on a possibly-undefined array (every array is truthy). *)
Definition js_or_list {A} (x : option (list A)) (d : list A) : list A :=
  match x with
  | Some l => l
  | None => d
  end.

(** ** The UI runtime: React state, promises, timers and the IPC bridge

    A view is single-threaded and cooperative.  A handler runs until it
    returns or reaches an [await]; the suspended rest of the async function
    is kept with the outstanding request and resumed when the request
    settles.  [S] is the view's state, [R] the requests it can issue and [D]
    the data a request resolves with. *)

Inductive outcome (D : Type) :=
| Resolved (d : D)
| Rejected.
Arguments Resolved {D} d.
Arguments Rejected {D}.

Inductive prog (S R D : Type) :=
| Ret                                            (* normal completion *)
| Throw                                          (* exception / rejected promise *)
| SetState (f : S → S) (k : prog S R D)          (* a useState setter *)
| Call (p : prog S R D) (k : prog S R D)         (* async function called, result not awaited *)
| Await (r : R) (k : outcome D → prog S R D)     (* request issued, caller suspended *)
| SetTimeout (cb : prog S R D) (ms : Z) (k : prog S R D)
| Emit (channel : string) (k : prog S R D).      (* ipcRenderer.send(channel) *)
Arguments Ret {S R D}.
Arguments Throw {S R D}.
Arguments SetState {S R D} f k.
Arguments Call {S R D} p k.
Arguments Await {S R D} r k.
Arguments SetTimeout {S R D} cb ms k.
Arguments Emit {S R D} channel k.

Inductive event (R D : Type) :=
| Issued (r : R)
| Settled (r : R) (o : outcome D)
| Sent (channel : string)
| Uncaught.
Arguments Issued {R D} r.
Arguments Settled {R D} r o.
Arguments Sent {R D} channel.
Arguments Uncaught {R D}.

Record world (S R D : Type) := World {
  ui : S;
  inflight : list (R * (outcome D → prog S R D));
  timers : list (Z * prog S R D);
  log : list (event R D);
}.
Arguments World {S R D} ui inflight timers log.
Arguments ui {S R D} w.
Arguments inflight {S R D} w.
Arguments timers {S R D} w.
Arguments log {S R D} w.

Inductive input (E D : Type) :=
| User (e : E)                        (* a click, a mount effect or an interval tick *)
| Settle (n : nat) (o : outcome D)    (* the n-th outstanding request settles *)
| Fire (n : nat).                     (* the n-th pending timeout fires *)
Arguments User {E D} e.
Arguments Settle {E D} n o.
Arguments Fire {E D} n.

Section Runtime.
Context {S R D : Type}.

(** [p ;; q]: statement sequencing inside one function body. *)
Fixpoint seq (p q : prog S R D) : prog S R D :=
  match p with
  | Ret => q
  | Throw => Throw
  | SetState f k => SetState f (seq k q)
  | Call a k => Call a (seq k q)
  | Await r k => Await r (λ o, seq (k o) q)
  | SetTimeout cb ms k => SetTimeout cb ms (seq k q)
  | Emit c k => Emit c (seq k q)
  end.

(** [try { p } catch { h }]: an exception raised in [p], also after an
    [await], continues with [h]. *)
Fixpoint try_catch (p h : prog S R D) : prog S R D :=
  match p with
  | Ret => Ret
  | Throw => h
  | SetState f k => SetState f (try_catch k h)
  | Call a k => Call a (try_catch k h)
  | Await r k => Await r (λ o, try_catch (k o) h)
  | SetTimeout cb ms k => SetTimeout cb ms (try_catch k h)
  | Emit c k => Emit c (try_catch k h)
  end.

(** [const x = await f(...)] where [f] performs request [r]: a rejection
    is thrown at the [await]. *)
Definition await (r : R) (k : D → prog S R D) : prog S R D :=
  Await r (λ o, match o with Resolved d => k d | Rejected => Throw end).

Definition set_ui (f : S → S) (w : world S R D) : world S R D :=
  World (f (ui w)) (inflight w) (timers w) (log w).
Definition add_inflight (r : R) (k : outcome D → prog S R D) (w : world S R D) : world S R D :=
  World (ui w) (inflight w ++ [(r, k)]) (timers w) (log w).
Definition add_timer (ms : Z) (cb : prog S R D) (w : world S R D) : world S R D :=
  World (ui w) (inflight w) (timers w ++ [(ms, cb)]) (log w).
Definition record (e : event R D) (w : world S R D) : world S R D :=
  World (ui w) (inflight w) (timers w) (log w ++ [e]).
Definition drop_inflight (n : nat) (w : world S R D) : world S R D :=
  World (ui w) (delete n (inflight w)) (timers w) (log w).
Definition drop_timer (n : nat) (w : world S R D) : world S R D :=
  World (ui w) (inflight w) (delete n (timers w)) (log w).

(** Run [p] to completion or to its first suspension point. *)
Fixpoint exec (p : prog S R D) (w : world S R D) : world S R D :=
  match p with
  | Ret => w
  | Throw => record Uncaught w
  | SetState f k => exec k (set_ui f w)
  | Call a k => exec k (exec a w)
  | Await r k => add_inflight r k (record (Issued r) w)
  | SetTimeout cb ms k => exec k (add_timer ms cb w)
  | Emit c k => exec k (record (Sent c) w)
  end.

Context {E : Type} (handler : E → S → prog S R D).

Definition step (w : world S R D) (i : input E D) : world S R D :=
  match i with
  | User e => exec (handler e (ui w)) w
  | Settle n o =>
      match inflight w !! n with
      | Some (r, k) => exec (k o) (record (Settled r o) (drop_inflight n w))
      | None => w
      end
  | Fire n =>
      match timers w !! n with
      | Some (_, cb) => exec cb (drop_timer n w)
      | None => w
      end
  end.

Definition run (w : world S R D) (ins : list (input E D)) : world S R D :=
  foldl step w ins.

Definition start (s : S) : world S R D := World s [] [] [].

(** Number of outstanding requests satisfying [P]. *)
Definition outstanding (P : R → bool) (w : world S R D) : nat :=
  length (filter (λ e, P e.1 = true) (inflight w)).
End Runtime.

Notation "p ;; q" := (seq p q) (at level 100, q at level 200, right associativity).

(** A single statement. *)
Definition setState {S R D} (f : S → S) : prog S R D := SetState f Ret.
Definition call {S R D} (p : prog S R D) : prog S R D := Call p Ret.
Definition setTimeout {S R D} (cb : prog S R D) (ms : Z) : prog S R D :=
  SetTimeout cb ms Ret.

(** ** preload.ts: the capability bridge

    [contextBridge.exposeInMainWorld('electronAPI', ...)]: each method sends
    one fixed channel name to the host.  Outside the hosted shell
    [window.electronAPI] is undefined. *)

Record ElectronAPI := {
  openSummary : string;
  closeSummary : string;
  toggleSummary : string;
}.

Definition preload : ElectronAPI := {|
  openSummary := "open-summary";
  closeSummary := "close-summary";
  toggleSummary := "toggle-summary";
|}.

(** [obj.m()]: a method call on [undefined] raises a TypeError. *)
Definition method_call {S R D} (obj : option ElectronAPI)
    (m : ElectronAPI → string) : prog S R D :=
  match obj with
  | Some api => Emit (m api) Ret
  | None => Throw
  end.

(** [if (x) { ... }] on an object reference. *)
Definition truthy {A} (x : option A) : bool :=
  match x with Some _ => true | None => false end.

(** ** api.ts: the remote conversation store *)

Module Api.
Inductive request :=
| GetConversations                 (* GET  /pet/conversations *)
| GetUnreadCount                   (* GET  /pet/conversations/unread/count *)
| PostRead (conversationId : string)      (* POST /pet/conversations/{id}/read *)
| PostReadAll                      (* POST /pet/conversations/read-all *)
| PostSummarize (conversationId : string) (* POST /pet/conversations/{id}/summarize *)
| PostSummarizeAll.                (* POST /pet/summarize-all *)

#[global] Instance request_eq_dec : EqDecision request.
Proof. solve_decision. Defined.

(** [response.data]: a JSON object.  The counter is an integer
    ([{unread_count: int}]); the conversation list and the summary may be
    missing ([undefined]) or [null]. *)
Record data := {
  conversations : option (list Conversation.t);
  unread_count : Z;
  summary : option Summary.t;
}.

Section Calls.
Context {S : Type}.

Definition fetchAllConversations (k : data → prog S request data) :=
  await GetConversations k.
Definition markConversationRead (conversationId : string)
    (k : data → prog S request data) :=
  await (PostRead conversationId) k.
Definition markAllRead (k : data → prog S request data) :=
  await PostReadAll k.
Definition summarizeConversation (conversationId : string)
    (k : option Summary.t → prog S request data) :=
  await (PostSummarize conversationId) (λ d, k (summary d)).
Definition summarizeAll (k : data → prog S request data) :=
  await PostSummarizeAll k.
Definition fetchUnreadCount (k : Z → prog S request data) :=
  await GetUnreadCount (λ d, k (unread_count d)).
End Calls.
End Api.

(** ** ConversationCard.tsx *)

Module ConversationCard.
Record state := {
  summary : option Summary.t;
  loading : bool;
  expanded : bool;
}.

Definition setSummary (v : option Summary.t) (s : state) : state :=
  {| summary := v; loading := loading s; expanded := expanded s |}.
Definition setLoading (v : bool) (s : state) : state :=
  {| summary := summary s; loading := v; expanded := expanded s |}.
Definition setExpanded (v : bool) (s : state) : state :=
  {| summary := summary s; loading := loading s; expanded := v |}.

(** The three [useState] initial values. *)
Definition mount (conversation : Conversation.t) : state :=
  {| summary := Conversation.summary conversation;
     loading := false;
     expanded := false |}.

(** What the card shows: the three conditional blocks of the JSX, each
    with its own condition, in the order they are written. *)
Inductive block :=
| preview                      (* [!summary && !loading] *)
| loading_spinner              (* [loading] *)
| summary_block (expanded : bool).
                               (* [summary]; the details when [expanded] *)

Definition render (s : state) : list block :=
  (if negb (truthy (summary s)) && negb (loading s) then [preview] else []) ++
  (if loading s then [loading_spinner] else []) ++
  (if truthy (summary s) then [summary_block (expanded s)] else []).

Section Component.
(** [self] is this card's slot in the state of the enclosing view; the
    props are [conversation] and [onRead]. *)
Context {S : Type} (self : (state → state) → S → S).
Context (conversation : Conversation.t) (onRead : prog S Api.request Api.data).

Definition handleSummarize : prog S Api.request Api.data :=
  setState (self (setLoading true)) ;;
  try_catch
    (Api.summarizeConversation (Conversation.conversation_id conversation) (λ result,
     setState (self (setSummary result)) ;;
     Api.markConversationRead (Conversation.conversation_id conversation) (λ _,
     call onRead)))
    Ret ;;
  setState (self (setLoading false)).

Definition handleClick (s : state) : prog S Api.request Api.data :=
  (if truthy (summary s)
   then setState (self (setExpanded (negb (expanded s))))
   else call handleSummarize) ;;
  (if negb (Conversation.read conversation)
   then call (Api.markConversationRead (Conversation.conversation_id conversation) (λ _, Ret)) ;;
        call onRead
   else Ret).
End Component.
End ConversationCard.

(** ** SummaryPanel.tsx *)

Module SummaryPanel.
Record state := {
  conversations : list Conversation.t;
  unreadCount : Z;
  loading : bool;
  summarizingAll : bool;
  (* the [ConversationCard] children, by React key *)
  cards : gmap string ConversationCard.state;
  (* which mount the card under a key is *)
  instances : gmap string nat;
  (* how often the list of cards has been rendered anew *)
  renders : nat;
}.

(** Rendering [conversations.map(convo => <ConversationCard key=... />)]:
    a card whose key was already there keeps its state, a new key is
    mounted, a key that is gone is unmounted. *)
Definition reconcile_cards (convs : list Conversation.t)
    (old : gmap string ConversationCard.state) : gmap string ConversationCard.state :=
  list_to_map
    ((λ c, (Conversation.conversation_id c,
            default (ConversationCard.mount c) (old !! Conversation.conversation_id c)))
       <$> convs).

(** A card that stays is the same mount; a card mounted in render [n] is a
    new one, also when its key had a card before. *)
Definition reconcile_instances (convs : list Conversation.t)
    (old : gmap string nat) (n : nat) : gmap string nat :=
  list_to_map
    ((λ c, (Conversation.conversation_id c,
            default n (old !! Conversation.conversation_id c)))
       <$> convs).

Definition setConversations (v : list Conversation.t) (s : state) : state :=
  {| conversations := v; unreadCount := unreadCount s; loading := loading s;
     summarizingAll := summarizingAll s; cards := reconcile_cards v (cards s);
     instances := reconcile_instances v (instances s) (renders s);
     renders := S (renders s) |}.
Definition setUnreadCount (v : Z) (s : state) : state :=
  {| conversations := conversations s; unreadCount := v; loading := loading s;
     summarizingAll := summarizingAll s; cards := cards s;
     instances := instances s; renders := renders s |}.
Definition setLoading (v : bool) (s : state) : state :=
  {| conversations := conversations s; unreadCount := unreadCount s; loading := v;
     summarizingAll := summarizingAll s; cards := cards s;
     instances := instances s; renders := renders s |}.
Definition setSummarizingAll (v : bool) (s : state) : state :=
  {| conversations := conversations s; unreadCount := unreadCount s; loading := loading s;
     summarizingAll := v; cards := cards s;
     instances := instances s; renders := renders s |}.
(** The mount under key [id]: the render in which the card there was
    mounted.  For a key without a card the number is immaterial. *)
Definition instance (id : string) (s : state) : nat :=
  default 0%nat (instances s !! id).

(** A state setter of mount [inst] of the card with key [id].  The setters
    belong to the mount that handed them out: once that mount is gone they
    do nothing, also when a card with the same key has been mounted
    since. *)
Definition card (id : string) (inst : nat)
    (f : ConversationCard.state → ConversationCard.state) (s : state) : state :=
  if decide (instance id s = inst)
  then {| conversations := conversations s; unreadCount := unreadCount s;
          loading := loading s; summarizingAll := summarizingAll s;
          cards := alter f id (cards s);
          instances := instances s; renders := renders s |}
  else s.

Definition initial : state :=
  {| conversations := []; unreadCount := 0; loading := true;
     summarizingAll := false; cards := ∅; instances := ∅; renders := 0 |}.

Definition by_last_activity (a b : Conversation.t) : Z :=
  Conversation.last_activity b - Conversation.last_activity a.

Definition loadConversations : prog state Api.request Api.data :=
  try_catch
    (Api.fetchAllConversations (λ data,
     let sorted := js_sort by_last_activity (js_or_list (Api.conversations data) []) in
     setState (setConversations sorted) ;;
     setState (setUnreadCount (js_or (Api.unread_count data) 0))))
    Ret ;;
  setState (setLoading false).

Section Window.
Context (electronAPI : option ElectronAPI).

Definition handleClose : prog state Api.request Api.data :=
  if truthy electronAPI then method_call electronAPI closeSummary else Ret.

Definition handleMarkAllRead : prog state Api.request Api.data :=
  Api.markAllRead (λ _, call loadConversations).

Definition handleSummarizeAll : prog state Api.request Api.data :=
  setState (setSummarizingAll true) ;;
  try_catch
    (Api.summarizeAll (λ _, loadConversations))
    Ret ;;
  setState (setSummarizingAll false).

Inductive user :=
| Mount                  (* the effect: [loadConversations()] *)
| Interval               (* [setInterval(loadConversations, 8000)] ticks *)
| ClickClose
| ClickMarkAllRead
| ClickSummarizeAll
| ClickCard (id : string).

Definition find_conversation (id : string) (s : state) : option Conversation.t :=
  snd <$> list_find (λ c, Conversation.conversation_id c = id) (conversations s).

Definition handler (e : user) (s : state) : prog state Api.request Api.data :=
  match e with
  | Mount | Interval => loadConversations
  | ClickClose => handleClose
  | ClickMarkAllRead =>
      (* disabled={unreadCount === 0} *)
      if decide (unreadCount s = 0) then Ret else handleMarkAllRead
  | ClickSummarizeAll =>
      (* disabled={summarizingAll || conversations.length === 0} *)
      if summarizingAll s || bool_decide (conversations s = [])
      then Ret else handleSummarizeAll
  | ClickCard id =>
      match find_conversation id s, cards s !! id with
      | Some conversation, Some c =>
          ConversationCard.handleClick (card id (instance id s)) conversation
            loadConversations c
      | _, _ => Ret
      end
  end.
End Window.
End SummaryPanel.

(** ** NotificationBadge.tsx *)

#[local] Unset Elimination Schemes.
Inductive ReactNode :=
| null
| div (className : string) (children : list ReactNode)
| span (className : string) (children : list ReactNode)
| number_child (n : Z)          (* [{count}]: rendered in decimal *)
| string_child (s : string).
#[local] Set Elimination Schemes.

Definition NotificationBadge (count : Z) : ReactNode :=
  if decide (count ≤ 0) then null
  else
    div "notification-badge"
      [span "notification-badge__count"
         [if decide (count > 99) then string_child "99+" else number_child count]].

(** ** BunnyPet.tsx *)

Module BunnyPet.
Inductive Mood := idle | excited | sleeping.

Record state := {
  unreadCount : Z;
  mood : Mood;
  blinking : bool;
  bouncing : bool;
}.

Definition setUnreadCount (v : Z) (s : state) : state :=
  {| unreadCount := v; mood := mood s; blinking := blinking s; bouncing := bouncing s |}.
Definition setMood (v : Mood) (s : state) : state :=
  {| unreadCount := unreadCount s; mood := v; blinking := blinking s; bouncing := bouncing s |}.
Definition setBlinking (v : bool) (s : state) : state :=
  {| unreadCount := unreadCount s; mood := mood s; blinking := v; bouncing := bouncing s |}.
Definition setBouncing (v : bool) (s : state) : state :=
  {| unreadCount := unreadCount s; mood := mood s; blinking := blinking s; bouncing := v |}.

Definition initial : state :=
  {| unreadCount := 0; mood := idle; blinking := false; bouncing := false |}.

Definition pollUnread : prog state Api.request Api.data :=
  try_catch
    (Api.fetchUnreadCount (λ count,
     setState (setUnreadCount count) ;;
     if decide (count > 0)
     then setState (setMood excited) ;;
          setState (setBouncing true) ;;
          setTimeout (setState (setBouncing false)) 2000
     else setState (setMood idle)))
    (setState (setMood idle)).

Section Window.
Context (electronAPI : option ElectronAPI).

Definition handleClick : prog state Api.request Api.data :=
  (if truthy electronAPI then method_call electronAPI toggleSummary else Ret) ;;
  setState (setBouncing true) ;;
  setTimeout (setState (setBouncing false)) 600.

Definition blink : prog state Api.request Api.data :=
  setState (setBlinking true) ;;
  setTimeout (setState (setBlinking false)) 200.

Inductive user :=
| Mount                  (* the effect: [pollUnread()] *)
| PollInterval           (* [setInterval(pollUnread, 5000)] ticks *)
| BlinkInterval
| Click.

Definition handler (e : user) (_ : state) : prog state Api.request Api.data :=
  match e with
  | Mount | PollInterval => pollUnread
  | BlinkInterval => blink
  | Click => handleClick
  end.
End Window.

(** The badge the companion shows. *)
Definition badge (s : state) : ReactNode := NotificationBadge (unreadCount s).
End BunnyPet.

(** ** main.ts: the host process

    The host runs one event loop; each handler below runs to completion
    before the next event is dispatched.  [win.close()] only starts the
    closing of a window: the window leaves the screen, and its ['closed']
    event is emitted on a later turn of the loop, as an event of its own,
    so that other events can be handled in between.  When the platform
    closes a window (the user, the OS), the host learns of it by the
    ['closed'] event.  A ['closed'] listener resets its global whichever
    window the global holds by then.  The work area is read from the
    platform each time a window is created.  [app.quit()] ends the run, so
    it needs no state of its own: what holds after every event holds up to
    the exit. *)

Module Main.
Definition PET_WIDTH : Z := 220.
Definition PET_HEIGHT : Z := 380.
Definition SUMMARY_WIDTH : Z := 420.
Definition SUMMARY_HEIGHT : Z := 620.

(** The global a window's ['closed'] listener resets. *)
Inductive listener := clear_petWindow | clear_summaryWindow.

#[global] Instance listener_eq_dec : EqDecision listener.
Proof. solve_decision. Defined.

Record BrowserWindow := {
  id : nat;
  width : Z;
  height : Z;
  x : Z;
  y : Z;
  frame : bool;
  transparent : bool;
  alwaysOnTop : bool;
  resizable : bool;
  skipTaskbar : bool;
  hasShadow : bool;
  focusable : bool;
  visibleOnAllWorkspaces : bool;
  page : string;                (* the hash of the loaded URL *)
  visible : bool;
  on_closed : listener;
}.

Record state := {
  petWindow : option nat;
  summaryWindow : option nat;
  (* the native windows on screen, newest first *)
  windows : list BrowserWindow;
  (* the windows [close()] was called on whose ['closed'] event is still
     to be emitted *)
  closing : list BrowserWindow;
  (* the window brought to the front last *)
  front : option nat;
  (* the identity the next [new BrowserWindow] gets *)
  next_id : nat;
  (* [screen.getPrimaryDisplay().workAreaSize], as the platform has it now *)
  workAreaSize : Z * Z;
}.

Definition set_petWindow (v : option nat) (s : state) : state :=
  {| petWindow := v; summaryWindow := summaryWindow s; windows := windows s;
     closing := closing s; front := front s; next_id := next_id s;
     workAreaSize := workAreaSize s |}.
Definition set_summaryWindow (v : option nat) (s : state) : state :=
  {| petWindow := petWindow s; summaryWindow := v; windows := windows s;
     closing := closing s; front := front s; next_id := next_id s;
     workAreaSize := workAreaSize s |}.

(** [new BrowserWindow(options)]: the window exists and is shown. *)
Definition new_BrowserWindow (w : BrowserWindow) (s : state) : state :=
  {| petWindow := petWindow s; summaryWindow := summaryWindow s;
     windows := w :: windows s; closing := closing s; front := Some (id w);
     next_id := Datatypes.S (next_id s); workAreaSize := workAreaSize s |}.

Definition set_visible (w : BrowserWindow) : BrowserWindow :=
  {| id := id w; width := width w; height := height w; x := x w; y := y w;
     frame := frame w; transparent := transparent w; alwaysOnTop := alwaysOnTop w;
     resizable := resizable w; skipTaskbar := skipTaskbar w; hasShadow := hasShadow w;
     focusable := focusable w; visibleOnAllWorkspaces := visibleOnAllWorkspaces w;
     page := page w; visible := true; on_closed := on_closed w |}.

(** [win.show()] *)
Definition show (h : nat) (s : state) : state :=
  {| petWindow := petWindow s; summaryWindow := summaryWindow s;
     windows := (λ w, if decide (id w = h) then set_visible w else w) <$> windows s;
     closing := closing s; front := front s; next_id := next_id s;
     workAreaSize := workAreaSize s |}.

(** [win.focus()] *)
Definition focus (h : nat) (s : state) : state :=
  {| petWindow := petWindow s; summaryWindow := summaryWindow s;
     windows := windows s; closing := closing s; front := Some h;
     next_id := next_id s; workAreaSize := workAreaSize s |}.

Definition run_listener (l : listener) (s : state) : state :=
  match l with
  | clear_petWindow => set_petWindow None s
  | clear_summaryWindow => set_summaryWindow None s
  end.

(** The ['closed'] event of window [h]: the window is gone and its listener
    runs.  For a window on screen this is the platform closing it; for a
    window that is closing it is the event [close()] led to. *)
Definition closed (h : nat) (s : state) : state :=
  match list_find (λ w, id w = h) (windows s ++ closing s) with
  | Some (_, w) =>
      run_listener (on_closed w)
        {| petWindow := petWindow s; summaryWindow := summaryWindow s;
           windows := filter (λ w, id w ≠ h) (windows s);
           closing := filter (λ w, id w ≠ h) (closing s);
           front := front s; next_id := next_id s;
           workAreaSize := workAreaSize s |}
  | None => s
  end.

(** [win.close()]: the window leaves the screen; no listener runs yet. *)
Definition close (h : nat) (s : state) : state :=
  {| petWindow := petWindow s; summaryWindow := summaryWindow s;
     windows := filter (λ w, id w ≠ h) (windows s);
     closing := filter (λ w, id w = h) (windows s) ++ closing s;
     front := front s; next_id := next_id s; workAreaSize := workAreaSize s |}.

Definition createPetWindow (s : state) : state :=
  let '(screenW, screenH) := workAreaSize s in
  let w := {|
    id := next_id s;
    width := PET_WIDTH;
    height := PET_HEIGHT;
    x := screenW - PET_WIDTH - 40;
    y := screenH - PET_HEIGHT - 40;
    frame := false;
    transparent := true;
    alwaysOnTop := true;
    resizable := false;
    skipTaskbar := true;
    hasShadow := false;
    focusable := true;
    visibleOnAllWorkspaces := true;
    page := "pet";
    visible := true;
    on_closed := clear_petWindow |} in
  set_petWindow (Some (id w)) (new_BrowserWindow w s).

Definition createSummaryWindow (s : state) : state :=
  match summaryWindow s with
  | Some h => focus h (show h s)
  | None =>
      let '(screenW, screenH) := workAreaSize s in
      let w := {|
        id := next_id s;
        width := SUMMARY_WIDTH;
        height := SUMMARY_HEIGHT;
        x := screenW - SUMMARY_WIDTH - PET_WIDTH - 60;
        y := screenH - SUMMARY_HEIGHT - 40;
        frame := false;
        transparent := true;
        alwaysOnTop := true;
        resizable := false;
        skipTaskbar := true;
        hasShadow := true;
        focusable := true;
        visibleOnAllWorkspaces := true;
        page := "summary";
        visible := true;
        on_closed := clear_summaryWindow |} in
      set_summaryWindow (Some (id w)) (new_BrowserWindow w s)
  end.

Definition closeSummaryWindow (s : state) : state :=
  match summaryWindow s with
  | Some h => set_summaryWindow None (close h s)
  | None => s
  end.

(** [ipcMain.on('toggle-summary', ...)] *)
Definition toggle_summary (s : state) : state :=
  if truthy (summaryWindow s) then closeSummaryWindow s else createSummaryWindow s.

(** [ipcMain.on(channel, ...)]: a channel without a listener is dropped. *)
Definition ipcMain (channel : string) (s : state) : state :=
  if decide (channel = "open-summary") then createSummaryWindow s
  else if decide (channel = "close-summary") then closeSummaryWindow s
  else if decide (channel = "toggle-summary") then toggle_summary s
  else s.

(** [app.on('activate', ...)] *)
Definition activate (s : state) : state :=
  if truthy (petWindow s) then s else createPetWindow s.

Inductive event :=
| Ipc (channel : string)      (* a command from a UI process *)
| Activate                    (* the platform activates the application *)
| Closed (h : nat)            (* the ['closed'] event of window [h] *)
| DisplayMetricsChanged (size : Z * Z).
                              (* the platform changes the work area; main.ts
                                 has no listener for it *)

Definition step (s : state) (e : event) : state :=
  match e with
  | Ipc channel => ipcMain channel s
  | Activate => activate s
  | Closed h => closed h s
  | DisplayMetricsChanged size =>
      {| petWindow := petWindow s; summaryWindow := summaryWindow s;
         windows := windows s; closing := closing s; front := front s;
         next_id := next_id s; workAreaSize := size |}
  end.

Definition run (s : state) (es : list event) : state := foldl step s es.

(** [app.whenReady().then(...)], on a work area of [screenW] by [screenH]:
    the companion window is created and the three IPC listeners are
    registered. *)
Definition whenReady (screenW screenH : Z) : state :=
  createPetWindow
    {| petWindow := None; summaryWindow := None; windows := []; closing := [];
       front := None; next_id := 0%nat; workAreaSize := (screenW, screenH) |}.

(** The native windows on screen showing a given page. *)
Definition live (p : string) (s : state) : list BrowserWindow :=
  filter (λ w, page w = p) (windows s).

(** Whether a panel is on screen. *)
Definition panel_visible (s : state) : bool :=
  bool_decide (Exists (λ w, page w = "summary" ∧ visible w = true) (windows s)).
End Main.

(** ** Reasoning about suspended code

    An outstanding request carries the rest of an async function, so a
    property of all runs has to speak about code that has not run yet.
    [respects I p]: every state setter in [p], now or after any number of
    awaits, preserves [I]. *)

Section Respects.
Context {S R D : Type} (I : S → Prop).

Fixpoint respects (p : prog S R D) : Prop :=
  match p with
  | Ret | Throw => True
  | SetState f k => (∀ s, I s → I (f s)) ∧ respects k
  | Call a k => respects a ∧ respects k
  | Await _ k => ∀ o, respects (k o)
  | SetTimeout cb _ k => respects cb ∧ respects k
  | Emit _ k => respects k
  end.

Definition respectful (w : world S R D) : Prop :=
  I (ui w) ∧
  Forall (λ e, ∀ o, respects (e.2 o)) (inflight w) ∧
  Forall (λ t, respects t.2) (timers w).
End Respects.

(** Tracking one observed value [v] of the state against what the remote
    store reported.  [target r o] is the value a settled request [r] with
    outcome [o] reports, if it reports one.  [keeps p]: [p] never changes
    [v], and what it awaits is resumed by code that [lands] the reported
    value; [lands x p]: [p] stores [x] into [v] before anything else can
    run, and [keeps] it from there. *)

Section Tracking.
Context {S R D V : Type} (v : S → V) (target : R → outcome D → option V).

Fixpoint keeps (p : prog S R D) : Prop :=
  match p with
  | Ret | Throw => True
  | SetState f k => (∀ s, v (f s) = v s) ∧ keeps k
  | Call a k => keeps a ∧ keeps k
  | Await r k =>
      ∀ o, match target r o with
           | Some x => lands x (k o)
           | None => keeps (k o)
           end
  | SetTimeout cb _ k => keeps cb ∧ keeps k
  | Emit _ k => keeps k
  end
with lands (x : V) (p : prog S R D) : Prop :=
  match p with
  | SetState f k => ((∀ s, v (f s) = x) ∧ keeps k) ∨ lands x k
  | _ => False
  end.

Definition resumes (r : R) (k : outcome D → prog S R D) : Prop :=
  ∀ o, match target r o with
       | Some x => lands x (k o)
       | None => keeps (k o)
       end.

(** The value reported last in a log, [v0] when none was. *)
Definition reported (v0 : V) (l : list (event R D)) : V :=
  foldl (λ acc e,
           match e with
           | Settled r o => default acc (target r o)
           | _ => acc
           end) v0 l.

(** What is suspended will keep [v] in step with the reports. *)
Definition pending_ok (w : world S R D) : Prop :=
  Forall (λ e, resumes e.1 e.2) (inflight w) ∧
  Forall (λ t, keeps t.2) (timers w).

Definition tracked (v0 : V) (w : world S R D) : Prop :=
  v (ui w) = reported v0 (log w) ∧ pending_ok w.
End Tracking.

(** What a settled request reports about the unread counter: only a
    resolved [GET /pet/conversations] does. *)
Definition unread_report (r : Api.request) (o : outcome Api.data) : option Z :=
  match r, o with
  | Api.GetConversations, Resolved d => Some (js_or (Api.unread_count d) 0)
  | _, _ => None
  end.

(** What a settled badge poll reports. *)
Definition badge_report (r : Api.request) (o : outcome Api.data) : option Z :=
  match r, o with
  | Api.GetUnreadCount, Resolved d => Some (Api.unread_count d)
  | _, _ => None
  end.

(** Sorted by [last_activity], latest first. *)
Definition latest_first (a b : Conversation.t) : Prop :=
  Conversation.last_activity b ≤ Conversation.last_activity a.

Definition mirror_sorted (s : SummaryPanel.state) : Prop :=
  StronglySorted latest_first (SummaryPanel.conversations s).

(** A full reconcile: a poll that is issued in [w] and resolves with [data]
    before anything else happens. *)
Definition reconcile (electronAPI : option ElectronAPI)
    (w : world SummaryPanel.state Api.request Api.data)
    (data : Api.data) : world SummaryPanel.state Api.request Api.data :=
  run (SummaryPanel.handler electronAPI) w
    [User SummaryPanel.Interval; Settle (length (inflight w)) (Resolved data)].

(** A badge poll that is issued in [w] and settles with [o] before anything
    else happens. *)
Definition badge_poll (electronAPI : option ElectronAPI)
    (w : world BunnyPet.state Api.request Api.data)
    (o : outcome Api.data) : world BunnyPet.state Api.request Api.data :=
  run (BunnyPet.handler electronAPI) w
    [User BunnyPet.PollInterval; Settle (length (inflight w)) o].

(** Every counter the store reported in this log is a count. *)
Definition counts_reported (l : list (event Api.request Api.data)) : Prop :=
  Forall (λ e, match e with
               | Settled _ (Resolved d) => 0 ≤ Api.unread_count d
               | _ => True
               end) l.

(** ** The host's registry against the windows that exist *)

(** Global [h] holds the window on screen showing page [p], if there is
    one. *)
Definition registered (p : string) (h : option nat) (s : Main.state) : Prop :=
  (∀ w, w ∈ Main.windows s → Main.page w = p → h = Some (Main.id w)) ∧
  (∀ i, h = Some i → ∃ w, w ∈ Main.windows s ∧ Main.id w = i ∧ Main.page w = p).

(** What holds of the host after every event.  The companion's global and
    the companion on screen agree.  For the panel only one direction holds:
    a handle that is present is the handle of a panel on screen. *)
Record consistent (s : Main.state) : Prop := {
  ids_fresh :
    ∀ w, w ∈ Main.windows s ++ Main.closing s → (Main.id w < Main.next_id s)%nat;
  ids_unique : NoDup (Main.id <$> (Main.windows s ++ Main.closing s));
  windows_made :
    ∀ w, w ∈ Main.windows s →
      Main.visible w = true ∧
      ((Main.page w = "pet" ∧ Main.on_closed w = Main.clear_petWindow) ∨
       (Main.page w = "summary" ∧ Main.on_closed w = Main.clear_summaryWindow));
  closing_made :
    ∀ w, w ∈ Main.closing s →
      Main.page w = "summary" ∧ Main.on_closed w = Main.clear_summaryWindow;
  pet_registered : registered "pet" (Main.petWindow s) s;
  summary_held :
    ∀ i, Main.summaryWindow s = Some i →
      ∃ w, w ∈ Main.windows s ∧ Main.id w = i ∧ Main.page w = "summary";
}.

(** No panel is on screen that the panel global does not hold. *)
Definition tidy (s : Main.state) : Prop :=
  ∀ w, w ∈ Main.live "summary" s → Main.summaryWindow s = Some (Main.id w).

(** The work area stays what it is. *)
Definition same_display (e : Main.event) : Prop :=
  match e with
  | Main.DisplayMetricsChanged _ => False
  | _ => True
  end.

(** ** Sample data for the scenarios *)

Definition conversation_of (id : string) (last_activity : Z) (read : bool)
    (summary : option Summary.t) : Conversation.t :=
  {| Conversation.sender := id;
     Conversation.conversation_id := id;
     Conversation.started_at := 0;
     Conversation.last_activity := last_activity;
     Conversation.messages := [];
     Conversation.read := read;
     Conversation.summary := summary |}.

Definition a_summary : Summary.t :=
  {| Summary.who := "A"; Summary.intent := "lunch"; Summary.requirements := [];
     Summary.urgency := "low"; Summary.sentiment := "friendly";
     Summary.action_items := ["reply"]; Summary.one_liner := "A asks about lunch" |}.

(** The store's answer to [GET /pet/conversations]. *)
Definition listing (cs : list Conversation.t) (unread : Z) : Api.data :=
  {| Api.conversations := Some cs; Api.unread_count := unread; Api.summary := None |}.

(** The store's answer to a [POST]: no field the callers read. *)
Definition ack : Api.data :=
  {| Api.conversations := None; Api.unread_count := 0; Api.summary := None |}.

(** The store's answer to [GET /pet/conversations/unread/count]. *)
Definition counter (n : Z) : Api.data :=
  {| Api.conversations := None; Api.unread_count := n; Api.summary := None |}.

(** A panel that has loaded one listing. *)
Definition panel_showing (cs : list Conversation.t) (unread : Z) :
    world SummaryPanel.state Api.request Api.data :=
  run (SummaryPanel.handler None) (start SummaryPanel.initial)
    [User SummaryPanel.Mount; Settle 0 (Resolved (listing cs unread))].

Definition is_summarize (id : string) (r : Api.request) : bool :=
  bool_decide (r = Api.PostSummarize id).

(** ** Further definitions for the properties of the views *)

(** The suspended code of a world respects [I], whatever the state is. *)
Definition pending_respects {S R D : Type} (I : S → Prop) (w : world S R D) : Prop :=
  Forall (λ e, ∀ o, respects I (e.2 o)) (inflight w) ∧
  Forall (λ t, respects I t.2) (timers w).

(** The conversations a listing names. *)
Definition listed (data : Api.data) : list string :=
  Conversation.conversation_id <$> js_or_list (Api.conversations data) [].

(** Where a rejection can end up unhandled.  [handled p]: no exception
    escapes [p], now or after any await, except that the rejection of a
    request that is [excused] may be rethrown right where it is awaited. *)

Section Handled.
Context {S R D : Type} (excused : R → bool).

Fixpoint handled (p : prog S R D) : Prop :=
  match p with
  | Ret => True
  | Throw => False
  | SetState _ k => handled k
  | Call a k => handled a ∧ handled k
  | Await r k =>
      (∀ d, handled (k (Resolved d))) ∧
      (handled (k Rejected) ∨ (excused r = true ∧ k Rejected = Throw))
  | SetTimeout cb _ k => handled cb ∧ handled k
  | Emit _ k => handled k
  end.

Definition pending_handled (w : world S R D) : Prop :=
  Forall (λ e, (∀ d, handled (e.2 (Resolved d))) ∧
               (handled (e.2 Rejected) ∨ (excused e.1 = true ∧ e.2 Rejected = Throw)))
    (inflight w) ∧
  Forall (λ t, handled t.2) (timers w).

(** Every [Uncaught] in the log comes right after the rejection of an
    excused request. *)
Definition rejections_excused (l : list (event R D)) : Prop :=
  ∀ i, l !! i = Some Uncaught →
       ∃ j r, i = Datatypes.S j ∧ l !! j = Some (Settled r Rejected) ∧ excused r = true.
End Handled.

(** The panel's calls whose rejection nothing catches. *)
Definition uncaught_call (r : Api.request) : bool :=
  match r with
  | Api.PostRead _ | Api.PostReadAll => true
  | _ => false
  end.

(** The bulk operation of the panel.  [idle p]: [p] never touches
    [summarizingAll] and never issues a summarize-all call; [finishing p]:
    [p] is the rest of a running [handleSummarizeAll]: it clears
    [summarizingAll] exactly once, possibly after further awaits, and is
    [idle] from there. *)

Fixpoint idle (p : prog SummaryPanel.state Api.request Api.data) : Prop :=
  match p with
  | Ret | Throw => True
  | SetState f k =>
      (∀ s, SummaryPanel.summarizingAll (f s) = SummaryPanel.summarizingAll s) ∧ idle k
  | Call a k => idle a ∧ idle k
  | Await r k => r ≠ Api.PostSummarizeAll ∧ ∀ o, idle (k o)
  | SetTimeout cb _ k => idle cb ∧ idle k
  | Emit _ k => idle k
  end.

Fixpoint finishing (p : prog SummaryPanel.state Api.request Api.data) : Prop :=
  match p with
  | SetState f k =>
      ((∀ s, SummaryPanel.summarizingAll (f s) = false) ∧ idle k) ∨
      ((∀ s, SummaryPanel.summarizingAll (f s) = SummaryPanel.summarizingAll s) ∧
       finishing k)
  | Await r k => r ≠ Api.PostSummarizeAll ∧ ∀ o, finishing (k o)
  | _ => False
  end.

Definition idle_entry
    (e : Api.request * (outcome Api.data → prog SummaryPanel.state Api.request Api.data)) :
    Prop :=
  e.1 ≠ Api.PostSummarizeAll ∧ ∀ o, idle (e.2 o).

Definition bulk_entry
    (e : Api.request * (outcome Api.data → prog SummaryPanel.state Api.request Api.data)) :
    Prop :=
  ∀ o, finishing (e.2 o).

(** [summarizingAll] is set exactly while one bulk operation is under way. *)
Definition bulk_ok (w : world SummaryPanel.state Api.request Api.data) : Prop :=
  Forall (λ t, idle t.2) (timers w) ∧
  ((SummaryPanel.summarizingAll (ui w) = false ∧ Forall idle_entry (inflight w)) ∨
   (SummaryPanel.summarizingAll (ui w) = true ∧
    ∃ l1 e l2, inflight w = l1 ++ e :: l2 ∧ bulk_entry e ∧
               Forall idle_entry l1 ∧ Forall idle_entry l2)).

Definition is_summarize_all (r : Api.request) : bool :=
  bool_decide (r = Api.PostSummarizeAll).

(** ** App.tsx: the view of a window *)

Module App.
Inductive view := pet | summary.

(** [s.replace('#', '')]: the first ['#'] of [s] is removed. *)
Fixpoint replace_hash (s : string) : string :=
  match s with
  | EmptyString => EmptyString
  | String c s' => if decide (c = "#"%char) then s' else String c (replace_hash s')
  end.

(** The view [App] settles on for [window.location.hash]. *)
Definition App (location_hash : string) : view :=
  let hash := replace_hash location_hash in
  if decide (hash = "summary") then summary else pet.
End App.

(** [window.location.hash] in a window of the host: [loadURL] and
    [loadFile] are given the hash ['pet'] or ['summary']. *)
Definition location_hash (w : Main.BrowserWindow) : string :=
  String "#"%char (Main.page w).

(** ** Further definitions for the properties of the host *)

(** Where the host puts its windows on a work area of [screenW] by
    [screenH]. *)
Definition placed (screenW screenH : Z) (w : Main.BrowserWindow) : Prop :=
  match Main.on_closed w with
  | Main.clear_petWindow =>
      Main.x w = screenW - Main.PET_WIDTH - 40 ∧
      Main.y w = screenH - Main.PET_HEIGHT - 40 ∧
      Main.width w = Main.PET_WIDTH ∧ Main.height w = Main.PET_HEIGHT
  | Main.clear_summaryWindow =>
      Main.x w = screenW - Main.SUMMARY_WIDTH - Main.PET_WIDTH - 60 ∧
      Main.y w = screenH - Main.SUMMARY_HEIGHT - 40 ∧
      Main.width w = Main.SUMMARY_WIDTH ∧ Main.height w = Main.SUMMARY_HEIGHT
  end.

(** The channels a view has sent, oldest first. *)
Definition sent {R D : Type} (l : list (event R D)) : list string :=
  omap (λ e, match e with Sent c => Some c | _ => None end) l.

(** ** Further definitions for the properties of the companion *)

(** The callbacks the companion hands to [setTimeout]. *)
Definition bounce_reset : prog BunnyPet.state Api.request Api.data :=
  setState (BunnyPet.setBouncing false).
Definition blink_reset : prog BunnyPet.state Api.request Api.data :=
  setState (BunnyPet.setBlinking false).

(** The rest of [pollUnread] after its [await]. *)
Definition poll_continuation :
    outcome Api.data → prog BunnyPet.state Api.request Api.data :=
  match BunnyPet.pollUnread with
  | Await _ k => k
  | _ => λ _, Ret
  end.

(** Every animation that is on has its end scheduled. *)
Definition animations_end (w : world BunnyPet.state Api.request Api.data) : Prop :=
  (BunnyPet.bouncing (ui w) = true →
   (2000, bounce_reset) ∈ timers w ∨ (600, bounce_reset) ∈ timers w) ∧
  (BunnyPet.blinking (ui w) = true → (200, blink_reset) ∈ timers w) ∧
  Forall (λ t, t = (2000, bounce_reset) ∨ t = (600, bounce_reset) ∨
               t = (200, blink_reset)) (timers w) ∧
  Forall (λ e, e = (Api.GetUnreadCount, poll_continuation)) (inflight w).

(** ** ConversationCard.tsx: what a card displays

    A string is its sequence of code units. *)

(** [s.slice(0, n)] *)
Fixpoint slice_to (n : nat) (s : string) : string :=
  match n, s with
  | Datatypes.S n', String c s' => String c (slice_to n' s')
  | _, _ => EmptyString
  end.

(** [s.slice(n)] *)
Fixpoint slice_from (n : nat) (s : string) : string :=
  match n, s with
  | Datatypes.S n', String _ s' => slice_from n' s'
  | _, _ => s
  end.

(** [s.slice(-n)]: the last [n] code units, all of [s] when it is shorter. *)
Definition slice_last (n : nat) (s : string) : string :=
  slice_from (String.length s - n) s.

Module CardView.
(** [timeAgo(ts)], with [Date.now()] an argument (milliseconds); [ts] is in
    whole seconds. *)
Definition timeAgo (now : Z) (ts : Z) : string :=
  let seconds := now `div` 1000 - ts in
  if decide (seconds < 60) then "just now"
  else if decide (seconds < 3600) then pretty (seconds `div` 60) +:+ "m ago"
  else if decide (seconds < 86400) then pretty (seconds `div` 3600) +:+ "h ago"
  else pretty (seconds `div` 86400) +:+ "d ago".

Definition urgencyColor (urgency : string) : string :=
  if decide (urgency = "high") then "#ff4757"
  else if decide (urgency = "medium") then "#ffa502"
  else if decide (urgency = "low") then "#2ed573"
  else "#a0a0a0".

Definition messageCount (conversation : Conversation.t) : nat :=
  length (Conversation.messages conversation).

(** [conversation.messages[messageCount - 1]]: [undefined] without
    messages. *)
Definition lastMessage (conversation : Conversation.t) : option Message.t :=
  last (Conversation.messages conversation).

(** The text of the preview paragraph. *)
Definition preview (conversation : Conversation.t) : string :=
  match lastMessage conversation with
  | Some m =>
      slice_to 80 (Message.text m) +:+
      (if decide (80 < String.length (Message.text m))%nat then "..." else "")
  | None => "No messages"
  end.

(** The avatar: [conversation.sender.slice(-2)]. *)
Definition avatar (conversation : Conversation.t) : string :=
  slice_last 2 (Conversation.sender conversation).
End CardView.

(** ** ChatView.tsx

    [chatWithTamaBotchi(text, history)] is imported from the api module; it
    is one request, which resolves with [{reply}] or rejects.  [trim] is
    [String.prototype.trim].  A run of the view is one mount of it, from
    its initial state. *)

Module ChatView.
Inductive Role := user | assistant.

Record ChatMessage := {
  role : Role;
  content : string;
}.

Definition GREETING : ChatMessage := {|
  role := assistant;
  content := "Hi! I'm TamaBotchi, Jesh's personal AI assistant. I can help you schedule meetings, check reminders, summarize messages, or just chat. What do you need?";
|}.

Definition errMsg : ChatMessage := {|
  role := assistant;
  content := "Sorry, I couldn't connect right now. Make sure the TamaBotchi agent is running!";
|}.

Inductive request :=
| Chat (text : string) (history : list ChatMessage).

Record data := {
  reply : string;
}.

Record state := {
  messages : list ChatMessage;
  input : string;
  loading : bool;
}.

Definition setMessages (v : list ChatMessage) (s : state) : state :=
  {| messages := v; input := input s; loading := loading s |}.
Definition setInput (v : string) (s : state) : state :=
  {| messages := messages s; input := v; loading := loading s |}.
Definition setLoading (v : bool) (s : state) : state :=
  {| messages := messages s; input := input s; loading := v |}.
(** [setMessages((prev) => [...prev, m])] *)
Definition appendMessage (m : ChatMessage) (s : state) : state :=
  setMessages (messages s ++ [m]) s.

Definition initial : state :=
  {| messages := [GREETING]; input := ""; loading := false |}.

Section Component.
Context (trim : string → string).

(** [l.slice(0, -1)] *)
Definition slice_but_last {A} (l : list A) : list A := take (length l - 1) l.

Definition sendMessage (s : state) : prog state request data :=
  let text := trim (input s) in
  if bool_decide (text = "") || loading s then Ret
  else
    let userMsg := {| role := user; content := text |} in
    let nextMessages := messages s ++ [userMsg] in
    setState (setMessages nextMessages) ;;
    setState (setInput "") ;;
    setState (setLoading true) ;;
    try_catch
      (let history :=
         (λ m, {| role := role m; content := content m |}) <$> drop 1 nextMessages in
       let priorHistory := slice_but_last history in
       await (Chat text priorHistory) (λ result,
       let reply := {| role := assistant; content := reply result |} in
       setState (appendMessage reply)))
      (setState (appendMessage errMsg)) ;;
    setState (setLoading false).

Definition handleKeyDown (key : string) (shiftKey : bool) (s : state) :
    prog state request data :=
  if bool_decide (key = "Enter") && negb shiftKey then call (sendMessage s) else Ret.

Definition handleClear : prog state request data :=
  setState (setMessages [GREETING]) ;;
  setState (setInput "").

Inductive event :=
| Change (value : string)                  (* typing into the textarea *)
| KeyDown (key : string) (shiftKey : bool)
| ClickSend
| ClickClear.

Definition handler (e : event) (s : state) : prog state request data :=
  match e with
  | Change value =>
      (* the textarea is disabled={loading} *)
      if loading s then Ret else setState (setInput value)
  | KeyDown key shiftKey =>
      if loading s then Ret else handleKeyDown key shiftKey s
  | ClickSend =>
      (* disabled={loading || !input.trim()} *)
      if loading s || bool_decide (trim (input s) = "") then Ret else sendMessage s
  | ClickClear => handleClear
  end.
End Component.

(** What is appended to the transcript when the request settles. *)
Definition answer (o : outcome data) : ChatMessage :=
  match o with
  | Resolved result => {| role := assistant; content := reply result |}
  | Rejected => errMsg
  end.
End ChatView.

(** A suspended [sendMessage]: when it is resumed it appends the answer and
    clears [loading], and that is all it does. *)
Definition answers
    (k : outcome ChatView.data → prog ChatView.state ChatView.request ChatView.data) :
    Prop :=
  ∀ o w,
    exec (k o) w =
    set_ui (λ s, ChatView.setLoading false (ChatView.appendMessage (ChatView.answer o) s)) w.

(** [loading] is set exactly while one request is outstanding, and the
    transcript starts with the greeting. *)
Definition chat_ok
    (w : world ChatView.state ChatView.request ChatView.data) : Prop :=
  timers w = [] ∧
  (∃ rest, ChatView.messages (ui w) = ChatView.GREETING :: rest) ∧
  ((ChatView.loading (ui w) = false ∧ inflight w = []) ∨
   (ChatView.loading (ui w) = true ∧
    ∃ r k, inflight w = [(r, k)] ∧ answers k)).

(** ** CalendarView.tsx

    [fetchCalendarEvents], [fetchReminders] and [scheduleEvent] are imported
    from the api module.  [Promise.all([fetchCalendarEvents(14),
    fetchReminders()])] is awaited as one promise: it resolves with both
    results or rejects, and the view never observes the two calls apart, so
    the pair is one request here.  A run of the view is one mount of it,
    from its initial state. *)

Module CalendarEvent.
Record t := {
  title : string;
  start : string;
  end_ : string;
  calendar : string;
  notes : string;
}.
End CalendarEvent.

Module Reminder.
Record t := {
  name : string;
  due : option string;
  list_ : string;
  body : string;
}.
End Reminder.

Module ScheduleForm.
Record t := {
  title : string;
  date : string;
  startTime : string;
  endTime : string;
  notes : string;
  calendarName : string;
}.

(** [keyof ScheduleForm] *)
Inductive key := Title | Date | StartTime | EndTime | Notes | CalendarName.

(** [{ ...prev, [field]: value }] *)
Definition set (field : key) (value : string) (prev : t) : t :=
  match field with
  | Title => {| title := value; date := date prev; startTime := startTime prev;
                endTime := endTime prev; notes := notes prev;
                calendarName := calendarName prev |}
  | Date => {| title := title prev; date := value; startTime := startTime prev;
               endTime := endTime prev; notes := notes prev;
               calendarName := calendarName prev |}
  | StartTime => {| title := title prev; date := date prev; startTime := value;
                    endTime := endTime prev; notes := notes prev;
                    calendarName := calendarName prev |}
  | EndTime => {| title := title prev; date := date prev; startTime := startTime prev;
                  endTime := value; notes := notes prev;
                  calendarName := calendarName prev |}
  | Notes => {| title := title prev; date := date prev; startTime := startTime prev;
                endTime := endTime prev; notes := value;
                calendarName := calendarName prev |}
  | CalendarName => {| title := title prev; date := date prev;
                       startTime := startTime prev; endTime := endTime prev;
                       notes := notes prev; calendarName := value |}
  end.
End ScheduleForm.

Definition EMPTY_FORM : ScheduleForm.t := {|
  ScheduleForm.title := "";
  ScheduleForm.date := "";
  ScheduleForm.startTime := "";
  ScheduleForm.endTime := "";
  ScheduleForm.notes := "";
  ScheduleForm.calendarName := "Calendar";
|}.

(** The argument of [scheduleEvent]. *)
Module ScheduleRequest.
Record t := {
  title : string;
  start_iso : string;
  end_iso : string;
  notes : string;
  calendar_name : string;
}.
End ScheduleRequest.

Module EventsData.
Record t := {
  events : option (list CalendarEvent.t);
  permission_error : option string;
}.
End EventsData.

Module RemindersData.
Record t := {
  reminders : option (list Reminder.t);
  permission_error : option string;
}.
End RemindersData.

(** [if (x)] on a possibly-null string: null and the empty string are falsy. *)
Definition truthy_string (x : option string) : bool :=
  match x with
  | Some s => negb (bool_decide (s = ""))
  | None => false
  end.

(** [a || b] on possibly-null strings. *)
Definition js_or_string (a b : option string) : option string :=
  if truthy_string a then a else b.

Module CalendarView.
Inductive request :=
| FetchCalendar (days : Z)
| ScheduleEvent (req : ScheduleRequest.t).

(** [[eventsData, remindersData]]; the result of [scheduleEvent] is not
    looked at. *)
Record data := {
  eventsData : EventsData.t;
  remindersData : RemindersData.t;
}.

Record state := {
  events : list CalendarEvent.t;
  reminders : list Reminder.t;
  loading : bool;
  error : option string;
  showForm : bool;
  scheduling : bool;
  successMsg : option string;
  form : ScheduleForm.t;
}.

Definition setEvents (v : list CalendarEvent.t) (s : state) : state :=
  {| events := v; reminders := reminders s; loading := loading s; error := error s;
     showForm := showForm s; scheduling := scheduling s; successMsg := successMsg s;
     form := form s |}.
Definition setReminders (v : list Reminder.t) (s : state) : state :=
  {| events := events s; reminders := v; loading := loading s; error := error s;
     showForm := showForm s; scheduling := scheduling s; successMsg := successMsg s;
     form := form s |}.
Definition setLoading (v : bool) (s : state) : state :=
  {| events := events s; reminders := reminders s; loading := v; error := error s;
     showForm := showForm s; scheduling := scheduling s; successMsg := successMsg s;
     form := form s |}.
Definition setError (v : option string) (s : state) : state :=
  {| events := events s; reminders := reminders s; loading := loading s; error := v;
     showForm := showForm s; scheduling := scheduling s; successMsg := successMsg s;
     form := form s |}.
Definition setShowForm (v : bool) (s : state) : state :=
  {| events := events s; reminders := reminders s; loading := loading s;
     error := error s; showForm := v; scheduling := scheduling s;
     successMsg := successMsg s; form := form s |}.
Definition setScheduling (v : bool) (s : state) : state :=
  {| events := events s; reminders := reminders s; loading := loading s;
     error := error s; showForm := showForm s; scheduling := v;
     successMsg := successMsg s; form := form s |}.
Definition setSuccessMsg (v : option string) (s : state) : state :=
  {| events := events s; reminders := reminders s; loading := loading s;
     error := error s; showForm := showForm s; scheduling := scheduling s;
     successMsg := v; form := form s |}.
Definition setForm (v : ScheduleForm.t) (s : state) : state :=
  {| events := events s; reminders := reminders s; loading := loading s;
     error := error s; showForm := showForm s; scheduling := scheduling s;
     successMsg := successMsg s; form := v |}.

Definition initial : state :=
  {| events := []; reminders := []; loading := true; error := None;
     showForm := false; scheduling := false; successMsg := None;
     form := EMPTY_FORM |}.

Definition unreachable : string :=
  "Could not reach the TamaBotchi agent. Make sure it is running on port 5000.".
Definition added : string := "Event added to Calendar!".
Definition failed : string := "Failed to create event. Check Calendar permissions.".

Definition loadData : prog state request data :=
  setState (setLoading true) ;;
  setState (setError None) ;;
  try_catch
    (await (FetchCalendar 14) (λ result,
     let eventsData := eventsData result in
     let remindersData := remindersData result in
     let permErr :=
       js_or_string (EventsData.permission_error eventsData)
                    (RemindersData.permission_error remindersData) in
     (if truthy_string permErr then setState (setError permErr) else Ret) ;;
     setState (setEvents (js_or_list (EventsData.events eventsData) [])) ;;
     setState (setReminders (js_or_list (RemindersData.reminders remindersData) []))))
    (setState (setError (Some unreachable))) ;;
  setState (setLoading false).

(** [setForm((prev) => ({ ...prev, [field]: value }))] *)
Definition handleFormChange (field : ScheduleForm.key) (value : string) :
    prog state request data :=
  setState (λ s, setForm (ScheduleForm.set field value (form s)) s).

Section Component.
Context (trim : string → string).

Definition handleSchedule (s : state) : prog state request data :=
  let form := form s in
  if bool_decide (trim (ScheduleForm.title form) = "")
     || bool_decide (ScheduleForm.date form = "")
     || bool_decide (ScheduleForm.startTime form = "")
     || bool_decide (ScheduleForm.endTime form = "")
  then Ret
  else
    setState (setScheduling true) ;;
    try_catch
      (await
         (ScheduleEvent {|
            ScheduleRequest.title := trim (ScheduleForm.title form);
            ScheduleRequest.start_iso :=
              ScheduleForm.date form +:+ "T" +:+ ScheduleForm.startTime form +:+ ":00";
            ScheduleRequest.end_iso :=
              ScheduleForm.date form +:+ "T" +:+ ScheduleForm.endTime form +:+ ":00";
            ScheduleRequest.notes := trim (ScheduleForm.notes form);
            ScheduleRequest.calendar_name :=
              if bool_decide (ScheduleForm.calendarName form = "") then "Calendar"
              else ScheduleForm.calendarName form;
          |})
         (λ _,
          setState (setForm EMPTY_FORM) ;;
          setState (setShowForm false) ;;
          setState (setSuccessMsg (Some added)) ;;
          setTimeout (setState (setSuccessMsg None)) 3000 ;;
          call loadData))
      (setState (setSuccessMsg (Some failed)) ;;
       setTimeout (setState (setSuccessMsg None)) 4000) ;;
    setState (setScheduling false).

(** Which of the three returns of the component is on screen. *)
Inductive Screen := LoadingScreen | ErrorScreen | MainScreen.

Definition screen (s : state) : Screen :=
  if loading s then LoadingScreen
  else if truthy_string (error s)
          && bool_decide (length (events s) = 0%nat)
          && bool_decide (length (reminders s) = 0%nat)
  then ErrorScreen
  else MainScreen.

Inductive user :=
| Mount                                          (* useEffect(..., []) *)
| ClickRetry                                     (* the error screen's button *)
| ClickAdd                                       (* "+ Schedule" / "Cancel" *)
| Change (field : ScheduleForm.key) (value : string)
| Submit.                                        (* the form's onSubmit *)

(** A control can be used only when it is rendered; the submit button is
    [disabled={scheduling}]. *)
Definition handler (e : user) (s : state) : prog state request data :=
  match e, screen s with
  | Mount, _ => loadData
  | ClickRetry, ErrorScreen => loadData
  | ClickAdd, MainScreen => setState (λ s, setShowForm (negb (showForm s)) s)
  | Change field value, MainScreen =>
      if showForm s then handleFormChange field value else Ret
  | Submit, MainScreen =>
      if showForm s && negb (scheduling s) then handleSchedule s else Ret
  | _, _ => Ret
  end.
End Component.

(** [() => setSuccessMsg(null)] *)
Definition clear_toast : prog state request data := setState (setSuccessMsg None).

(** The state change made by the rest of [loadData] once the fetch has
    settled. *)
Definition loaded (o : outcome data) (s : state) : state :=
  setLoading false
    match o with
    | Resolved result =>
        let permErr :=
          js_or_string (EventsData.permission_error (eventsData result))
                       (RemindersData.permission_error (remindersData result)) in
        setReminders (js_or_list (RemindersData.reminders (remindersData result)) [])
          (setEvents (js_or_list (EventsData.events (eventsData result)) [])
             (if truthy_string permErr then setError permErr s else s))
    | Rejected => setError (Some unreachable) s
    end.

Definition is_load (r : request) : bool :=
  match r with FetchCalendar _ => true | ScheduleEvent _ => false end.
Definition is_schedule (r : request) : bool :=
  match r with ScheduleEvent _ => true | FetchCalendar _ => false end.

(** [formatDue] and the class of the due label.  [getTime s] is
    [new Date(s).getTime()], with [None] for NaN (an invalid date), against
    which every comparison is false; [now] is [new Date().getTime()]. *)
Section Dates.
Context (getTime : string → option Z) (toLocaleDateString : string → string).

Definition formatDue (now : Z) (due : option string) : string :=
  if negb (truthy_string due) then "No due date"
  else
    let d := default "" due in
    match getTime d with
    | Some t =>
        let diff := t - now in
        if decide (diff < 0) then "Overdue"
        else if decide (diff < 86400000) then "Today"
        else if decide (diff < 172800000) then "Tomorrow"
        else toLocaleDateString d
    | None => toLocaleDateString d
    end.

(** [r.due && new Date(r.due) < new Date() ? '...--overdue' : ''] *)
Definition dueClass (now : Z) (due : option string) : string :=
  if truthy_string due
     && match getTime (default "" due) with
        | Some t => bool_decide (t < now)
        | None => false
        end
  then "calendar-view__reminder-due--overdue"
  else "".
End Dates.
End CalendarView.

(** What the calendar view keeps with its outstanding requests: the rest of
    [loadData], and the rest of [handleSchedule]. *)
Definition loads
    (k : outcome CalendarView.data →
         prog CalendarView.state CalendarView.request CalendarView.data) : Prop :=
  ∀ o w, exec (k o) w = set_ui (CalendarView.loaded o) w.

Definition schedules
    (k : outcome CalendarView.data →
         prog CalendarView.state CalendarView.request CalendarView.data) : Prop :=
  ∀ o w,
    exec (k o) w =
    set_ui (CalendarView.setScheduling false)
      match o with
      | Resolved _ =>
          exec CalendarView.loadData
            (add_timer 3000 CalendarView.clear_toast
               (set_ui (λ s, CalendarView.setSuccessMsg (Some CalendarView.added)
                               (CalendarView.setShowForm false
                                  (CalendarView.setForm EMPTY_FORM s))) w))
      | Rejected =>
          add_timer 4000 CalendarView.clear_toast
            (set_ui (CalendarView.setSuccessMsg (Some CalendarView.failed)) w)
      end.

Definition calendar_entry
    (e : CalendarView.request *
         (outcome CalendarView.data →
          prog CalendarView.state CalendarView.request CalendarView.data)) : Prop :=
  match e.1 with
  | CalendarView.FetchCalendar _ => loads e.2
  | CalendarView.ScheduleEvent _ => schedules e.2
  end.

(** A schedule request made from a filled-in form. *)
Definition from_form (trim : string → string) (req : ScheduleRequest.t) : Prop :=
  ∃ form : ScheduleForm.t,
    ScheduleRequest.title req = trim (ScheduleForm.title form) ∧
    ScheduleRequest.title req ≠ "" ∧
    ScheduleForm.date form ≠ "" ∧
    ScheduleForm.startTime form ≠ "" ∧
    ScheduleForm.endTime form ≠ "" ∧
    ScheduleRequest.start_iso req =
      ScheduleForm.date form +:+ "T" +:+ ScheduleForm.startTime form +:+ ":00" ∧
    ScheduleRequest.end_iso req =
      ScheduleForm.date form +:+ "T" +:+ ScheduleForm.endTime form +:+ ":00" ∧
    ScheduleRequest.notes req = trim (ScheduleForm.notes form) ∧
    ScheduleRequest.calendar_name req ≠ "".

Definition calendar_event (trim : string → string)
    (e : event CalendarView.request CalendarView.data) : Prop :=
  match e with
  | Issued (CalendarView.FetchCalendar days) => days = 14
  | Issued (CalendarView.ScheduleEvent req) => from_form trim req
  | Uncaught => False
  | _ => True
  end.

Definition toast_timer
    (t : Z * prog CalendarView.state CalendarView.request CalendarView.data) : Prop :=
  t.2 = CalendarView.clear_toast ∧ (t.1 = 3000 ∨ t.1 = 4000).

Definition calendar_ok (trim : string → string)
    (w : world CalendarView.state CalendarView.request CalendarView.data) : Prop :=
  Forall calendar_entry (inflight w) ∧
  Forall toast_timer (timers w) ∧
  Forall (calendar_event trim) (log w) ∧
  outstanding CalendarView.is_schedule w =
    (if CalendarView.scheduling (ui w) then 1 else 0)%nat ∧
  (CalendarView.successMsg (ui w) ≠ None → timers w ≠ []) ∧
  (w = start CalendarView.initial ∨
   (CalendarView.loading (ui w) = true → outstanding CalendarView.is_load w ≠ 0%nat)).

(** A form that passes the check at the head of [handleSchedule]. *)
Definition complete (trim : string → string) (form : ScheduleForm.t) : Prop :=
  trim (ScheduleForm.title form) ≠ "" ∧ ScheduleForm.date form ≠ "" ∧
  ScheduleForm.startTime form ≠ "" ∧ ScheduleForm.endTime form ≠ "".

(** Sample data for the calendar view: an empty answer, and a user filling
    in the schedule form. *)
Definition no_data : CalendarView.data := {|
  CalendarView.eventsData :=
    {| EventsData.events := None; EventsData.permission_error := None |};
  CalendarView.remindersData :=
    {| RemindersData.reminders := None; RemindersData.permission_error := None |};
|}.

Definition fill_in : list (input CalendarView.user CalendarView.data) :=
  [User CalendarView.Mount; Settle 0 (Resolved no_data);
   User CalendarView.ClickAdd;
   User (CalendarView.Change ScheduleForm.Title "Lunch");
   User (CalendarView.Change ScheduleForm.Date "2026-01-05");
   User (CalendarView.Change ScheduleForm.StartTime "12:00");
   User (CalendarView.Change ScheduleForm.EndTime "13:00")].

(** Every mount is numbered by a render that has happened. *)
Definition instances_numbered (s : SummaryPanel.state) : Prop :=
  ∀ id i, SummaryPanel.instances s !! id = Some i → (i < SummaryPanel.renders s)%nat.

(** * Properties *)

(** ** The comparator sort *)

Section JsSortFacts.
Context {A : Type} (cmp : A → A → Z) (before : A → A → Prop).
(** [cmp] orders as [before] does. *)
Hypothesis cmp_le : ∀ a b, cmp a b ≤ 0 → before a b.
Hypothesis cmp_gt : ∀ a b, 0 < cmp a b → before b a.

Lemma sort_insert_Permutation x l : sort_insert cmp x l ≡ₚ x :: l.
Proof.
  induction l as [|y l IH]; simpl; [done|].
  case_decide; [done|].
  rewrite IH. apply Permutation_swap.
Qed.

Lemma js_sort_Permutation l : js_sort cmp l ≡ₚ l.
Proof.
  induction l as [|x l IH]; simpl; [done|].
  unfold js_sort in *. simpl. rewrite sort_insert_Permutation. by f_equiv.
Qed.

Lemma sort_insert_HdRel x y l :
  before y x → HdRel before y l → HdRel before y (sort_insert cmp x l).
Proof.
  intros Hyx Hl. destruct l as [|z l]; simpl.
  - by constructor.
  - case_decide; constructor; [done|]. by inversion Hl.
Qed.

Lemma sort_insert_Sorted x l :
  Sorted before l → Sorted before (sort_insert cmp x l).
Proof.
  induction 1 as [|y l Hl IH Hhd]; simpl.
  - repeat constructor.
  - case_decide as Hc.
    + constructor; [by constructor|]. constructor. by apply cmp_le.
    + constructor; [done|]. apply sort_insert_HdRel; [|done].
      apply cmp_gt. lia.
Qed.

Lemma js_sort_Sorted l : Sorted before (js_sort cmp l).
Proof.
  induction l as [|x l IH]; [constructor|].
  unfold js_sort in *. simpl. by apply sort_insert_Sorted.
Qed.
End JsSortFacts.

#[local] Instance latest_first_trans : Transitive latest_first.
Proof. unfold latest_first. intros a b c ??. lia. Qed.

Lemma by_last_activity_sorted l :
  StronglySorted latest_first (js_sort SummaryPanel.by_last_activity l).
Proof.
  apply Sorted_StronglySorted; [apply _|].
  apply js_sort_Sorted; unfold SummaryPanel.by_last_activity, latest_first;
    intros; lia.
Qed.

(** ** Invariants of a view's runs *)

Section RunFacts.
Context {S R D E : Type} (handler : E → S → prog S R D).

(** A handler that starts with an [await], and whose request settles
    before anything else happens. *)
Lemma run_await_settled e (w : world S R D) r k o :
  handler e (ui w) = Await r k →
  run handler w [User e; Settle (length (inflight w)) o] =
  exec (k o)
    (World (ui w) (inflight w) (timers w) (log w ++ [Issued r; Settled r o])).
Proof.
  intros He. simpl. rewrite He. simpl.
  rewrite list_lookup_middle by done.
  unfold record, drop_inflight. simpl.
  by rewrite delete_middle, app_nil_r, <-(assoc_L (++)).
Qed.
End RunFacts.

Section RespectsFacts.
Context {S R D E : Type} (I : S → Prop) (handler : E → S → prog S R D).

Lemma exec_respects (p : prog S R D) (w : world S R D) :
  respects I p → respectful I w → respectful I (exec p w).
Proof.
  revert w. induction p as [| |f k IH|a IHa k IHk|r k IH|cb IHcb ms k IHk|c k IH];
    simpl; intros w Hp Hw.
  - done.
  - destruct Hw as (? & ? & ?). by repeat split.
  - destruct Hp as [Hf Hk]. apply IH; [done|].
    destruct Hw as (? & ? & ?). repeat split; simpl; auto.
  - destruct Hp as [Ha Hk]. auto.
  - destruct Hw as (? & Hin & ?). repeat split; simpl; [done| |done].
    apply Forall_app. split; [done|]. by constructor.
  - destruct Hp as [Hcb Hk]. apply IHk; [done|].
    destruct Hw as (? & ? & Ht). repeat split; simpl; [done|done|].
    apply Forall_app. split; [done|]. by constructor.
  - apply IH; [done|]. destruct Hw as (? & ? & ?). by repeat split.
Qed.

Hypothesis handler_respects : ∀ e s, respects I (handler e s).

Lemma step_respects (w : world S R D) (i : input E D) :
  respectful I w → respectful I (step handler w i).
Proof.
  intros Hw. destruct i as [e|n o|n]; simpl.
  - by apply exec_respects.
  - destruct (inflight w !! n) as [[r k]|] eqn:Hn; [|done].
    destruct Hw as (? & Hin & ?).
    apply exec_respects.
    + by apply (Forall_lookup_1 _ _ _ _ Hin Hn).
    + repeat split; simpl; [done| |done]. by apply Forall_delete.
  - destruct (timers w !! n) as [[ms cb]|] eqn:Hn; [|done].
    destruct Hw as (? & ? & Ht).
    apply exec_respects.
    + by apply (Forall_lookup_1 _ _ _ _ Ht Hn).
    + repeat split; simpl; [done|done|]. by apply Forall_delete.
Qed.

Lemma run_respectful (w : world S R D) (ins : list (input E D)) :
  respectful I w → respectful I (run handler w ins).
Proof.
  revert w. induction ins as [|i ins IH]; simpl; [done|].
  intros w Hw. apply IH. by apply step_respects.
Qed.

Lemma run_respects (s : S) (ins : list (input E D)) :
  I s → I (ui (run handler (start s) ins)).
Proof.
  intros Hs. apply run_respectful. by repeat split; simpl.
Qed.
End RespectsFacts.

Section TrackingFacts.
Context {S R D V E : Type} (v : S → V) (target : R → outcome D → option V).
Context (v0 : V) (handler : E → S → prog S R D).

Lemma reported_snoc_quiet l e :
  (∀ r o, e ≠ Settled r o) →
  reported target v0 (l ++ [e]) = reported target v0 l.
Proof.
  intros He. unfold reported. rewrite foldl_app. simpl.
  destruct e; try done. by destruct (He r o).
Qed.

Lemma reported_snoc_settled l r o :
  reported target v0 (l ++ [Settled r o]) =
  default (reported target v0 l) (target r o).
Proof. unfold reported. by rewrite foldl_app. Qed.

Lemma exec_reported (p : prog S R D) (w : world S R D) :
  reported target v0 (log (exec p w)) = reported target v0 (log w).
Proof.
  revert w. induction p as [| |f k IH|a IHa k IHk|r k IH|cb IHcb ms k IHk|c k IH];
    simpl; intros w.
  - done.
  - by apply reported_snoc_quiet.
  - by rewrite IH.
  - by rewrite IHk, IHa.
  - by apply reported_snoc_quiet.
  - by rewrite IHk.
  - rewrite IH. simpl. by apply reported_snoc_quiet.
Qed.

Lemma exec_keeps (p : prog S R D) (w : world S R D) :
  keeps v target p → pending_ok v target w →
  v (ui (exec p w)) = v (ui w) ∧ pending_ok v target (exec p w).
Proof.
  revert w. induction p as [| |f k IH|a IHa k IHk|r k IH|cb IHcb ms k IHk|c k IH];
    simpl; intros w Hp Hw.
  - done.
  - done.
  - destruct Hp as [Hf Hk]. destruct (IH (set_ui f w) Hk Hw) as [-> ?].
    simpl. by rewrite Hf.
  - destruct Hp as [Ha Hk]. destruct (IHa w Ha Hw) as [Hv Hw'].
    destruct (IHk (exec a w) Hk Hw') as [-> ?]. by rewrite Hv.
  - split; [done|]. destruct Hw as [Hin Ht]. split; simpl; [|done].
    apply Forall_app. split; [done|]. by constructor.
  - destruct Hp as [Hcb Hk].
    apply (IHk (add_timer ms cb w) Hk).
    destruct Hw as [Hin Ht]. split; simpl; [done|].
    apply Forall_app. split; [done|]. by constructor.
  - by apply (IH (record (Sent c) w)).
Qed.

Lemma exec_lands (p : prog S R D) (x : V) (w : world S R D) :
  lands v target x p → pending_ok v target w →
  v (ui (exec p w)) = x ∧ pending_ok v target (exec p w).
Proof.
  revert w. induction p as [| |f k IH|a IHa k IHk|r k IH|cb IHcb ms k IHk|c k IH];
    simpl; intros w Hp Hw; try done.
  destruct Hp as [[Hf Hk]|Hk].
  - destruct (exec_keeps k (set_ui f w) Hk Hw) as [-> ?]. simpl. by rewrite Hf.
  - by apply IH.
Qed.

Hypothesis handler_keeps : ∀ e s, keeps v target (handler e s).

Lemma step_tracked (w : world S R D) (i : input E D) :
  tracked v target v0 w → tracked v target v0 (step handler w i).
Proof.
  intros (Hv & Hin & Ht). destruct i as [e|n o|n]; simpl.
  - destruct (exec_keeps (handler e (ui w)) w) as [Hv' [? ?]]; [done..|].
    repeat split; [|done..]. by rewrite Hv', exec_reported.
  - destruct (inflight w !! n) as [[r k]|] eqn:Hn; [|done].
    pose proof (Forall_lookup_1 _ _ _ _ Hin Hn o) as Hk. simpl in Hk.
    assert (pending_ok v target (record (Settled r o) (drop_inflight n w))) as Hw'.
    { split; simpl; [|done]. by apply Forall_delete. }
    destruct (target r o) as [x|] eqn:Hx.
    + destruct (exec_lands (k o) x _ Hk Hw') as [Hv' [? ?]].
      repeat split; [|done..].
      rewrite Hv', exec_reported. simpl.
      by rewrite reported_snoc_settled, Hx.
    + destruct (exec_keeps (k o) _ Hk Hw') as [Hv' [? ?]].
      repeat split; [|done..].
      rewrite Hv', exec_reported. simpl.
      by rewrite reported_snoc_settled, Hx.
  - destruct (timers w !! n) as [[ms cb]|] eqn:Hn; [|done].
    pose proof (Forall_lookup_1 _ _ _ _ Ht Hn) as Hk. simpl in Hk.
    assert (pending_ok v target (drop_timer n w)) as Hw'.
    { split; simpl; [done|]. by apply Forall_delete. }
    destruct (exec_keeps cb _ Hk Hw') as [Hv' [? ?]].
    repeat split; [|done..]. by rewrite Hv', exec_reported.
Qed.

Lemma run_tracked_world (w : world S R D) (ins : list (input E D)) :
  tracked v target v0 w → tracked v target v0 (run handler w ins).
Proof.
  revert w. induction ins as [|i ins IH]; simpl; [done|].
  intros w Hw. apply IH. by apply step_tracked.
Qed.

Lemma run_tracked (s : S) (ins : list (input E D)) :
  v s = v0 →
  v (ui (run handler (start s) ins)) =
  reported target v0 (log (run handler (start s) ins)).
Proof.
  intros Hs. apply run_tracked_world. by repeat split; simpl.
Qed.
End TrackingFacts.

(** ** The conversation sync engine (SummaryPanel, ConversationCard) *)

(** A card's setter touches the cards only. *)
Lemma card_conversations id inst f s :
  SummaryPanel.conversations (SummaryPanel.card id inst f s) =
  SummaryPanel.conversations s.
Proof. unfold SummaryPanel.card. by case_decide. Qed.

Lemma card_unreadCount id inst f s :
  SummaryPanel.unreadCount (SummaryPanel.card id inst f s) =
  SummaryPanel.unreadCount s.
Proof. unfold SummaryPanel.card. by case_decide. Qed.

Lemma card_loading id inst f s :
  SummaryPanel.loading (SummaryPanel.card id inst f s) = SummaryPanel.loading s.
Proof. unfold SummaryPanel.card. by case_decide. Qed.

Lemma card_summarizingAll id inst f s :
  SummaryPanel.summarizingAll (SummaryPanel.card id inst f s) =
  SummaryPanel.summarizingAll s.
Proof. unfold SummaryPanel.card. by case_decide. Qed.

Lemma card_instances id inst f s :
  SummaryPanel.instances (SummaryPanel.card id inst f s) = SummaryPanel.instances s.
Proof. unfold SummaryPanel.card. by case_decide. Qed.

Lemma card_renders id inst f s :
  SummaryPanel.renders (SummaryPanel.card id inst f s) = SummaryPanel.renders s.
Proof. unfold SummaryPanel.card. by case_decide. Qed.

(** The mount that handed the setter out is the one under the key: the
    setter acts on its state.  Otherwise it does nothing. *)
Lemma card_instance id inst f id' s :
  SummaryPanel.instance id' (SummaryPanel.card id inst f s) =
  SummaryPanel.instance id' s.
Proof. unfold SummaryPanel.card. by case_decide. Qed.

Lemma card_mounted id inst f s :
  SummaryPanel.instance id s = inst →
  SummaryPanel.cards (SummaryPanel.card id inst f s) =
  alter f id (SummaryPanel.cards s).
Proof. intros H. unfold SummaryPanel.card. by rewrite decide_True. Qed.

Lemma card_absent id inst f s :
  SummaryPanel.cards s !! id = None →
  SummaryPanel.card id inst f s = s.
Proof.
  intros H. unfold SummaryPanel.card. case_decide; [|done].
  destruct s as [cs u l sa cards ins r]. simpl in *. f_equal.
  apply map_eq. intros i. destruct (decide (i = id)) as [->|Hne].
  - by rewrite lookup_alter_eq, H.
  - by rewrite lookup_alter_ne.
Qed.

Lemma card_unmounted id inst f s :
  SummaryPanel.instance id s ≠ inst →
  SummaryPanel.card id inst f s = s.
Proof. intros H. unfold SummaryPanel.card. by rewrite decide_False. Qed.

Section PanelFacts.
Context (electronAPI : option ElectronAPI).

Lemma reconcile_ui w data :
  ui (reconcile electronAPI w data) =
  SummaryPanel.setLoading false
    (SummaryPanel.setUnreadCount (js_or (Api.unread_count data) 0)
       (SummaryPanel.setConversations
          (js_sort SummaryPanel.by_last_activity
             (js_or_list (Api.conversations data) []))
          (ui w))).
Proof.
  unfold reconcile.
  by rewrite (run_await_settled (SummaryPanel.handler electronAPI)
                SummaryPanel.Interval w _ _ _ eq_refl).
Qed.

Lemma handler_mirror_sorted e s :
  respects mirror_sorted (SummaryPanel.handler electronAPI e s).
Proof.
  assert (respects mirror_sorted SummaryPanel.loadConversations) as Hload.
  { simpl. intros [data|]; simpl; [|done].
    repeat split; try done. intros ? _. apply by_last_activity_sorted. }
  destruct e as [| | | | |id]; simpl; try exact Hload.
  - unfold SummaryPanel.handleClose. by destruct electronAPI.
  - case_decide; simpl; [done|]. intros [data|]; simpl; [|done].
    split; [exact Hload|done].
  - destruct (_ || _); simpl; [done|].
    split; [done|]. intros [data|]; simpl; [|done].
    intros [data'|]; simpl; [|done].
    repeat split; try done. intros ? _. apply by_last_activity_sorted.
  - destruct (SummaryPanel.find_conversation id s) as [conversation|]; [|done].
    destruct (SummaryPanel.cards s !! id) as [c|]; [|done].
    unfold ConversationCard.handleClick.
    destruct (truthy (ConversationCard.summary c)),
      (negb (Conversation.read conversation)); simpl;
      repeat first
        [ done | exact Hload
        | by intros; unfold mirror_sorted; rewrite card_conversations
        | by intros; rewrite card_unreadCount
        | by intros; rewrite card_loading
        | split
        | intros [?|]; simpl ].
Qed.

Lemma handler_keeps_unreadCount e s :
  keeps SummaryPanel.unreadCount unread_report
    (SummaryPanel.handler electronAPI e s).
Proof.
  assert (keeps SummaryPanel.unreadCount unread_report
            SummaryPanel.loadConversations) as Hload.
  { simpl. intros [data|]; simpl; [|done]. right. left. done. }
  destruct e as [| | | | |id]; simpl; try exact Hload.
  - unfold SummaryPanel.handleClose. by destruct electronAPI.
  - case_decide; simpl; [done|]. intros [data|]; simpl; [|done].
    split; [exact Hload|done].
  - destruct (_ || _); simpl; [done|].
    split; [done|]. intros [data|]; simpl; [|done].
    intros [data'|]; simpl; [|done]. right. left. done.
  - destruct (SummaryPanel.find_conversation id s) as [conversation|]; [|done].
    destruct (SummaryPanel.cards s !! id) as [c|]; [|done].
    unfold ConversationCard.handleClick.
    destruct (truthy (ConversationCard.summary c)),
      (negb (Conversation.read conversation)); simpl;
      repeat first
        [ done | exact Hload
        | by intros; unfold mirror_sorted; rewrite card_conversations
        | by intros; rewrite card_unreadCount
        | by intros; rewrite card_loading
        | split
        | intros [?|]; simpl ].
Qed.
End PanelFacts.

Section PetFacts.
Context (electronAPI : option ElectronAPI).

Lemma handler_keeps_badge e s :
  keeps BunnyPet.unreadCount badge_report (BunnyPet.handler electronAPI e s).
Proof.
  destruct e; simpl.
  - intros [data|]; simpl; [|done]. left. split; [done|]. by case_decide.
  - intros [data|]; simpl; [|done]. left. split; [done|]. by case_decide.
  - done.
  - unfold BunnyPet.handleClick. by destruct electronAPI.
Qed.

Lemma badge_poll_resolved w d :
  ∃ cb,
    badge_poll electronAPI w (Resolved d) =
    (if decide (Api.unread_count d > 0)
     then World
            (BunnyPet.setBouncing true
               (BunnyPet.setMood BunnyPet.excited
                  (BunnyPet.setUnreadCount (Api.unread_count d) (ui w))))
            (inflight w) (timers w ++ [(2000, cb)])
            (log w ++ [Issued Api.GetUnreadCount;
                       Settled Api.GetUnreadCount (Resolved d)])
     else World
            (BunnyPet.setMood BunnyPet.idle
               (BunnyPet.setUnreadCount (Api.unread_count d) (ui w)))
            (inflight w) (timers w)
            (log w ++ [Issued Api.GetUnreadCount;
                       Settled Api.GetUnreadCount (Resolved d)]))
    ∧ ∀ w', exec cb w' = set_ui (BunnyPet.setBouncing false) w'.
Proof.
  eexists. split.
  - unfold badge_poll.
    rewrite (run_await_settled (BunnyPet.handler electronAPI)
               BunnyPet.PollInterval w _ _ _ eq_refl).
    simpl. case_decide; simpl; reflexivity.
  - done.
Qed.

Lemma badge_poll_rejected w :
  badge_poll electronAPI w Rejected =
  World (BunnyPet.setMood BunnyPet.idle (ui w)) (inflight w) (timers w)
    (log w ++ [Issued Api.GetUnreadCount; Settled Api.GetUnreadCount Rejected]).
Proof.
  unfold badge_poll.
  by rewrite (run_await_settled (BunnyPet.handler electronAPI)
                BunnyPet.PollInterval w _ _ _ eq_refl).
Qed.
End PetFacts.

Lemma reported_counts l :
  counts_reported l →
  0 ≤ reported unread_report 0 l ∧ 0 ≤ reported badge_report 0 l.
Proof.
  induction l as [|e l IH] using rev_ind; [done|].
  intros [Hl He]%Forall_app. rewrite Forall_singleton in He.
  destruct (IH Hl) as [IH1 IH2].
  destruct e as [r|r [d|]| |];
    rewrite ?reported_snoc_settled, ?reported_snoc_quiet by done; try done.
  - destruct r; simpl; try done.
    split; [|done]. unfold js_or. case_decide; lia.
  - by destruct r.
Qed.

(** ** Scenarios *)

(** The store lists A (last activity 100) before B (last activity 200),
    both unread: after one reconcile the mirror is [B; A] and the counter
    is 2. *)
Example scenario_reconcile :
  let w := panel_showing [conversation_of "A" 100 false None;
                          conversation_of "B" 200 false None] 2 in
  Conversation.conversation_id <$> SummaryPanel.conversations (ui w) = ["B"; "A"] ∧
  SummaryPanel.unreadCount (ui w) = 2 ∧
  SummaryPanel.loading (ui w) = false.
Proof. vm_compute. by repeat split. Qed.

(** A click on the unsummarized card A: the card shows the spinner; the
    store returns a summary; the card shows it collapsed, under the spinner
    while the conversation is marked read, and alone once the reconcile
    that follows has been issued. *)
Example scenario_summarize :
  let handler := SummaryPanel.handler None in
  let w0 := panel_showing [conversation_of "A" 100 true None] 0 in
  let w1 := step handler w0 (User (SummaryPanel.ClickCard "A")) in
  let summarized :=
    {| Api.conversations := None; Api.unread_count := 0;
       Api.summary := Some a_summary |} in
  let w2 := run handler w1 [Settle 0 (Resolved summarized)] in
  let w3 := run handler w2 [Settle 0 (Resolved ack)] in
  ConversationCard.render <$> SummaryPanel.cards (ui w0) !! "A"
    = Some [ConversationCard.preview] ∧
  ConversationCard.render <$> SummaryPanel.cards (ui w1) !! "A"
    = Some [ConversationCard.loading_spinner] ∧
  ConversationCard.render <$> SummaryPanel.cards (ui w2) !! "A"
    = Some [ConversationCard.loading_spinner; ConversationCard.summary_block false] ∧
  fst <$> inflight w2 = [Api.PostRead "A"] ∧
  fst <$> inflight w3 = [Api.GetConversations] ∧
  ConversationCard.render <$> SummaryPanel.cards (ui w3) !! "A"
    = Some [ConversationCard.summary_block false].
Proof. vm_compute. by repeat split. Qed.

(** Clicks on a summarized card expand and collapse it. *)
Example scenario_expand :
  let handler := SummaryPanel.handler None in
  let w0 := panel_showing [conversation_of "A" 100 true (Some a_summary)] 0 in
  let w1 := step handler w0 (User (SummaryPanel.ClickCard "A")) in
  let w2 := step handler w1 (User (SummaryPanel.ClickCard "A")) in
  ConversationCard.render <$> SummaryPanel.cards (ui w1) !! "A"
    = Some [ConversationCard.summary_block true] ∧
  ConversationCard.render <$> SummaryPanel.cards (ui w2) !! "A"
    = Some [ConversationCard.summary_block false] ∧
  log w2 = log w0.
Proof. vm_compute. by repeat split. Qed.

(** ** Claims about the sync engine *)

(** C3.  After every full reconcile the mirror is sorted by [last_activity],
    latest first, whatever order the store listed the conversations in: the
    mirror a reconcile installs is a sorted rearrangement of the store's
    list, and along every run of the panel (clicks, interval ticks, requests
    settling in any order with any data) the mirror is sorted. *)
Theorem mirror_sorted_after_every_reconcile (electronAPI : option ElectronAPI) :
  (∀ w data,
     let mirror := SummaryPanel.conversations (ui (reconcile electronAPI w data)) in
     StronglySorted latest_first mirror ∧
     mirror ≡ₚ js_or_list (Api.conversations data) []) ∧
  (∀ ins,
     StronglySorted latest_first
       (SummaryPanel.conversations
          (ui (run (SummaryPanel.handler electronAPI)
                 (start SummaryPanel.initial) ins)))).
Proof.
  split.
  - intros w data. simpl. rewrite reconcile_ui. simpl. split.
    + apply by_last_activity_sorted.
    + apply js_sort_Permutation.
  - intros ins.
    apply (run_respects mirror_sorted (SummaryPanel.handler electronAPI)).
    + apply handler_mirror_sorted.
    + constructor.
Qed.




Lemma find_conversation_id id s conversation :
  SummaryPanel.find_conversation id s = Some conversation →
  Conversation.conversation_id conversation = id.
Proof.
  unfold SummaryPanel.find_conversation. intros H.
  apply fmap_Some in H as ([i c] & Hfind & ->).
  by apply list_find_Some in Hfind as (_ & ? & _).
Qed.

(** C6.  When the summarize call that a click on an unsummarized card
    issued fails (a rejection; a 30 s timeout is one), whatever happened in
    between, the failure is caught: no request is issued (no retry),
    nothing is thrown, and mirror, counter and the other cards are what
    they were.  If the card that issued the call is still mounted, its
    [summary] is what it was, its [loading] is cleared and [expanded] is
    untouched, so that a card whose summary was [null] shows the preview
    alone again.  If that card has been unmounted in the meantime, the
    result is discarded and nothing changes at all, also when a new card of
    the same conversation has been mounted since. *)
Theorem summarize_failure_restores_card (electronAPI : option ElectronAPI)
    (w : world SummaryPanel.state Api.request Api.data)
    (id : string) (conversation : Conversation.t) (c : ConversationCard.state) :
  SummaryPanel.find_conversation id (ui w) = Some conversation →
  SummaryPanel.cards (ui w) !! id = Some c →
  ConversationCard.summary c = None →
  ∃ k,
    inflight (step (SummaryPanel.handler electronAPI) w
                (User (SummaryPanel.ClickCard id)))
      !! length (inflight w) = Some (Api.PostSummarize id, k) ∧
    ∀ w' n,
      inflight w' !! n = Some (Api.PostSummarize id, k) →
      let w'' := step (SummaryPanel.handler electronAPI) w' (Settle n Rejected) in
      (SummaryPanel.instance id (ui w') = SummaryPanel.instance id (ui w) →
       ∀ c', SummaryPanel.cards (ui w') !! id = Some c' →
         ∃ c'',
           SummaryPanel.cards (ui w'') !! id = Some c'' ∧
           ConversationCard.summary c'' = ConversationCard.summary c' ∧
           ConversationCard.loading c'' = false ∧
           ConversationCard.expanded c'' = ConversationCard.expanded c' ∧
           (ConversationCard.summary c' = None →
            ConversationCard.render c'' = [ConversationCard.preview])) ∧
      (SummaryPanel.instance id (ui w') ≠ SummaryPanel.instance id (ui w) ∨
       SummaryPanel.cards (ui w') !! id = None →
       ui w'' = ui w') ∧
      (∀ id', id' ≠ id →
         SummaryPanel.cards (ui w'') !! id' = SummaryPanel.cards (ui w') !! id') ∧
      SummaryPanel.conversations (ui w'') = SummaryPanel.conversations (ui w') ∧
      SummaryPanel.unreadCount (ui w'') = SummaryPanel.unreadCount (ui w') ∧
      SummaryPanel.instances (ui w'') = SummaryPanel.instances (ui w') ∧
      inflight w'' = delete n (inflight w') ∧
      timers w'' = timers w' ∧
      log w'' = log w' ++ [Settled (Api.PostSummarize id) Rejected].
Proof.
  intros Hfind Hcard Hsum.
  pose proof (find_conversation_id _ _ _ Hfind) as Hid. subst id.
  eexists. split.
  - simpl. rewrite Hfind, Hcard. unfold ConversationCard.handleClick.
    rewrite Hsum. simpl.
    destruct (Conversation.read conversation); simpl.
    + by rewrite list_lookup_middle.
    + rewrite <-!(assoc_L (++)). simpl. by rewrite list_lookup_middle.
  - intros w' n Hn. simpl. rewrite Hn. simpl.
    rewrite card_conversations, card_unreadCount, card_instances.
    split; [|split; [|split; [|done]]].
    + intros Hi c' Hc'. rewrite card_mounted by done.
      exists (ConversationCard.setLoading false c'). repeat split.
      * by rewrite lookup_alter_eq, Hc'.
      * unfold ConversationCard.render. simpl. by intros ->.
    + intros [Hi|Hnone]; [by apply card_unmounted|by apply card_absent].
    + intros id' Hne. unfold SummaryPanel.card. case_decide; [|done]. simpl.
      by rewrite lookup_alter_ne.
Qed.

Lemma summarize_failure_restores_card_witness :
  let w := panel_showing [conversation_of "A" 100 false None] 1 in
  let handler := SummaryPanel.handler None in
  let w'' := run handler w [User (SummaryPanel.ClickCard "A"); Settle 0 Rejected] in
  ∃ c'',
    SummaryPanel.cards (ui w'') !! "A" = Some c'' ∧
    ConversationCard.summary c'' = None ∧
    ConversationCard.loading c'' = false ∧
    ConversationCard.render c'' = [ConversationCard.preview].
Proof.
  intros w handler w''.
  destruct (summarize_failure_restores_card None w
              "A" (conversation_of "A" 100 false None)
              (ConversationCard.mount (conversation_of "A" 100 false None)))
    as (k & Hk & Hfail); [reflexivity..|].
  destruct (Hfail (step handler w (User (SummaryPanel.ClickCard "A"))) 0%nat Hk)
    as (Hmounted & _).
  destruct (Hmounted eq_refl
              (ConversationCard.setLoading true
                 (ConversationCard.mount (conversation_of "A" 100 false None)))
              eq_refl)
    as (c'' & Hc'' & Hsum & Hload & _ & Hview).
  exists c''. split; [exact Hc''|]. split; [exact Hsum|].
  split; [exact Hload|]. apply Hview. reflexivity.
Defined.

(** The code when the card has been remounted.  The card of "A" issues a
    summarize call; "A" leaves the listing, which unmounts the card, and
    comes back, which mounts a new one; the new card is clicked and issues
    a call of its own.  When the first call fails, its [setLoading(false)]
    goes to the mount that is gone: the card of "A" on screen still shows
    the spinner, not the preview. *)
Lemma stale_failure_leaves_card_loading :
  let handler := SummaryPanel.handler None in
  let A := conversation_of "A" 100 true None in
  let w := run handler (panel_showing [A] 0)
             [User (SummaryPanel.ClickCard "A");
              User SummaryPanel.Interval; Settle 1 (Resolved (listing [] 0));
              User SummaryPanel.Interval; Settle 1 (Resolved (listing [A] 0));
              User (SummaryPanel.ClickCard "A")] in
  let w' := step handler w (Settle 0 Rejected) in
  fst <$> inflight w = [Api.PostSummarize "A"; Api.PostSummarize "A"] ∧
  log w' = log w ++ [Settled (Api.PostSummarize "A") Rejected] ∧
  ConversationCard.loading <$> SummaryPanel.cards (ui w') !! "A" = Some true ∧
  ConversationCard.render <$> SummaryPanel.cards (ui w') !! "A"
    = Some [ConversationCard.loading_spinner].
Proof. vm_compute. by repeat split. Qed.

(** C1.  The code at a double click.  The card of conversation "A" has no
    summary.  The first click sets [loading] and issues one summarize call;
    the second click, made while that call is still outstanding and
    [loading] is [true], issues a second one: [handleClick] tests
    [!summary] only. *)
Theorem rapid_clicks_issue_two_summarize_calls :
  let handler := SummaryPanel.handler None in
  let w0 := panel_showing [conversation_of "A" 100 true None] 0 in
  let w1 := step handler w0 (User (SummaryPanel.ClickCard "A")) in
  let w2 := step handler w1 (User (SummaryPanel.ClickCard "A")) in
  outstanding (is_summarize "A") w0 = 0%nat ∧
  ConversationCard.loading <$> SummaryPanel.cards (ui w1) !! "A" = Some true ∧
  outstanding (is_summarize "A") w1 = 1%nat ∧
  outstanding (is_summarize "A") w2 = 2%nat ∧
  log w2 = log w0 ++ [Issued (Api.PostSummarize "A"); Issued (Api.PostSummarize "A")].
Proof. vm_compute. repeat split; reflexivity. Qed.

(** The same for every card without a summary, whatever [loading] says:
    each click issues a summarize call. *)
Lemma click_ignores_loading (electronAPI : option ElectronAPI)
    (w : world SummaryPanel.state Api.request Api.data)
    (id : string) (conversation : Conversation.t) (c : ConversationCard.state) :
  SummaryPanel.find_conversation id (ui w) = Some conversation →
  SummaryPanel.cards (ui w) !! id = Some c →
  ConversationCard.summary c = None →
  ∃ rest,
    log (step (SummaryPanel.handler electronAPI) w (User (SummaryPanel.ClickCard id))) =
    log w ++ Issued (Api.PostSummarize id) :: rest.
Proof.
  intros Hfind Hcard Hsum.
  pose proof (find_conversation_id _ _ _ Hfind) as Hid. subst id.
  simpl. rewrite Hfind, Hcard. unfold ConversationCard.handleClick.
  rewrite Hsum. simpl.
  destruct (Conversation.read conversation); simpl.
  - by exists [].
  - eexists. rewrite <-!(assoc_L (++)). simpl. reflexivity.
Qed.

(** C2.  The code at a click on an unread card (here one that has a
    summary, so that the click does nothing else).  [handleClick] calls
    [markConversationRead] without awaiting it and calls [onRead] at once:
    the reconcile's fetch is issued while the mark-read call is still
    outstanding.  When the store answers the fetch from its state before the
    mutation, the mirror shows the conversation unread, and the completion
    of the mark-read call triggers nothing further. *)
Theorem click_reconciles_before_mark_read_completes :
  let handler := SummaryPanel.handler None in
  let A := conversation_of "A" 100 false (Some a_summary) in
  let w0 := panel_showing [A] 1 in
  let w1 := step handler w0 (User (SummaryPanel.ClickCard "A")) in
  let w2 := run handler w1
              [Settle 1 (Resolved (listing [A] 1)); Settle 0 (Resolved ack)] in
  log w1 = log w0 ++ [Issued (Api.PostRead "A"); Issued Api.GetConversations] ∧
  fst <$> inflight w1 = [Api.PostRead "A"; Api.GetConversations] ∧
  Conversation.read <$> SummaryPanel.conversations (ui w2) = [false] ∧
  SummaryPanel.unreadCount (ui w2) = 1 ∧
  fst <$> inflight w2 = [].
Proof. vm_compute. repeat split; reflexivity. Qed.

(** The sibling paths await the mutation: [handleMarkAllRead] issues the
    fetch only when [markAllRead] has resolved, ... *)
Lemma handleMarkAllRead_awaits (w : world SummaryPanel.state Api.request Api.data) :
  ∃ k,
    exec SummaryPanel.handleMarkAllRead w =
      add_inflight Api.PostReadAll k (record (Issued Api.PostReadAll) w) ∧
    (∀ w' d, ∃ k',
       exec (k (Resolved d)) w' =
       add_inflight Api.GetConversations k' (record (Issued Api.GetConversations) w')) ∧
    (∀ w', exec (k Rejected) w' = record Uncaught w').
Proof. eexists. repeat split. intros w' d. by eexists. Qed.

(** ... and [handleSummarize] issues it only when both the summarize call
    and the mark-read call have resolved. *)
Lemma handleSummarize_awaits (w : world SummaryPanel.state Api.request Api.data)
    (conversation : Conversation.t) (inst : nat) :
  let id := Conversation.conversation_id conversation in
  ∃ k,
    exec (ConversationCard.handleSummarize (SummaryPanel.card id inst) conversation
            SummaryPanel.loadConversations) w =
      add_inflight (Api.PostSummarize id) k
        (record (Issued (Api.PostSummarize id))
           (set_ui (SummaryPanel.card id inst (ConversationCard.setLoading true)) w)) ∧
    ∀ w' d, ∃ k1,
      exec (k (Resolved d)) w' =
        add_inflight (Api.PostRead id) k1
          (record (Issued (Api.PostRead id))
             (set_ui (SummaryPanel.card id inst (ConversationCard.setSummary (Api.summary d))) w')) ∧
      ∀ w'' d', ∃ k2,
        exec (k1 (Resolved d')) w'' =
          set_ui (SummaryPanel.card id inst (ConversationCard.setLoading false))
            (add_inflight Api.GetConversations k2
               (record (Issued Api.GetConversations) w'')).
Proof.
  eexists. split; [reflexivity|]. intros w' d. eexists. split; [reflexivity|].
  intros w'' d'. by eexists.
Qed.

(** ** The window orchestrator (main.ts) *)

Lemma same_id_same_window (l : list Main.BrowserWindow) w1 w2 :
  NoDup (Main.id <$> l) →
  w1 ∈ l → w2 ∈ l →
  Main.id w1 = Main.id w2 → w1 = w2.
Proof.
  induction l as [|w l IH]; simpl.
  - by intros _ ?%elem_of_nil.
  - intros [Hw Hl]%NoDup_cons [->|H1]%elem_of_cons [->|H2]%elem_of_cons Hid;
      [done| | |by apply IH].
    + destruct Hw. rewrite Hid. by apply list_elem_of_fmap_2.
    + destruct Hw. rewrite <-Hid. by apply list_elem_of_fmap_2.
Qed.

Lemma filter_id_split (l : list Main.BrowserWindow) (h : nat) :
  filter (λ w, Main.id w ≠ h) l ++ filter (λ w, Main.id w = h) l ≡ₚ l.
Proof.
  induction l as [|w l IH]; [done|].
  rewrite !filter_cons.
  destruct (decide (Main.id w = h)), (decide (Main.id w ≠ h)); try done.
  - rewrite <-Permutation_middle. by constructor.
  - simpl. by constructor.
Qed.

Lemma filter_id_none (l : list Main.BrowserWindow) (h : nat) :
  h ∉ Main.id <$> l → filter (λ w, Main.id w = h) l = [].
Proof.
  induction l as [|w l IH]; [done|]. simpl. intros Hh.
  rewrite filter_cons, decide_False.
  - apply IH. intros Hin. apply Hh. by right.
  - intros Heq. apply Hh. rewrite <-Heq. by left.
Qed.

Lemma filter_id_singleton (l : list Main.BrowserWindow) (w : Main.BrowserWindow) :
  NoDup (Main.id <$> l) → w ∈ l →
  filter (λ w', Main.id w' = Main.id w) l = [w].
Proof.
  induction l as [|w0 l IH]; simpl.
  - by intros _ ?%elem_of_nil.
  - intros [Hw0 Hl]%NoDup_cons Hin. rewrite filter_cons.
    destruct (decide (Main.id w0 = Main.id w)) as [Heq|Hne].
    + assert (w0 = w) as ->.
      { apply elem_of_cons in Hin as [->|Hin]; [done|].
        destruct Hw0. rewrite Heq. by apply list_elem_of_fmap_2. }
      f_equal. by apply filter_id_none.
    + apply IH; [done|]. apply elem_of_cons in Hin as [->|Hin]; done.
Qed.

Lemma filter_id_fresh (l : list Main.BrowserWindow) (n : nat) :
  (∀ w, w ∈ l → (Main.id w < n)%nat) →
  filter (λ w, Main.id w ≠ n) l = l.
Proof.
  intros Hl. induction l as [|w l IH]; [done|].
  rewrite filter_cons, decide_True.
  - f_equal. apply IH. intros w' Hw'. apply Hl. by right.
  - pose proof (Hl w ltac:(by left)). lia.
Qed.

Section HostFacts.
Context (screenW screenH : Z).

Lemma consistent_whenReady : consistent (Main.whenReady screenW screenH).
Proof.
  split; simpl.
  - intros w ->%list_elem_of_singleton. simpl. lia.
  - apply NoDup_singleton.
  - intros w ->%list_elem_of_singleton. simpl. by split; [|left].
  - by intros w ?%elem_of_nil.
  - split.
    + by intros w ->%list_elem_of_singleton.
    + intros i [= <-]. eexists. split; [by apply list_elem_of_singleton|done].
  - done.
Qed.
End HostFacts.

Lemma consistent_createPetWindow s :
  consistent s → Main.petWindow s = None →
  consistent (Main.createPetWindow s).
Proof.
  intros [Hfresh Huniq Hmade Hclosing [Hp1 Hp2] Hheld] Hnone.
  unfold Main.createPetWindow. destruct (Main.workAreaSize s) as [sw sh].
  split; simpl.
  - intros w [->|Hw]%elem_of_cons; simpl; [lia|]. specialize (Hfresh w Hw). lia.
  - apply NoDup_cons. split; [|done].
    intros (w & Hid & Hw)%list_elem_of_fmap. specialize (Hfresh w Hw). lia.
  - intros w [->|Hw]%elem_of_cons; simpl; [by split; [|left]|]. by apply Hmade.
  - done.
  - split.
    + intros w [->|Hw]%elem_of_cons; simpl; [done|].
      intros Hpage. specialize (Hp1 w Hw Hpage). congruence.
    + intros i [= <-]. eexists. split; [by apply elem_of_cons; left|done].
  - intros i Hi. destruct (Hheld i Hi) as (w & ? & ? & ?).
    exists w. split; [by apply elem_of_cons; right|done].
Qed.

Lemma consistent_show_focus s h :
  consistent s → consistent (Main.focus h (Main.show h s)).
Proof.
  intros [Hfresh Huniq Hmade Hclosing [Hp1 Hp2] Hheld].
  set (g := λ w : Main.BrowserWindow,
              if decide (Main.id w = h) then Main.set_visible w else w).
  assert (∀ w, Main.id (g w) = Main.id w) as Hgid
    by (intros w; unfold g; by case_decide).
  assert (∀ w, Main.page (g w) = Main.page w) as Hgpage
    by (intros w; unfold g; by case_decide).
  assert (∀ w, Main.on_closed (g w) = Main.on_closed w) as Hgl
    by (intros w; unfold g; by case_decide).
  assert (∀ w, Main.visible w = true → Main.visible (g w) = true) as Hgv
    by (intros w; unfold g; by case_decide).
  assert (Main.windows (Main.focus h (Main.show h s)) = g <$> Main.windows s)
    as Hwin by done.
  assert (Main.closing (Main.focus h (Main.show h s)) = Main.closing s)
    as Hcl by done.
  assert (Main.petWindow (Main.focus h (Main.show h s)) = Main.petWindow s)
    as Hpet by done.
  assert (Main.summaryWindow (Main.focus h (Main.show h s)) = Main.summaryWindow s)
    as Hsum by done.
  assert (Main.next_id (Main.focus h (Main.show h s)) = Main.next_id s)
    as Hnext by done.
  split; unfold registered; rewrite ?Hwin, ?Hcl, ?Hpet, ?Hsum, ?Hnext.
  - intros w [(w0 & -> & Hw)%list_elem_of_fmap|Hw]%elem_of_app.
    + rewrite Hgid. apply Hfresh, elem_of_app. by left.
    + apply Hfresh, elem_of_app. by right.
  - rewrite fmap_app, <-list_fmap_compose.
    rewrite (list_fmap_ext (Main.id ∘ g) Main.id) by (intros; apply Hgid).
    by rewrite <-fmap_app.
  - intros ? (w & -> & Hw)%list_elem_of_fmap. rewrite Hgpage, Hgl.
    destruct (Hmade w Hw) as [Hvis Hkind]. split; [by apply Hgv|done].
  - done.
  - split.
    + intros ? (w & -> & Hw)%list_elem_of_fmap. rewrite Hgpage, Hgid. by apply Hp1.
    + intros i Hi. destruct (Hp2 i Hi) as (w & ? & ? & ?).
      exists (g w). rewrite Hgid, Hgpage. split; [by apply list_elem_of_fmap_2|done].
  - intros i Hi. destruct (Hheld i Hi) as (w & ? & ? & ?).
    exists (g w). rewrite Hgid, Hgpage. split; [by apply list_elem_of_fmap_2|done].
Qed.

Lemma consistent_createSummaryWindow s :
  consistent s → consistent (Main.createSummaryWindow s).
Proof.
  intros Hs. unfold Main.createSummaryWindow.
  destruct (Main.summaryWindow s) as [h|] eqn:Hnone;
    [by apply consistent_show_focus|].
  destruct (Main.workAreaSize s) as [sw sh].
  destruct Hs as [Hfresh Huniq Hmade Hclosing [Hp1 Hp2] Hheld]. split; simpl.
  - intros w [->|Hw]%elem_of_cons; simpl; [lia|]. specialize (Hfresh w Hw). lia.
  - apply NoDup_cons. split; [|done].
    intros (w & Hid & Hw)%list_elem_of_fmap. specialize (Hfresh w Hw). lia.
  - intros w [->|Hw]%elem_of_cons; simpl; [by split; [|right]|]. by apply Hmade.
  - done.
  - split.
    + intros w [->|Hw]%elem_of_cons; simpl; [done|]. by apply Hp1.
    + intros i Hi. destruct (Hp2 i Hi) as (w & ? & ? & ?).
      exists w. split; [by apply elem_of_cons; right|done].
  - intros i [= <-]. eexists. split; [by apply elem_of_cons; left|done].
Qed.

(** The window a present panel handle holds. *)
Lemma held_panel s h :
  consistent s → Main.summaryWindow s = Some h →
  ∃ w, w ∈ Main.windows s ∧ Main.id w = h ∧ Main.page w = "summary" ∧
       Main.on_closed w = Main.clear_summaryWindow ∧ Main.visible w = true ∧
       filter (λ w', Main.id w' = h) (Main.windows s) = [w].
Proof.
  intros Hs Hh. destruct (summary_held s Hs h Hh) as (w & Hw & Hid & Hpage).
  exists w. split; [done|]. split; [done|]. split; [done|].
  destruct (windows_made s Hs w Hw) as [Hvis [[Hp _]|[_ Hl]]];
    [by rewrite Hpage in Hp|].
  split; [done|]. split; [done|]. subst h.
  apply filter_id_singleton; [|done].
  pose proof (ids_unique s Hs) as Hnd. rewrite fmap_app in Hnd.
  by apply NoDup_app in Hnd as [? _].
Qed.

Lemma consistent_closeSummaryWindow s :
  consistent s → consistent (Main.closeSummaryWindow s).
Proof.
  intros Hs. unfold Main.closeSummaryWindow.
  destruct (Main.summaryWindow s) as [h|] eqn:Hh; [|done].
  destruct (held_panel s h Hs Hh) as (wh & Hwh & Hid & Hpage & Hl & _ & Hone).
  destruct Hs as [Hfresh Huniq Hmade Hclosing [Hp1 Hp2] Hheld].
  assert (Main.windows s ++ Main.closing s ≡ₚ
          filter (λ w, Main.id w ≠ h) (Main.windows s) ++
          filter (λ w, Main.id w = h) (Main.windows s) ++ Main.closing s) as Hperm.
  { rewrite (assoc_L (++)). by rewrite filter_id_split. }
  split; simpl.
  - intros w Hw. apply Hfresh. by rewrite Hperm.
  - by rewrite <-Hperm.
  - intros w [_ Hw]%list_elem_of_filter. by apply Hmade.
  - rewrite Hone. intros w [->|Hw]%elem_of_cons; [done|]. by apply Hclosing.
  - split.
    + intros w [_ Hw]%list_elem_of_filter. by apply Hp1.
    + intros i Hi. destruct (Hp2 i Hi) as (w & Hw & Hidw & Hpagew).
      exists w. split; [|done]. apply list_elem_of_filter. split; [|done].
      intros Heq. assert (w = wh) as ->.
      { apply (same_id_same_window (Main.windows s)); [|done..|congruence].
        rewrite fmap_app in Huniq. by apply NoDup_app in Huniq as [? _]. }
      by rewrite Hpage in Hpagew.
  - done.
Qed.

Lemma consistent_closed s h :
  consistent s → consistent (Main.closed h s).
Proof.
  intros Hs. unfold Main.closed.
  destruct (list_find _ _) as [[i w]|] eqn:Hfind; [|done].
  apply list_find_Some in Hfind as (Hw%list_elem_of_lookup_2 & Hid & _).
  destruct Hs as [Hfresh Huniq Hmade Hclosing [Hp1 Hp2] Hheld].
  assert (filter (λ w, Main.id w ≠ h) (Main.windows s) ++
          filter (λ w, Main.id w ≠ h) (Main.closing s) `sublist_of`
          Main.windows s ++ Main.closing s) as Hsub.
  { apply sublist_app; apply sublist_filter. }
  assert (∀ w', w' ∈ Main.windows s ++ Main.closing s → Main.id w' = h → w' = w)
    as Hsame.
  { intros w' Hw' Hid'. apply (same_id_same_window (Main.windows s ++ Main.closing s));
      [done..|congruence]. }
  assert (Main.page w = "pet" ∧ Main.on_closed w = Main.clear_petWindow ∧
          w ∈ Main.windows s ∨
          Main.page w = "summary" ∧ Main.on_closed w = Main.clear_summaryWindow)
    as [(Hpage & Hl & Hwin)|(Hpage & Hl)].
  { apply elem_of_app in Hw as [Hw|Hw].
    - destruct (Hmade w Hw) as [_ [[? ?]|[? ?]]]; [by left|by right].
    - destruct (Hclosing w Hw) as [? ?]. by right. }
  - rewrite Hl. split; simpl.
    + intros w' Hw'. apply Hfresh. by eapply elem_of_sublist.
    + eapply sublist_NoDup; [exact Huniq|]. by apply fmap_sublist.
    + intros w' [_ Hw']%list_elem_of_filter. by apply Hmade.
    + intros w' [_ Hw']%list_elem_of_filter. by apply Hclosing.
    + split; [|done]. intros w' [Hne Hw']%list_elem_of_filter Hpage'.
      destruct Hne. pose proof (Hp1 w Hwin Hpage). pose proof (Hp1 w' Hw' Hpage').
      congruence.
    + intros j Hj. destruct (Hheld j Hj) as (w' & Hw' & Hid' & Hpage').
      exists w'. split; [|done]. apply list_elem_of_filter. split; [|done].
      intros Heq. rewrite (Hsame w') in Hpage'; [congruence| |done].
      apply elem_of_app. by left.
  - rewrite Hl. split; simpl.
    + intros w' Hw'. apply Hfresh. by eapply elem_of_sublist.
    + eapply sublist_NoDup; [exact Huniq|]. by apply fmap_sublist.
    + intros w' [_ Hw']%list_elem_of_filter. by apply Hmade.
    + intros w' [_ Hw']%list_elem_of_filter. by apply Hclosing.
    + split.
      * intros w' [_ Hw']%list_elem_of_filter. by apply Hp1.
      * intros j Hj. destruct (Hp2 j Hj) as (w' & Hw' & Hid' & Hpage').
        exists w'. split; [|done]. apply list_elem_of_filter. split; [|done].
        intros Heq. rewrite (Hsame w') in Hpage'; [congruence| |congruence].
        apply elem_of_app. by left.
    + done.
Qed.

Lemma consistent_toggle_summary s :
  consistent s → consistent (Main.toggle_summary s).
Proof.
  intros Hs. unfold Main.toggle_summary.
  destruct (truthy _);
    [by apply consistent_closeSummaryWindow|by apply consistent_createSummaryWindow].
Qed.

Lemma consistent_step s e :
  consistent s → consistent (Main.step s e).
Proof.
  intros Hs. destruct e as [channel| |h|size]; simpl.
  - unfold Main.ipcMain. repeat case_decide;
      auto using consistent_createSummaryWindow, consistent_closeSummaryWindow,
        consistent_toggle_summary.
  - unfold Main.activate. destruct (Main.petWindow s) eqn:Hpet; simpl; [done|].
    by apply consistent_createPetWindow.
  - by apply consistent_closed.
  - by destruct Hs.
Qed.

Lemma consistent_run_from s es :
  consistent s → consistent (Main.run s es).
Proof.
  unfold Main.run. revert s. induction es as [|e es IH]; simpl; [done|].
  intros s Hs. apply IH. by apply consistent_step.
Qed.

Lemma consistent_run (screenW screenH : Z) es :
  consistent (Main.run (Main.whenReady screenW screenH) es).
Proof. apply consistent_run_from, consistent_whenReady. Qed.

Lemma live_registered p h s :
  NoDup (Main.id <$> Main.windows s) → registered p h s →
  Main.id <$> Main.live p s = option_list h.
Proof.
  intros Huniq [H1 H2]. unfold Main.live.
  assert (NoDup (Main.id <$> filter (λ w, Main.page w = p) (Main.windows s))) as Hnd.
  { eapply sublist_NoDup; [exact Huniq|]. apply fmap_sublist, sublist_filter. }
  assert (∀ w, w ∈ filter (λ w, Main.page w = p) (Main.windows s) →
               h = Some (Main.id w)) as Hall.
  { intros w [Hp Hw]%list_elem_of_filter. by apply H1. }
  destruct (filter _ _) as [|w1 [|w2 l]] eqn:Hl; simpl.
  - destruct h as [i|]; [|done].
    destruct (H2 i eq_refl) as (w & Hw & _ & Hp).
    assert (w ∈ filter (λ w, Main.page w = p) (Main.windows s)) as Hin
      by (by apply list_elem_of_filter).
    rewrite Hl in Hin. by apply elem_of_nil in Hin.
  - by rewrite (Hall w1) by (apply elem_of_cons; by left).
  - pose proof (Hall w1 ltac:(apply elem_of_cons; by left)) as E1.
    pose proof (Hall w2 ltac:(apply elem_of_cons; right; apply elem_of_cons; by left)) as E2.
    simpl in Hnd. apply NoDup_cons in Hnd as [Hnotin _].
    destruct Hnotin. apply elem_of_cons. left. congruence.
Qed.

Lemma windows_unique s :
  consistent s → NoDup (Main.id <$> Main.windows s).
Proof.
  intros Hs. pose proof (ids_unique s Hs) as Hnd. rewrite fmap_app in Hnd.
  by apply NoDup_app in Hnd as [? _].
Qed.

Lemma toggle_summary_flips s :
  truthy (Main.summaryWindow (Main.toggle_summary s)) =
  negb (truthy (Main.summaryWindow s)).
Proof.
  unfold Main.toggle_summary, Main.createSummaryWindow, Main.closeSummaryWindow.
  destruct (Main.summaryWindow s) as [h|] eqn:Hh; [done|].
  by destruct (Main.workAreaSize s).
Qed.

(** With every panel on screen held by the global, the panel is on screen
    exactly when the handle is present. *)
Lemma panel_visible_tidy s :
  consistent s → tidy s → Main.panel_visible s = truthy (Main.summaryWindow s).
Proof.
  intros Hs Ht. unfold Main.panel_visible.
  destruct (Main.summaryWindow s) as [h|] eqn:Hh; simpl.
  - apply bool_decide_eq_true. apply Exists_exists.
    destruct (held_panel s h Hs Hh) as (w & Hw & _ & Hp & _ & Hv & _).
    by exists w.
  - apply bool_decide_eq_false. intros (w & Hw & Hp & _)%Exists_exists.
    assert (w ∈ Main.live "summary" s) as Hl by (by apply list_elem_of_filter).
    apply Ht in Hl. congruence.
Qed.

Lemma tidy_toggle_summary s :
  consistent s → tidy s → tidy (Main.toggle_summary s).
Proof.
  intros Hs Ht. unfold Main.toggle_summary, Main.createSummaryWindow,
    Main.closeSummaryWindow.
  destruct (Main.summaryWindow s) as [h|] eqn:Hh; simpl.
  - intros w [Hp [Hne Hw]%list_elem_of_filter]%list_elem_of_filter. simpl in *.
    assert (w ∈ Main.live "summary" s) as Hl by (by apply list_elem_of_filter).
    apply Ht in Hl. congruence.
  - destruct (Main.workAreaSize s) as [sw sh].
    intros w [Hp [->|Hw]%elem_of_cons]%list_elem_of_filter; [done|].
    assert (w ∈ Main.live "summary" s) as Hl by (by apply list_elem_of_filter).
    apply Ht in Hl. congruence.
Qed.

Lemma filter_id_other (l : list Main.BrowserWindow) (h : nat) :
  h ∉ Main.id <$> l → filter (λ w, Main.id w ≠ h) l = l.
Proof.
  induction l as [|w l IH]; [done|]. simpl. intros Hh.
  rewrite filter_cons, decide_True.
  - f_equal. apply IH. intros Hin. apply Hh. by right.
  - intros Heq. apply Hh. rewrite <-Heq. by left.
Qed.

(** The ['closed'] event of a window that is closing changes nothing on
    screen. *)
Lemma closed_closing_keeps_screen s h :
  consistent s → h ∈ Main.id <$> Main.closing s →
  Main.windows (Main.closed h s) = Main.windows s.
Proof.
  intros Hs Hh.
  assert (filter (λ w, Main.id w ≠ h) (Main.windows s) = Main.windows s) as Hf.
  { apply filter_id_other. intros Hin.
    pose proof (ids_unique s Hs) as Hnd. rewrite fmap_app in Hnd.
    apply NoDup_app in Hnd as (_ & Hdis & _). by apply (Hdis h). }
  unfold Main.closed. destruct (list_find _ _) as [[i w]|]; [|done].
  by destruct (Main.on_closed w).
Qed.

(** On a 1920 x 1080 work area: a toggle with the panel absent creates it
    left of the companion at the bottom right; a second toggle takes it
    off the screen and clears the handle, and its ['closed'] event is still
    to come. *)
Example scenario_toggle :
  let s0 := Main.whenReady 1920 1080 in
  let s1 := Main.step s0 (Main.Ipc "toggle-summary") in
  let s2 := Main.step s1 (Main.Ipc "toggle-summary") in
  (λ w, (Main.page w, Main.x w, Main.y w)) <$> Main.windows s1
    = [("summary", 1220, 420); ("pet", 1660, 660)] ∧
  Main.summaryWindow s1 = Some 1%nat ∧
  Main.page <$> Main.windows s2 = ["pet"] ∧
  Main.id <$> Main.closing s2 = [1%nat] ∧
  Main.summaryWindow s2 = None.
Proof. vm_compute. by repeat split. Qed.

(** The channels the bridge sends are the ones the host listens to. *)
Lemma preload_channels_are_handled (s : Main.state) :
  Main.ipcMain (openSummary preload) s = Main.createSummaryWindow s ∧
  Main.ipcMain (closeSummary preload) s = Main.closeSummaryWindow s ∧
  Main.ipcMain (toggleSummary preload) s = Main.toggle_summary s.
Proof. done. Qed.

(** ** Claims about the window orchestrator *)


(** C7.  The code when a ['closed'] event arrives late.  The panel is
    opened, closed and opened again; the ['closed'] event of the first
    panel is emitted only then, and its listener clears the global, which
    by now holds the second panel.  The next open command finds the handle
    absent and creates a third window: two panels are on screen, and only
    the newer one is held by the global. *)
Theorem late_closed_leaves_two_panels :
  let s0 := Main.whenReady 1920 1080 in
  let s3 := Main.run s0 [Main.Ipc "open-summary"; Main.Ipc "close-summary";
                         Main.Ipc "open-summary"] in
  let s4 := Main.step s3 (Main.Closed 1) in
  let s5 := Main.step s4 (Main.Ipc "open-summary") in
  (Main.id <$> Main.live "summary" s3 = [2%nat] ∧
   Main.id <$> Main.closing s3 = [1%nat] ∧
   Main.summaryWindow s3 = Some 2%nat) ∧
  (Main.id <$> Main.live "summary" s4 = [2%nat] ∧
   Main.summaryWindow s4 = None) ∧
  (Main.id <$> Main.live "summary" s5 = [3%nat; 2%nat] ∧
   Main.visible <$> Main.live "summary" s5 = [true; true] ∧
   Main.summaryWindow s5 = Some 3%nat ∧
   Main.closing s5 = []).
Proof. vm_compute. by repeat split. Qed.

(** What does hold of the registry after any history of commands,
    activations, ['closed'] events and changes of the display: at most one
    companion is on screen and it is the one its global holds; a panel
    handle that is present is the handle of a panel on screen.  Opening with
    the handle present shows and focuses that panel and creates no window;
    closing with the handle absent changes nothing. *)
Lemma registry_after_any_history (screenW screenH : Z) :
  (∀ es,
     let s := Main.run (Main.whenReady screenW screenH) es in
     (length (Main.live "pet" s) ≤ 1)%nat ∧
     Main.id <$> Main.live "pet" s = option_list (Main.petWindow s) ∧
     (∀ h, Main.summaryWindow s = Some h → h ∈ Main.id <$> Main.live "summary" s)) ∧
  (∀ s h,
     Main.summaryWindow s = Some h →
     let s' := Main.createSummaryWindow s in
     Main.id <$> Main.windows s' = Main.id <$> Main.windows s ∧
     Main.page <$> Main.windows s' = Main.page <$> Main.windows s ∧
     Main.next_id s' = Main.next_id s ∧
     Main.summaryWindow s' = Some h ∧
     Main.petWindow s' = Main.petWindow s ∧
     Main.front s' = Some h ∧
     Forall (λ w, Main.id w = h → Main.visible w = true) (Main.windows s')) ∧
  (∀ s,
     Main.summaryWindow s = None → Main.closeSummaryWindow s = s).
Proof.
  split; [|split].
  - intros es s.
    assert (consistent s) as Hs by apply consistent_run.
    assert (Main.id <$> Main.live "pet" s = option_list (Main.petWindow s))
      as Hpet by (apply live_registered; [by apply windows_unique|by destruct Hs]).
    split; [|split; [done|]].
    + rewrite <-(length_fmap Main.id), Hpet. destruct (Main.petWindow s); simpl; lia.
    + intros h Hh. destruct (held_panel s h Hs Hh) as (w & Hw & Hid & Hp & _).
      apply list_elem_of_fmap. exists w. split; [done|].
      by apply list_elem_of_filter.
  - intros s h Hh s'. subst s'. unfold Main.createSummaryWindow. rewrite Hh. simpl.
    repeat split.
    + rewrite <-list_fmap_compose. apply list_fmap_ext. intros ? w _. simpl.
      by case_decide.
    + rewrite <-list_fmap_compose. apply list_fmap_ext. intros ? w _. simpl.
      by case_decide.
    + done.
    + apply Forall_fmap, Forall_forall. intros w _. simpl. by case_decide.
  - intros s Hs. unfold Main.closeSummaryWindow. by rewrite Hs.
Qed.

(** ** Claims about the command channel *)

(** C8.  The two call sites of the command channel in the UI process, the
    panel's close button ([closeSummary]) and the click on the companion
    ([toggleSummary]), test [window.electronAPI] first.  Without the bridge
    they send nothing and throw nothing: the close handler changes nothing
    at all, the companion's click handler still starts its local bounce.
    With the bridge they send their command; the unguarded method call on a
    missing bridge is the one that would throw.  ([openSummary] is exposed
    by the bridge and has no call site.) *)
Theorem bridge_absent_calls_are_no_ops :
  (∀ w : world SummaryPanel.state Api.request Api.data,
     step (SummaryPanel.handler None) w (User SummaryPanel.ClickClose) = w) ∧
  (∀ w : world BunnyPet.state Api.request Api.data,
     let w' := step (BunnyPet.handler None) w (User BunnyPet.Click) in
     log w' = log w ∧ inflight w' = inflight w ∧
     BunnyPet.bouncing (ui w') = true) ∧
  (∀ (api : ElectronAPI) (w : world SummaryPanel.state Api.request Api.data),
     step (SummaryPanel.handler (Some api)) w (User SummaryPanel.ClickClose) =
     record (Sent (closeSummary api)) w) ∧
  (∀ (api : ElectronAPI) (w : world BunnyPet.state Api.request Api.data),
     log (step (BunnyPet.handler (Some api)) w (User BunnyPet.Click)) =
     log w ++ [Sent (toggleSummary api)]) ∧
  (∀ w : world SummaryPanel.state Api.request Api.data,
     exec (method_call None closeSummary) w = record Uncaught w).
Proof. by repeat split. Qed.

(** ** Claims about the mood and the badge *)

(** C9, as stated, does not hold: a poll that observes the counter it
    observed before triggers the bounce again.  Here the companion has
    polled 3, the bounce has ended, and the next poll observes 3 again. *)
Lemma unchanged_count_retriggers_bounce :
  ¬ (∀ (w : world BunnyPet.state Api.request Api.data) (d : Api.data),
       Api.unread_count d = BunnyPet.unreadCount (ui w) →
       let w' := badge_poll None w (Resolved d) in
       BunnyPet.bouncing (ui w') = BunnyPet.bouncing (ui w) ∧
       length (timers w') = length (timers w)).
Proof.
  intros H.
  specialize (H (run (BunnyPet.handler None) (start BunnyPet.initial)
                   [User BunnyPet.Mount; Settle 0 (Resolved (counter 3)); Fire 0])
                (counter 3) eq_refl).
  vm_compute in H. by destruct H.
Qed.

(** C9, amended.  What a badge poll does depends on the polled counter
    only, not on what was observed before: a poll resolving with
    [count > 0] sets the mood to excited, starts the bounce and schedules
    its end 2000 ms later; a poll resolving with [count ≤ 0] sets the mood to
    idle and leaves the bounce alone; a failed poll sets the mood to idle
    and leaves counter and bounce alone. *)
Theorem badge_poll_sets_mood (electronAPI : option ElectronAPI)
    (w : world BunnyPet.state Api.request Api.data) :
  (∀ d,
     let count := Api.unread_count d in
     let w' := badge_poll electronAPI w (Resolved d) in
     BunnyPet.unreadCount (ui w') = count ∧
     BunnyPet.mood (ui w') =
       (if decide (count > 0) then BunnyPet.excited else BunnyPet.idle) ∧
     (count > 0 →
      BunnyPet.bouncing (ui w') = true ∧
      ∃ cb, timers w' = timers w ++ [(2000, cb)] ∧
            ∀ w'', exec cb w'' = set_ui (BunnyPet.setBouncing false) w'') ∧
     (count ≤ 0 →
      BunnyPet.bouncing (ui w') = BunnyPet.bouncing (ui w) ∧
      timers w' = timers w)) ∧
  (let w' := badge_poll electronAPI w Rejected in
   BunnyPet.mood (ui w') = BunnyPet.idle ∧
   BunnyPet.unreadCount (ui w') = BunnyPet.unreadCount (ui w) ∧
   BunnyPet.bouncing (ui w') = BunnyPet.bouncing (ui w) ∧
   timers w' = timers w).
Proof.
  split.
  - intros d count w'. subst w'.
    destruct (badge_poll_resolved electronAPI w d) as (cb & -> & Hcb).
    fold count. case_decide; simpl.
    + split; [done|]. split; [done|]. split.
      * intros _. split; [done|]. by exists cb.
      * intros ?. lia.
    + split; [done|]. split; [done|]. split.
      * intros ?. lia.
      * done.
  - simpl. by rewrite badge_poll_rejected.
Qed.

Lemma badge_poll_sets_mood_witness :
  let w := start BunnyPet.initial in
  (BunnyPet.bouncing (ui (badge_poll None w (Resolved (counter 3)))) = true ∧
   ∃ cb, timers (badge_poll None w (Resolved (counter 3))) = timers w ++ [(2000, cb)] ∧
         ∀ w'', exec cb w'' = set_ui (BunnyPet.setBouncing false) w'') ∧
  (BunnyPet.bouncing (ui (badge_poll None w (Resolved (counter 0)))) = false ∧
   timers (badge_poll None w (Resolved (counter 0))) = timers w).
Proof.
  intros w.
  destruct (badge_poll_sets_mood None w) as [Hpoll _].
  split.
  - destruct (Hpoll (counter 3)) as (_ & _ & Hpos & _). apply Hpos. reflexivity.
  - destruct (Hpoll (counter 0)) as (_ & _ & _ & Hzero). apply Hzero.
    simpl. lia.
Defined.

(** The badge the companion shows after a poll is the badge of the polled
    counter. *)
Lemma badge_after_poll (electronAPI : option ElectronAPI)
    (w : world BunnyPet.state Api.request Api.data) (d : Api.data) :
  BunnyPet.badge (ui (badge_poll electronAPI w (Resolved d))) =
  NotificationBadge (Api.unread_count d).
Proof.
  destruct (badge_poll_resolved electronAPI w d) as (cb & -> & _).
  by case_decide.
Qed.

(** C10.  The badge is a total function of the counter: nothing for
    [count ≤ 0], the count itself from 1 to 99, the text "99+" above. *)
Theorem badge_caps_at_99 (count : Z) :
  (count ≤ 0 → NotificationBadge count = null) ∧
  (1 ≤ count ≤ 99 →
   NotificationBadge count =
   div "notification-badge"
     [span "notification-badge__count" [number_child count]]) ∧
  (99 < count →
   NotificationBadge count =
   div "notification-badge"
     [span "notification-badge__count" [string_child "99+"]]).
Proof.
  unfold NotificationBadge. repeat split; intros; repeat case_decide; done || lia.
Qed.

Lemma badge_caps_at_99_witness :
  NotificationBadge 0 = null ∧
  NotificationBadge 42 =
    div "notification-badge" [span "notification-badge__count" [number_child 42]] ∧
  NotificationBadge 100 =
    div "notification-badge" [span "notification-badge__count" [string_child "99+"]].
Proof.
  split; [|split].
  - apply (badge_caps_at_99 0). lia.
  - apply (badge_caps_at_99 42). lia.
  - apply (badge_caps_at_99 100). lia.
Defined.

(** * Further properties of the code *)

(** ** The sync engine beyond the claims *)

Section PendingFacts.
Context {S R D E : Type} (I : S → Prop) (handler : E → S → prog S R D).

Lemma exec_pending_respects (p : prog S R D) (w : world S R D) :
  respects I p → pending_respects I w → pending_respects I (exec p w).
Proof.
  revert w. induction p as [| |f k IH|a IHa k IHk|r k IH|cb IHcb ms k IHk|c k IH];
    simpl; intros w Hp [Hin Ht]; try done.
  - destruct Hp as [_ Hk]. by apply IH.
  - destruct Hp as [Ha Hk]. apply IHk; [done|]. by apply IHa.
  - split; simpl; [|done]. apply Forall_app. split; [done|]. by constructor.
  - destruct Hp as [Hcb Hk]. apply IHk; [done|]. split; simpl; [done|].
    apply Forall_app. split; [done|]. by constructor.
  - by apply IH.
Qed.

Hypothesis handler_respects : ∀ e s, respects I (handler e s).

Lemma run_pending_respects (w : world S R D) (ins : list (input E D)) :
  pending_respects I w → pending_respects I (run handler w ins).
Proof.
  revert w. induction ins as [|i ins IH]; simpl; [done|].
  intros w [Hin Ht]. apply IH. destruct i as [e|n o|n]; simpl.
  - by apply exec_pending_respects.
  - destruct (inflight w !! n) as [[r k]|] eqn:Hn; [|done].
    apply exec_pending_respects.
    + by apply (Forall_lookup_1 _ _ _ _ Hin Hn).
    + split; simpl; [by apply Forall_delete|done].
  - destruct (timers w !! n) as [[ms cb]|] eqn:Hn; [|done].
    apply exec_pending_respects.
    + by apply (Forall_lookup_1 _ _ _ _ Ht Hn).
    + split; simpl; [done|by apply Forall_delete].
Qed.

(** Once [I] holds at some point of a run, it holds from there on. *)
Lemma run_stable (s : S) (ins1 ins2 : list (input E D)) :
  I (ui (run handler (start s) ins1)) →
  I (ui (run handler (run handler (start s) ins1) ins2)).
Proof.
  intros HI. apply run_respectful; [done|].
  destruct (run_pending_respects (start s) ins1) as [Hin Ht]; [by split|].
  by split.
Qed.
End PendingFacts.

(** X1.  A reconcile whose fetch fails is caught: the mirror, the counter,
    the cards and the bulk flag stay as they were, the loading indicator is
    cleared, no request is issued and nothing is thrown. *)
Theorem reconcile_failure_keeps_mirror (electronAPI : option ElectronAPI)
    (w : world SummaryPanel.state Api.request Api.data) :
  let w' := run (SummaryPanel.handler electronAPI) w
              [User SummaryPanel.Interval; Settle (length (inflight w)) Rejected] in
  ui w' = SummaryPanel.setLoading false (ui w) ∧
  inflight w' = inflight w ∧
  timers w' = timers w ∧
  log w' = log w ++ [Issued Api.GetConversations;
                     Settled Api.GetConversations Rejected].
Proof.
  intros w'. subst w'.
  by rewrite (run_await_settled (SummaryPanel.handler electronAPI)
                SummaryPanel.Interval w _ _ _ eq_refl).
Qed.

Lemma handler_keeps_loaded electronAPI e s :
  respects (λ s, SummaryPanel.loading s = false)
    (SummaryPanel.handler electronAPI e s).
Proof.
  assert (respects (λ s, SummaryPanel.loading s = false)
            SummaryPanel.loadConversations) as Hload.
  { simpl. intros [data|]; simpl; by repeat split. }
  destruct e as [| | | | |id]; simpl; try exact Hload.
  - unfold SummaryPanel.handleClose. by destruct electronAPI.
  - case_decide; simpl; [done|]. intros [data|]; simpl; [|done].
    split; [exact Hload|done].
  - destruct (_ || _); simpl; [done|].
    split; [done|]. intros [data|]; simpl; [|done].
    intros [data'|]; simpl; by repeat split.
  - destruct (SummaryPanel.find_conversation id s) as [conversation|]; [|done].
    destruct (SummaryPanel.cards s !! id) as [c|]; [|done].
    unfold ConversationCard.handleClick.
    destruct (truthy (ConversationCard.summary c)),
      (negb (Conversation.read conversation)); simpl;
      repeat first
        [ done | exact Hload
        | by intros; unfold mirror_sorted; rewrite card_conversations
        | by intros; rewrite card_unreadCount
        | by intros; rewrite card_loading
        | split
        | intros [?|]; simpl ].
Qed.

(** X2.  The panel's loading indicator goes away when the first poll
    settles, whether it resolves or fails, and once it is gone no later
    click, tick or response brings it back. *)
Theorem loading_indicator_never_returns (electronAPI : option ElectronAPI) :
  (∀ o,
     SummaryPanel.loading
       (ui (run (SummaryPanel.handler electronAPI) (start SummaryPanel.initial)
              [User SummaryPanel.Mount; Settle 0 o])) = false) ∧
  (∀ ins1 ins2,
     let w1 := run (SummaryPanel.handler electronAPI)
                 (start SummaryPanel.initial) ins1 in
     SummaryPanel.loading (ui w1) = false →
     SummaryPanel.loading
       (ui (run (SummaryPanel.handler electronAPI) w1 ins2)) = false).
Proof.
  split.
  - by intros [data|].
  - intros ins1 ins2 w1 Hw1.
    apply (run_stable (λ s, SummaryPanel.loading s = false)
             (SummaryPanel.handler electronAPI)); [|done].
    apply handler_keeps_loaded.
Qed.

Lemma loading_indicator_never_returns_witness :
  SummaryPanel.loading
    (ui (run (SummaryPanel.handler None)
           (panel_showing [conversation_of "A" 100 false None] 1)
           [User (SummaryPanel.ClickCard "A"); User SummaryPanel.Interval])) = false.
Proof.
  destruct (loading_indicator_never_returns None) as [_ H].
  apply (H [User SummaryPanel.Mount;
            Settle 0 (Resolved (listing [conversation_of "A" 100 false None] 1))]
           [User (SummaryPanel.ClickCard "A"); User SummaryPanel.Interval]).
  reflexivity.
Defined.

Lemma reconcile_cards_lookup convs old id :
  SummaryPanel.reconcile_cards convs old !! id =
  match list_find (λ c, Conversation.conversation_id c = id) convs with
  | Some (_, c) => Some (default (ConversationCard.mount c) (old !! id))
  | None => None
  end.
Proof.
  unfold SummaryPanel.reconcile_cards.
  induction convs as [|c convs IH]; [done|].
  rewrite fmap_cons, list_to_map_cons, lookup_insert. simpl.
  case_decide as Hc; simpl.
  - by rewrite Hc.
  - rewrite IH. by destruct (list_find _ convs) as [[? ?]|].
Qed.

Lemma listed_sorted data id :
  id ∈ listed data ↔
  id ∈ Conversation.conversation_id <$>
         js_sort SummaryPanel.by_last_activity (js_or_list (Api.conversations data) []).
Proof. unfold listed. by rewrite js_sort_Permutation. Qed.

(** ** Mounts of a card *)

Lemma reconcile_instances_lookup convs old n id :
  SummaryPanel.reconcile_instances convs old n !! id =
  match list_find (λ c, Conversation.conversation_id c = id) convs with
  | Some _ => Some (default n (old !! id))
  | None => None
  end.
Proof.
  unfold SummaryPanel.reconcile_instances.
  induction convs as [|c convs IH]; [done|].
  rewrite fmap_cons, list_to_map_cons, lookup_insert. simpl.
  case_decide as Hc; simpl.
  - by rewrite Hc.
  - rewrite IH. by destruct (list_find _ convs) as [[? ?]|].
Qed.

Lemma setConversations_numbered v s :
  instances_numbered s → instances_numbered (SummaryPanel.setConversations v s).
Proof.
  intros Hs id i. simpl. rewrite reconcile_instances_lookup.
  destruct (list_find _ _); [|done]. intros [= <-].
  destruct (SummaryPanel.instances s !! id) as [j|] eqn:Hj; simpl; [|lia].
  specialize (Hs id j Hj). lia.
Qed.

Lemma handler_instances_numbered electronAPI e s :
  respects instances_numbered (SummaryPanel.handler electronAPI e s).
Proof.
  assert (∀ id inst f s, instances_numbered s →
                         instances_numbered (SummaryPanel.card id inst f s)) as Hcard.
  { intros id inst f s' Hs' id' i. rewrite card_instances, card_renders. apply Hs'. }
  assert (respects instances_numbered SummaryPanel.loadConversations) as Hload.
  { simpl. intros [data|]; simpl; [|done].
    repeat split; try done. intros ? ?. by apply setConversations_numbered. }
  destruct e as [| | | | |id]; simpl; try exact Hload.
  - unfold SummaryPanel.handleClose. by destruct electronAPI.
  - case_decide; simpl; [done|]. intros [data|]; simpl; [|done].
    split; [exact Hload|done].
  - destruct (_ || _); simpl; [done|].
    split; [done|]. intros [data|]; simpl; [|done].
    intros [data'|]; simpl; [|done].
    repeat split; try done. intros ? ?. by apply setConversations_numbered.
  - destruct (SummaryPanel.find_conversation id s) as [conversation|]; [|done].
    destruct (SummaryPanel.cards s !! id) as [c|]; [|done].
    unfold ConversationCard.handleClick.
    destruct (truthy (ConversationCard.summary c)),
      (negb (Conversation.read conversation)); simpl;
      repeat first
        [ done | exact Hload | by apply Hcard | split
        | intros [?|]; simpl ].
Qed.

(** A card that is unmounted and mounted again is a new mount: the setters
    of the old one, which compare the mount, do nothing for it. *)
Lemma remounted_card_is_new (electronAPI : option ElectronAPI)
    (ins : list (input SummaryPanel.user Api.data)) (data1 data2 : Api.data)
    (id : string) :
  let w := run (SummaryPanel.handler electronAPI) (start SummaryPanel.initial) ins in
  let w2 := reconcile electronAPI (reconcile electronAPI w data1) data2 in
  is_Some (SummaryPanel.instances (ui w) !! id) →
  id ∉ listed data1 → id ∈ listed data2 →
  SummaryPanel.instance id (ui w2) ≠ SummaryPanel.instance id (ui w).
Proof.
  intros w w2 [i Hi] Hout Hin.
  assert (instances_numbered (ui w)) as Hnum.
  { apply (run_respects instances_numbered (SummaryPanel.handler electronAPI));
      [apply handler_instances_numbered|done]. }
  specialize (Hnum id i Hi).
  subst w2. unfold SummaryPanel.instance. rewrite !reconcile_ui. simpl.
  rewrite Hi. simpl.
  rewrite !reconcile_instances_lookup.
  destruct (list_find _ (js_sort _ (js_or_list (Api.conversations data2) [])))
    as [[j c]|] eqn:Hfind2.
  - destruct (list_find _ (js_sort _ (js_or_list (Api.conversations data1) [])))
      as [[j' c']|] eqn:Hfind1; simpl; [|lia].
    apply list_find_Some in Hfind1 as (Hc%list_elem_of_lookup_2 & Hid & _).
    destruct Hout. apply listed_sorted, list_elem_of_fmap. by exists c'.
  - apply list_find_None in Hfind2.
    apply listed_sorted, list_elem_of_fmap in Hin as (c & Hid & Hc).
    by destruct (proj1 (Forall_forall _ _) Hfind2 c Hc).
Qed.

(** X3.  A reconcile replaces the mirror and leaves the cards alone: a card
    that is mounted and whose conversation is still listed keeps its state
    (its summary, its spinner, whether it is expanded), also when the new
    listing carries another summary for it; the card of a conversation that
    is no longer listed is unmounted; a newly listed conversation gets a
    fresh card showing the summary of its listing entry. *)
Theorem cards_survive_reconcile (electronAPI : option ElectronAPI)
    (w : world SummaryPanel.state Api.request Api.data) (data : Api.data)
    (id : string) :
  let w' := reconcile electronAPI w data in
  (id ∈ listed data →
   ∀ c, SummaryPanel.cards (ui w) !! id = Some c →
        SummaryPanel.cards (ui w') !! id = Some c) ∧
  (id ∉ listed data → SummaryPanel.cards (ui w') !! id = None) ∧
  (id ∈ listed data →
   SummaryPanel.cards (ui w) !! id = None →
   ∃ conversation,
     conversation ∈ js_or_list (Api.conversations data) [] ∧
     Conversation.conversation_id conversation = id ∧
     SummaryPanel.cards (ui w') !! id = Some (ConversationCard.mount conversation)).
Proof.
  intros w'. subst w'. rewrite reconcile_ui. simpl.
  rewrite reconcile_cards_lookup.
  destruct (list_find _ _) as [[i c]|] eqn:Hfind.
  - apply list_find_Some in Hfind as (Hc%list_elem_of_lookup_2 & Hid & _).
    split; [|split].
    + intros _ st Hst. by rewrite Hst.
    + intros Hnot. destruct Hnot. apply listed_sorted.
      apply list_elem_of_fmap. by exists c.
    + intros _ Hnone. exists c. rewrite Hnone. split; [|done].
      by rewrite js_sort_Permutation in Hc.
  - apply list_find_None in Hfind.
    assert (id ∉ listed data) as Hnot.
    { intros (c & Hid & Hc)%listed_sorted%list_elem_of_fmap.
      by apply (proj1 (Forall_forall _ _) Hfind c Hc). }
    split; [|split]; done.
Qed.

Lemma cards_survive_reconcile_witness :
  let A := conversation_of "A" 100 true None in
  let w := run (SummaryPanel.handler None) (panel_showing [A] 0)
             [User (SummaryPanel.ClickCard "A");
              Settle 0 (Resolved {| Api.conversations := None; Api.unread_count := 0;
                                    Api.summary := Some a_summary |})] in
  let data := listing [conversation_of "A" 100 true None;
                       conversation_of "B" 200 true (Some a_summary)] 0 in
  SummaryPanel.cards (ui (reconcile None w data)) !! "A" =
    Some {| ConversationCard.summary := Some a_summary;
            ConversationCard.loading := true;
            ConversationCard.expanded := false |} ∧
  SummaryPanel.cards (ui (reconcile None w (listing [] 0))) !! "A" = None.
Proof.
  intros A w data. split.
  - destruct (cards_survive_reconcile None w data "A") as (Hkeep & _ & _).
    apply Hkeep; [|reflexivity].
    apply list_elem_of_fmap. exists A. split; [reflexivity|]. by left.
  - destruct (cards_survive_reconcile None w (listing [] 0) "A") as (_ & Hgone & _).
    apply Hgone. by intros ?%elem_of_nil.
Defined.

(** X4.  A click on a card that has a summary and whose conversation is
    read is local: it flips [expanded] and issues no request; a second
    click gives the card its state back. *)
Theorem click_on_read_summarized_card_is_local (electronAPI : option ElectronAPI)
    (w : world SummaryPanel.state Api.request Api.data)
    (id : string) (conversation : Conversation.t) (c : ConversationCard.state) :
  SummaryPanel.find_conversation id (ui w) = Some conversation →
  SummaryPanel.cards (ui w) !! id = Some c →
  is_Some (ConversationCard.summary c) →
  Conversation.read conversation = true →
  let handler := SummaryPanel.handler electronAPI in
  let w1 := step handler w (User (SummaryPanel.ClickCard id)) in
  let w2 := step handler w1 (User (SummaryPanel.ClickCard id)) in
  SummaryPanel.cards (ui w1) !! id =
    Some (ConversationCard.setExpanded (negb (ConversationCard.expanded c)) c) ∧
  SummaryPanel.cards (ui w2) !! id = Some c ∧
  SummaryPanel.conversations (ui w2) = SummaryPanel.conversations (ui w) ∧
  inflight w2 = inflight w ∧ timers w2 = timers w ∧ log w2 = log w.
Proof.
  intros Hfind Hcard [sm Hsum] Hread handler w1 w2.
  set (inst := SummaryPanel.instance id (ui w)).
  assert (w1 = set_ui (SummaryPanel.card id inst
                         (ConversationCard.setExpanded
                            (negb (ConversationCard.expanded c)))) w) as E1.
  { subst w1 handler. simpl. rewrite Hfind, Hcard.
    unfold ConversationCard.handleClick. by rewrite Hsum, Hread. }
  assert (SummaryPanel.cards (ui w1) !! id =
    Some (ConversationCard.setExpanded (negb (ConversationCard.expanded c)) c))
    as Hc1.
  { rewrite E1. simpl. rewrite card_mounted by done.
    by rewrite lookup_alter_eq, Hcard. }
  assert (SummaryPanel.find_conversation id (ui w1) = Some conversation)
    as Hf1.
  { rewrite E1. unfold SummaryPanel.find_conversation. simpl.
    by rewrite card_conversations. }
  assert (SummaryPanel.instance id (ui w1) = inst) as Hi1
    by (rewrite E1; simpl; apply card_instance).
  assert (w2 = set_ui (SummaryPanel.card id inst
                         (ConversationCard.setExpanded
                            (negb (negb (ConversationCard.expanded c))))) w1) as E2.
  { subst w2 handler. simpl. rewrite Hf1, Hc1, Hi1.
    unfold ConversationCard.handleClick. simpl. by rewrite Hsum, Hread. }
  split; [done|]. rewrite E2. simpl.
  rewrite card_conversations, card_mounted by done.
  rewrite lookup_alter_eq, Hc1. simpl. rewrite negb_involutive.
  rewrite E1. simpl. rewrite card_conversations.
  split; [by destruct c|done].
Qed.

Lemma click_on_read_summarized_card_is_local_witness :
  let w := panel_showing [conversation_of "A" 100 true (Some a_summary)] 0 in
  let w2 := run (SummaryPanel.handler None) w
              [User (SummaryPanel.ClickCard "A"); User (SummaryPanel.ClickCard "A")] in
  SummaryPanel.cards (ui w2) !! "A" =
    Some (ConversationCard.mount (conversation_of "A" 100 true (Some a_summary))) ∧
  log w2 = log w.
Proof.
  intros w w2.
  destruct (click_on_read_summarized_card_is_local None w "A"
              (conversation_of "A" 100 true (Some a_summary))
              (ConversationCard.mount (conversation_of "A" 100 true (Some a_summary))))
    as (_ & H2 & _ & _ & _ & Hlog); [reflexivity|reflexivity|by eexists|reflexivity|].
  split; [exact H2|exact Hlog].
Defined.

(** X5.  When the summarize call of a click resolves, a mark-read call is
    issued; if that call fails, no reconcile is issued and nothing is
    thrown; if it resolves, exactly one reconcile is issued.  The card that
    made the click, as long as it is mounted, shows what the store sent as
    [summary] (nothing, if the answer carries none) under the spinner while
    the mark-read call is outstanding, and has the spinner cleared when that
    call settles, either way.  Once that card has been unmounted its
    setters do nothing, also for a new card of the same conversation: the
    calls are issued all the same and no card changes. *)
Theorem summarize_success_then_mark_read (electronAPI : option ElectronAPI)
    (w : world SummaryPanel.state Api.request Api.data)
    (id : string) (conversation : Conversation.t) (c : ConversationCard.state) :
  SummaryPanel.find_conversation id (ui w) = Some conversation →
  SummaryPanel.cards (ui w) !! id = Some c →
  ConversationCard.summary c = None →
  let self := SummaryPanel.card id (SummaryPanel.instance id (ui w)) in
  (∃ k,
    inflight (step (SummaryPanel.handler electronAPI) w
                (User (SummaryPanel.ClickCard id)))
      !! length (inflight w) = Some (Api.PostSummarize id, k) ∧
    ∀ w1 d, ∃ k1,
      exec (k (Resolved d)) w1 =
        World (self (ConversationCard.setSummary (Api.summary d)) (ui w1))
          (inflight w1 ++ [(Api.PostRead id, k1)]) (timers w1)
          (log w1 ++ [Issued (Api.PostRead id)]) ∧
      (∀ w2,
         exec (k1 Rejected) w2 =
         set_ui (self (ConversationCard.setLoading false)) w2) ∧
      (∀ w2 d', ∃ k2,
         exec (k1 (Resolved d')) w2 =
         World (self (ConversationCard.setLoading false) (ui w2))
           (inflight w2 ++ [(Api.GetConversations, k2)]) (timers w2)
           (log w2 ++ [Issued Api.GetConversations]))) ∧
  (∀ f s,
     SummaryPanel.instance id s = SummaryPanel.instance id (ui w) →
     SummaryPanel.cards (self f s) !! id = f <$> SummaryPanel.cards s !! id) ∧
  (∀ f s,
     SummaryPanel.instance id s ≠ SummaryPanel.instance id (ui w) ∨
     SummaryPanel.cards s !! id = None →
     self f s = s).
Proof.
  intros Hfind Hcard Hsum self.
  pose proof (find_conversation_id _ _ _ Hfind) as Hid. subst id.
  split; [|split].
  - eexists. split.
    + simpl. rewrite Hfind, Hcard. unfold ConversationCard.handleClick.
      rewrite Hsum. simpl.
      destruct (Conversation.read conversation); simpl.
      * by rewrite list_lookup_middle.
      * rewrite <-!(assoc_L (++)). simpl. by rewrite list_lookup_middle.
    + intros w1 d. eexists. split; [reflexivity|]. split; [done|].
      intros w2 d'. by eexists.
  - intros f s Hi. subst self. rewrite card_mounted by done.
    by rewrite lookup_alter_eq.
  - intros f s [Hi|Hnone]; [by apply card_unmounted|by apply card_absent].
Qed.

Lemma summarize_success_then_mark_read_witness :
  let w := panel_showing [conversation_of "A" 100 true None] 0 in
  ∃ k,
    inflight (step (SummaryPanel.handler None) w (User (SummaryPanel.ClickCard "A")))
      !! 0%nat = Some (Api.PostSummarize "A", k) ∧
    ∀ w2 d, ∃ k1,
      inflight (exec (k (Resolved d)) w2) = inflight w2 ++ [(Api.PostRead "A", k1)] ∧
      ∀ w3, exec (k1 Rejected) w3 =
            set_ui (SummaryPanel.card "A" 0 (ConversationCard.setLoading false)) w3.
Proof.
  intros w.
  destruct (summarize_success_then_mark_read None w "A"
              (conversation_of "A" 100 true None)
              (ConversationCard.mount (conversation_of "A" 100 true None)))
    as ((k & Hk & Hchain) & _); [reflexivity..|].
  exists k. split; [exact Hk|].
  intros w2 d. destruct (Hchain w2 d) as (k1 & Hres & Hrej & _).
  exists k1. split; [by rewrite Hres|exact Hrej].
Defined.

Section HandledFacts.
Context {S R D E : Type} (excused : R → bool) (handler : E → S → prog S R D).

Lemma rejections_excused_app (l es : list (event R D)) :
  rejections_excused excused l → Forall (λ e, e ≠ Uncaught) es →
  rejections_excused excused (l ++ es).
Proof.
  intros Hl Hes i [Hi|[_ Hi]]%lookup_app_Some.
  - destruct (Hl i Hi) as (j & r & -> & Hj & Hr).
    exists j, r. split; [done|]. split; [|done]. by apply lookup_app_l_Some.
  - apply list_elem_of_lookup_2 in Hi.
    by destruct (proj1 (Forall_forall _ _) Hes _ Hi).
Qed.

Lemma rejections_excused_thrown (l : list (event R D)) r :
  rejections_excused excused l → excused r = true →
  rejections_excused excused ((l ++ [Settled r Rejected]) ++ [Uncaught]).
Proof.
  intros Hl Hr i [Hi|[Hge Hi]]%lookup_app_Some.
  - apply (rejections_excused_app l [Settled r Rejected]) in Hi as (j & r' & ? & ? & ?);
      [|done|by repeat constructor].
    exists j, r'. split; [done|]. split; [|done]. by apply lookup_app_l_Some.
  - rewrite length_app in Hge, Hi. simpl in *.
    exists (length l), r. split.
    + apply lookup_lt_Some in Hi. simpl in Hi. lia.
    + split; [|done]. apply lookup_app_l_Some. by apply list_lookup_middle.
Qed.

Lemma exec_handled (p : prog S R D) (w : world S R D) :
  handled excused p → pending_handled excused w →
  pending_handled excused (exec p w) ∧
  ∃ es, log (exec p w) = log w ++ es ∧ Forall (λ e, e ≠ Uncaught) es.
Proof.
  revert w. induction p as [| |f k IH|a IHa k IHk|r k IH|cb IHcb ms k IHk|c k IH];
    simpl; intros w Hp Hw.
  - split; [done|]. exists []. by rewrite app_nil_r.
  - done.
  - by apply (IH (set_ui f w)).
  - destruct Hp as [Ha Hk]. destruct (IHa w Ha Hw) as (Hw1 & es1 & E1 & H1).
    destruct (IHk (exec a w) Hk Hw1) as (Hw2 & es2 & E2 & H2).
    split; [done|]. exists (es1 ++ es2).
    rewrite E2, E1, (assoc_L (++)). split; [done|]. by apply Forall_app.
  - destruct Hw as [Hin Ht]. split.
    + split; simpl; [|done]. apply Forall_app. split; [done|]. by constructor.
    + exists [Issued r]. by repeat constructor.
  - destruct Hp as [Hcb Hk]. apply (IHk (add_timer ms cb w) Hk).
    destruct Hw as [Hin Ht]. split; simpl; [done|].
    apply Forall_app. split; [done|]. by constructor.
  - destruct (IH (record (Sent c) w) Hp Hw) as (Hw1 & es & Heq & H).
    split; [done|]. exists (Sent c :: es). simpl in Heq.
    rewrite Heq, <-(assoc_L (++)). split; [done|]. by constructor.
Qed.

Hypothesis handler_handled : ∀ e s, handled excused (handler e s).

Lemma step_handled (w : world S R D) (i : input E D) :
  pending_handled excused w → rejections_excused excused (log w) →
  pending_handled excused (step handler w i) ∧
  rejections_excused excused (log (step handler w i)).
Proof.
  intros Hw Hl. destruct i as [e|n o|n]; simpl.
  - destruct (exec_handled (handler e (ui w)) w) as (? & es & -> & ?); [done..|].
    split; [done|]. by apply rejections_excused_app.
  - destruct (inflight w !! n) as [[r k]|] eqn:Hn; [|done].
    destruct Hw as [Hin Ht].
    pose proof (Forall_lookup_1 _ _ _ _ Hin Hn) as [Hres Hrej]. simpl in *.
    assert (pending_handled excused (record (Settled r o) (drop_inflight n w))) as Hw'.
    { split; simpl; [by apply Forall_delete|done]. }
    assert (handled excused (k o) ∨ (o = Rejected ∧ excused r = true ∧ k o = Throw))
      as [Hk|(-> & Hr & ->)].
    { destruct o as [d|]; [by left|]. destruct Hrej as [?|[? ?]]; [by left|by right]. }
    + destruct (exec_handled (k o) _ Hk Hw') as (? & es & -> & ?).
      split; [done|]. simpl. rewrite <-(assoc_L (++)).
      apply rejections_excused_app; [done|]. by constructor.
    + simpl. split; [done|]. by apply rejections_excused_thrown.
  - destruct (timers w !! n) as [[ms cb]|] eqn:Hn; [|done].
    destruct Hw as [Hin Ht].
    pose proof (Forall_lookup_1 _ _ _ _ Ht Hn) as Hcb. simpl in Hcb.
    destruct (exec_handled cb (drop_timer n w)) as (? & es & -> & ?);
      [done|by split; simpl; [|apply Forall_delete]|].
    split; [done|]. by apply rejections_excused_app.
Qed.

Lemma run_handled (s : S) (ins : list (input E D)) :
  rejections_excused excused (log (run handler (start s) ins)).
Proof.
  cut (pending_handled excused (run handler (start s) ins) ∧
       rejections_excused excused (log (run handler (start s) ins)));
    [by intros [_ ?]|].
  unfold run.
  assert (pending_handled excused (start s : world S R D) ∧
          rejections_excused excused (log (start s : world S R D))) as Hw.
  { split; [by split|]. by intros i ?. }
  revert Hw. generalize (start s : world S R D).
  induction ins as [|i ins IH]; simpl; [done|].
  intros w [Hw Hl]. apply IH. by apply step_handled.
Qed.
End HandledFacts.

Lemma panel_handler_handled electronAPI e s :
  handled uncaught_call (SummaryPanel.handler electronAPI e s).
Proof.
  assert (handled uncaught_call SummaryPanel.loadConversations) as Hload.
  { simpl. split; [done|by left]. }
  destruct e as [| | | | |id]; simpl; try exact Hload.
  - unfold SummaryPanel.handleClose. by destruct electronAPI.
  - case_decide; simpl; [done|]. split; [|by right].
    intros d. simpl. split; [exact Hload|done].
  - destruct (_ || _); simpl; [done|]. split; [|by left].
    intros d. simpl. split; [done|by left].
  - destruct (SummaryPanel.find_conversation id s) as [conversation|]; [|done].
    destruct (SummaryPanel.cards s !! id) as [c|]; [|done].
    unfold ConversationCard.handleClick.
    destruct (truthy (ConversationCard.summary c)),
      (negb (Conversation.read conversation)); simpl;
      repeat first
        [ done | exact Hload | split | by left | by right
        | intros ?; simpl ].
Qed.

Lemma pet_handler_handled electronAPI e s :
  handled (λ _, false) (BunnyPet.handler electronAPI e s).
Proof.
  destruct e; simpl.
  - split; [|by left]. intros d. simpl. by case_decide.
  - split; [|by left]. intros d. simpl. by case_decide.
  - done.
  - unfold BunnyPet.handleClick. by destruct electronAPI.
Qed.

(** X6.  Along every run of the panel, a rejection goes unhandled only
    when it is the rejection of a mark-read or a mark-all-read call, and
    then right when that call settles; failures of the fetch, of summarize
    and of summarize-all are always caught.  In the companion nothing is
    ever thrown. *)
Theorem unhandled_rejections_only_from_mark_read (electronAPI : option ElectronAPI) :
  (∀ ins,
     rejections_excused uncaught_call
       (log (run (SummaryPanel.handler electronAPI) (start SummaryPanel.initial) ins))) ∧
  (∀ ins,
     Uncaught ∉
       log (run (BunnyPet.handler electronAPI) (start BunnyPet.initial) ins)).
Proof.
  split.
  - intros ins. apply run_handled, panel_handler_handled.
  - intros ins (i & Hi)%list_elem_of_lookup_1.
    destruct (run_handled (λ _, false) (BunnyPet.handler electronAPI)
                (pet_handler_handled electronAPI) BunnyPet.initial ins i Hi)
      as (_ & _ & _ & _ & ?).
    done.
Qed.

(** The excused case does occur: a rejected mark-all-read call is not
    caught, and no reconcile follows it. *)
Example mark_all_read_failure_is_unhandled :
  let w := run (SummaryPanel.handler None)
             (panel_showing [conversation_of "A" 100 false None] 1)
             [User SummaryPanel.ClickMarkAllRead; Settle 0 Rejected] in
  log w = log (panel_showing [conversation_of "A" 100 false None] 1) ++
          [Issued Api.PostReadAll; Settled Api.PostReadAll Rejected; Uncaught] ∧
  inflight w = [].
Proof. vm_compute. by split. Qed.

Lemma delete_app_lt {A} (l1 l2 : list A) (n : nat) :
  (n < length l1)%nat → delete n (l1 ++ l2) = delete n l1 ++ l2.
Proof.
  revert n. induction l1 as [|x l1 IH]; simpl; intros n Hn; [lia|].
  destruct n as [|n]; [done|]. simpl. f_equal. apply IH. lia.
Qed.

Lemma delete_app_ge {A} (l1 l2 : list A) (n : nat) :
  (length l1 ≤ n)%nat → delete n (l1 ++ l2) = l1 ++ delete (n - length l1)%nat l2.
Proof.
  revert n. induction l1 as [|x l1 IH]; simpl; intros n Hn.
  - by rewrite Nat.sub_0_r.
  - destruct n as [|n]; [lia|]. simpl. f_equal. apply IH. lia.
Qed.

Section BulkFacts.
Context (electronAPI : option ElectronAPI).

Lemma exec_idle p w :
  idle p → Forall (λ t, idle t.2) (timers w) →
  SummaryPanel.summarizingAll (ui (exec p w)) = SummaryPanel.summarizingAll (ui w) ∧
  Forall (λ t, idle t.2) (timers (exec p w)) ∧
  ∃ new, inflight (exec p w) = inflight w ++ new ∧ Forall idle_entry new.
Proof.
  revert w. induction p as [| |f k IH|a IHa k IHk|r k IH|cb IHcb ms k IHk|c k IH];
    simpl; intros w Hp Ht.
  - repeat split; [done|]. exists []. by rewrite app_nil_r.
  - repeat split; [done|]. exists []. by rewrite app_nil_r.
  - destruct Hp as [Hf Hk]. destruct (IH (set_ui f w) Hk Ht) as (-> & ? & ?).
    simpl. by rewrite Hf.
  - destruct Hp as [Ha Hk]. destruct (IHa w Ha Ht) as (Hs1 & Ht1 & n1 & E1 & H1).
    destruct (IHk (exec a w) Hk Ht1) as (-> & ? & n2 & E2 & H2).
    repeat split; [done..|]. exists (n1 ++ n2).
    rewrite E2, E1, (assoc_L (++)). split; [done|]. by apply Forall_app.
  - repeat split; [done|]. exists [(r, k)]. split; [done|].
    apply Forall_singleton. exact Hp.
  - destruct Hp as [Hcb Hk]. apply (IHk (add_timer ms cb w) Hk). simpl.
    apply Forall_app. split; [done|]. by constructor.
  - by apply (IH (record (Sent c) w)).
Qed.

Lemma exec_finishing p w :
  finishing p → Forall (λ t, idle t.2) (timers w) →
  Forall (λ t, idle t.2) (timers (exec p w)) ∧
  ((SummaryPanel.summarizingAll (ui (exec p w)) = false ∧
    ∃ new, inflight (exec p w) = inflight w ++ new ∧ Forall idle_entry new) ∨
   (SummaryPanel.summarizingAll (ui (exec p w)) = SummaryPanel.summarizingAll (ui w) ∧
    ∃ e, inflight (exec p w) = inflight w ++ [e] ∧ bulk_entry e)).
Proof.
  revert w. induction p as [| |f k IH|a IHa k IHk|r k IH|cb IHcb ms k IHk|c k IH];
    simpl; intros w Hp Ht; try done.
  - destruct Hp as [[Hf Hk]|[Hf Hk]].
    + destruct (exec_idle k (set_ui f w) Hk Ht) as (Hs & ? & ?).
      split; [done|]. left. split; [|done]. rewrite Hs. simpl. apply Hf.
    + destruct (IH (set_ui f w) Hk Ht) as (? & [[? ?]|[Hs ?]]).
      * split; [done|]. by left.
      * split; [done|]. right. split; [|done]. rewrite Hs. simpl. apply Hf.
  - destruct Hp as [Hr Hk]. split; [done|]. right. split; [done|].
    by exists (r, k).
Qed.

Lemma handler_bulk e s :
  (SummaryPanel.summarizingAll s = true → idle (SummaryPanel.handler electronAPI e s)) ∧
  (SummaryPanel.summarizingAll s = false →
   idle (SummaryPanel.handler electronAPI e s) ∨
   ∃ k, SummaryPanel.handler electronAPI e s =
          SetState (SummaryPanel.setSummarizingAll true) (Await Api.PostSummarizeAll k) ∧
        bulk_entry (Api.PostSummarizeAll, k)).
Proof.
  assert (idle SummaryPanel.loadConversations) as Hload.
  { simpl. split; [done|]. intros [data|]; simpl; by repeat split. }
  destruct e as [| | | | |id]; simpl.
  - split; [done|by left].
  - split; [done|by left].
  - unfold SummaryPanel.handleClose.
    destruct electronAPI; (split; [done|by left]).
  - case_decide; simpl; [split; [done|by left]|].
    assert (idle (SummaryPanel.handleMarkAllRead)) as H'.
    { simpl. split; [done|]. intros [data|]; simpl; [|done].
      split; [exact Hload|done]. }
    split; [done|by left].
  - split.
    + intros ->. done.
    + intros ->. simpl. destruct (bool_decide _); [by left|]. right.
      eexists. split; [reflexivity|].
      intros [data|]; simpl.
      * split; [done|]. intros [data'|]; simpl.
        -- right. split; [done|]. right. split; [done|].
           right. split; [done|]. by left.
        -- right. split; [done|]. by left.
      * by left.
  - destruct (SummaryPanel.find_conversation id s) as [conversation|];
      [|split; [done|by left]].
    destruct (SummaryPanel.cards s !! id) as [c|]; [|split; [done|by left]].
    assert (idle (ConversationCard.handleClick
                    (SummaryPanel.card id (SummaryPanel.instance id s)) conversation
                    SummaryPanel.loadConversations c)) as H'.
    { unfold ConversationCard.handleClick.
      destruct (truthy (ConversationCard.summary c)),
        (negb (Conversation.read conversation)); simpl;
        repeat first
          [ done | exact Hload
          | by intros; rewrite card_summarizingAll
          | split
          | intros [?|]; simpl ]. }
    split; [done|by left].
Qed.

Lemma step_bulk_ok w i :
  bulk_ok w → bulk_ok (step (SummaryPanel.handler electronAPI) w i).
Proof.
  intros [Ht Hw]. destruct i as [e|n o|n]; simpl.
  - destruct (handler_bulk e (ui w)) as [Hon Hoff].
    destruct Hw as [[Hs Hin]|(Hs & l1 & b & l2 & E & Hb & H1 & H2)].
    + destruct (Hoff Hs) as [Hidle|(k & -> & Hk)].
      * destruct (exec_idle _ w Hidle Ht) as (Hs' & ? & new & E & ?).
        split; [done|]. left. rewrite Hs', E. split; [done|]. by apply Forall_app.
      * simpl. split; [done|]. right. split; [done|].
        exists (inflight w), (Api.PostSummarizeAll, k), []. by repeat split.
    + destruct (exec_idle _ w (Hon Hs) Ht) as (Hs' & ? & new & E' & ?).
      split; [done|]. right. rewrite Hs', E', E. split; [done|].
      exists l1, b, (l2 ++ new). rewrite <-(assoc_L (++)). simpl.
      repeat split; [done..|]. by apply Forall_app.
  - destruct (inflight w !! n) as [[r k]|] eqn:Hn; [|done].
    destruct Hw as [[Hs Hin]|(Hs & l1 & b & l2 & E & Hb & H1 & H2)].
    + pose proof (Forall_lookup_1 _ _ _ _ Hin Hn) as [_ Hk]. simpl in Hk.
      destruct (exec_idle (k o) (record (Settled r o) (drop_inflight n w)) (Hk o) Ht)
        as (Hs' & ? & new & E & ?).
      split; [done|]. left. rewrite Hs', E. simpl. split; [done|].
      apply Forall_app. split; [by apply Forall_delete|done].
    + rewrite E in Hn.
      destruct (decide (n < length l1)%nat) as [Hlt|Hge].
      * rewrite lookup_app_l in Hn by done.
        pose proof (Forall_lookup_1 _ _ _ _ H1 Hn) as [_ Hk]. simpl in Hk.
        destruct (exec_idle (k o) (record (Settled r o) (drop_inflight n w)) (Hk o) Ht)
          as (Hs' & ? & new & E' & ?).
        split; [done|]. right. rewrite Hs', E'. simpl. split; [done|].
        exists (delete n l1), b, (l2 ++ new). rewrite E.
        repeat split; [|done|by apply Forall_delete|by apply Forall_app].
        rewrite delete_app_lt by done. by rewrite <-(assoc_L (++)).
      * rewrite lookup_app_r in Hn by lia.
        destruct (n - length l1)%nat as [|m] eqn:Hm; simpl in Hn.
        -- injection Hn as ->.
           assert (n = length l1) as -> by lia.
           destruct (exec_finishing (k o)
                       (record (Settled r o) (drop_inflight (length l1) w)) (Hb o) Ht)
             as (? & [(Hs' & new & E' & ?)|(Hs' & e' & E' & ?)]).
           ++ split; [done|]. left. split; [done|]. rewrite E'. simpl.
              rewrite E, delete_middle. by rewrite !Forall_app.
           ++ split; [done|]. right. rewrite Hs'. simpl. split; [done|].
              exists (l1 ++ l2), e', []. rewrite E'. simpl.
              rewrite E, delete_middle. repeat split; [done| |done].
              by apply Forall_app.
        -- pose proof (Forall_lookup_1 _ _ _ _ H2 Hn) as [_ Hk]. simpl in Hk.
           destruct (exec_idle (k o) (record (Settled r o) (drop_inflight n w)) (Hk o) Ht)
             as (Hs' & ? & new & E' & ?).
           split; [done|]. right. rewrite Hs', E'. simpl. split; [done|].
           exists l1, b, (delete m l2 ++ new). rewrite E.
           repeat split; [|done|done|].
           ++ rewrite delete_app_ge by lia. rewrite Hm. simpl.
              by rewrite <-(assoc_L (++)).
           ++ apply Forall_app. split; [by apply Forall_delete|done].
  - destruct (timers w !! n) as [[ms cb]|] eqn:Hn; [|done].
    pose proof (Forall_lookup_1 _ _ _ _ Ht Hn) as Hcb. simpl in Hcb.
    assert (Forall (λ t, idle t.2) (timers (drop_timer n w))) as Ht'
      by (by apply Forall_delete).
    destruct (exec_idle cb (drop_timer n w) Hcb Ht') as (Hs' & ? & new & E' & ?).
    split; [done|]. rewrite Hs', E'. simpl.
    destruct Hw as [[Hs Hin]|(Hs & l1 & b & l2 & E & Hb & H1 & H2)].
    + left. split; [done|]. by apply Forall_app.
    + right. split; [done|]. exists l1, b, (l2 ++ new). rewrite E.
      rewrite <-(assoc_L (++)). simpl. repeat split; [done..|]. by apply Forall_app.
Qed.

Lemma run_bulk_ok ins :
  bulk_ok (run (SummaryPanel.handler electronAPI) (start SummaryPanel.initial) ins).
Proof.
  unfold run.
  assert (bulk_ok (start SummaryPanel.initial)) as Hw.
  { split; [done|]. left. by split. }
  revert Hw. generalize (start SummaryPanel.initial
                           : world SummaryPanel.state Api.request Api.data).
  induction ins as [|i ins IH]; simpl; [done|].
  intros w Hw. apply IH. by apply step_bulk_ok.
Qed.

Lemma idle_entries_no_bulk_call l :
  Forall idle_entry l →
  filter (λ e, is_summarize_all e.1 = true) l = [].
Proof.
  induction 1 as [|[r k] l [Hr _] _ IH]; [done|].
  rewrite filter_cons_False; [done|].
  unfold is_summarize_all. simpl. by rewrite bool_decide_eq_true.
Qed.
End BulkFacts.

(** X7.  Summarize All is single-flight.  Along every run of the panel at
    most one summarize-all call is outstanding, [summarizingAll] is set
    whenever one is, and while it is set a click on the button does
    nothing. *)
Theorem summarize_all_is_single_flight (electronAPI : option ElectronAPI)
    (ins : list (input SummaryPanel.user Api.data)) :
  let handler := SummaryPanel.handler electronAPI in
  let w := run handler (start SummaryPanel.initial) ins in
  (outstanding is_summarize_all w ≤ 1)%nat ∧
  (outstanding is_summarize_all w = 1%nat →
   SummaryPanel.summarizingAll (ui w) = true) ∧
  (SummaryPanel.summarizingAll (ui w) = true →
   step handler w (User SummaryPanel.ClickSummarizeAll) = w).
Proof.
  intros handler w.
  destruct (run_bulk_ok electronAPI ins)
    as [_ [[Hs Hin]|(Hs & l1 & [r k] & l2 & E & Hb & H1 & H2)]];
    fold handler in Hs, Hin || fold handler in Hs, E; fold w in Hs.
  - fold w in Hin. unfold outstanding.
    rewrite (idle_entries_no_bulk_call _ Hin). simpl.
    repeat split; [lia|lia|]. intros Hn. congruence.
  - fold w in E. unfold outstanding. rewrite E.
    rewrite filter_app, filter_cons, !(idle_entries_no_bulk_call) by done.
    repeat split.
    + case_decide; simpl; lia.
    + done.
    + intros _. simpl. by rewrite Hs.
Qed.

Lemma summarize_all_is_single_flight_witness :
  let handler := SummaryPanel.handler None in
  let w := run handler (panel_showing [conversation_of "A" 100 false None] 1)
             [User SummaryPanel.ClickSummarizeAll] in
  outstanding is_summarize_all w = 1%nat ∧
  SummaryPanel.summarizingAll (ui w) = true ∧
  step handler w (User SummaryPanel.ClickSummarizeAll) = w.
Proof.
  intros handler w.
  destruct (summarize_all_is_single_flight None
              [User SummaryPanel.Mount;
               Settle 0 (Resolved (listing [conversation_of "A" 100 false None] 1));
               User SummaryPanel.ClickSummarizeAll])
    as (_ & Hset & Hnoop).
  split; [reflexivity|]. split.
  - apply Hset. reflexivity.
  - apply Hnoop. reflexivity.
Defined.

(** ** The host beyond the claims *)

Lemma Forall_filter_keep {A} (P Q : A → Prop) `{∀ x, Decision (Q x)} (l : list A) :
  Forall P l → Forall P (filter Q l).
Proof.
  intros Hl. apply Forall_forall. intros x [_ Hx]%list_elem_of_filter.
  by apply (proj1 (Forall_forall _ _) Hl).
Qed.

Lemma ipcMain_petWindow channel s :
  Main.petWindow (Main.ipcMain channel s) = Main.petWindow s.
Proof.
  assert (Main.petWindow (Main.createSummaryWindow s) = Main.petWindow s) as Hopen.
  { unfold Main.createSummaryWindow. destruct (Main.summaryWindow s); [done|].
    by destruct (Main.workAreaSize s). }
  assert (Main.petWindow (Main.closeSummaryWindow s) = Main.petWindow s) as Hclose.
  { unfold Main.closeSummaryWindow. by destruct (Main.summaryWindow s). }
  unfold Main.ipcMain, Main.toggle_summary.
  repeat case_decide; try destruct (truthy _); auto.
Qed.

Lemma toggle_iter_visible s (n : nat) :
  consistent s → tidy s →
  consistent (Nat.iter n Main.toggle_summary s) ∧
  tidy (Nat.iter n Main.toggle_summary s) ∧
  Main.panel_visible (Nat.iter n Main.toggle_summary s) =
  xorb (Nat.odd n) (Main.panel_visible s).
Proof.
  intros Hs Ht. induction n as [|n (IHc & IHt & IHv)].
  - split; [done|]. split; [done|]. simpl. by destruct (Main.panel_visible s).
  - split; [by apply consistent_toggle_summary|].
    split; [by apply tidy_toggle_summary|].
    rewrite Nat.odd_succ, <-Nat.negb_odd. simpl.
    rewrite panel_visible_tidy;
      [|by apply consistent_toggle_summary|by apply tidy_toggle_summary].
    rewrite toggle_summary_flips.
    rewrite <-panel_visible_tidy, IHv by done.
    by destruct (Nat.odd n), (Main.panel_visible s).
Qed.

Lemma toggle_iter_handle s (n : nat) :
  truthy (Main.summaryWindow (Nat.iter n Main.toggle_summary s)) =
  xorb (Nat.odd n) (truthy (Main.summaryWindow s)).
Proof.
  induction n as [|n IH].
  - simpl. by destruct (truthy (Main.summaryWindow s)).
  - rewrite Nat.odd_succ, <-Nat.negb_odd. simpl.
    rewrite toggle_summary_flips, IH.
    by destruct (Nat.odd n), (truthy (Main.summaryWindow s)).
Qed.

Lemma run_toggles s (n : nat) :
  Main.run s (replicate n (Main.Ipc "toggle-summary")) =
  Nat.iter n Main.toggle_summary s.
Proof.
  revert s. induction n as [|n IH]; intros s; [done|].
  change (Main.run (Main.toggle_summary s) (replicate n (Main.Ipc "toggle-summary")) =
          Nat.iter (S n) Main.toggle_summary s).
  by rewrite IH, Nat.iter_succ_r.
Qed.

(** While the work area keeps the size the host started with, every window
    on screen is where that size puts it. *)
Lemma placed_run (screenW screenH : Z) es :
  Forall same_display es →
  let s := Main.run (Main.whenReady screenW screenH) es in
  Main.workAreaSize s = (screenW, screenH) ∧
  Forall (placed screenW screenH) (Main.windows s).
Proof.
  unfold Main.run.
  assert (Main.workAreaSize (Main.whenReady screenW screenH) = (screenW, screenH) ∧
          Forall (placed screenW screenH)
            (Main.windows (Main.whenReady screenW screenH))) as Hs
    by (split; [done|by repeat constructor]).
  revert Hs. generalize (Main.whenReady screenW screenH).
  induction es as [|e es IH]; simpl; [done|].
  intros s Hs [He Hes]%Forall_cons. apply IH; [|done]. clear IH Hes.
  assert (∀ s, Main.workAreaSize s = (screenW, screenH) ∧
               Forall (placed screenW screenH) (Main.windows s) →
               Main.workAreaSize (Main.createSummaryWindow s) = (screenW, screenH) ∧
               Forall (placed screenW screenH)
                 (Main.windows (Main.createSummaryWindow s)))
    as Hopen.
  { intros s' [Hd Hs']. unfold Main.createSummaryWindow.
    destruct (Main.summaryWindow s'); simpl.
    - split; [done|]. apply Forall_fmap. eapply Forall_impl; [exact Hs'|].
      intros w Hw. simpl. by case_decide.
    - rewrite Hd. simpl. split; [done|]. by constructor. }
  assert (∀ h s, Main.workAreaSize s = (screenW, screenH) ∧
                 Forall (placed screenW screenH) (Main.windows s) →
                 Main.workAreaSize (Main.closed h s) = (screenW, screenH) ∧
                 Forall (placed screenW screenH) (Main.windows (Main.closed h s)))
    as Hclosed.
  { intros h s' [Hd Hs']. unfold Main.closed.
    destruct (list_find _ _) as [[i w]|]; [|done].
    destruct (Main.on_closed w); simpl; (split; [done|by apply Forall_filter_keep]). }
  assert (∀ s, Main.workAreaSize s = (screenW, screenH) ∧
               Forall (placed screenW screenH) (Main.windows s) →
               Main.workAreaSize (Main.closeSummaryWindow s) = (screenW, screenH) ∧
               Forall (placed screenW screenH)
                 (Main.windows (Main.closeSummaryWindow s)))
    as Hclose.
  { intros s' [Hd Hs']. unfold Main.closeSummaryWindow, Main.close.
    destruct (Main.summaryWindow s'); simpl; [|done].
    split; [done|by apply Forall_filter_keep]. }
  destruct e as [channel| |h|size]; simpl.
  - unfold Main.ipcMain, Main.toggle_summary.
    repeat case_decide; try destruct (truthy _); auto.
  - unfold Main.activate. destruct (truthy _); [done|].
    unfold Main.createPetWindow. destruct Hs as [Hd Hs]. rewrite Hd. simpl.
    split; [done|]. by constructor.
  - by apply Hclosed.
  - done.
Qed.



(** X9.  Opening and closing are idempotent in every state the host can
    be in: a second open command leaves the state the first one produced
    (no second window, same handle, same front window), and a second close
    command changes nothing. *)
Theorem open_and_close_are_idempotent (screenW screenH : Z) (es : list Main.event) :
  let s := Main.run (Main.whenReady screenW screenH) es in
  let open := Main.ipcMain "open-summary" in
  let close := Main.ipcMain "close-summary" in
  open (open s) = open s ∧ close (close s) = close s.
Proof.
  intros s open close.
  assert (consistent s) as Hs by apply consistent_run.
  split.
  - change (Main.createSummaryWindow (Main.createSummaryWindow s) =
            Main.createSummaryWindow s).
    unfold Main.createSummaryWindow at 2 3.
    destruct (Main.summaryWindow s) as [h|] eqn:Hh.
    + unfold Main.createSummaryWindow. simpl. rewrite Hh.
      unfold Main.focus, Main.show. simpl. f_equal.
      rewrite <-list_fmap_compose. apply list_fmap_ext. intros ? w _. simpl.
      by repeat case_decide.
    + destruct (Main.workAreaSize s) as [sw sh].
      unfold Main.createSummaryWindow. simpl.
      unfold Main.focus, Main.show, Main.set_summaryWindow, Main.new_BrowserWindow.
      simpl. f_equal. rewrite decide_True by done. f_equal.
      rewrite <-(list_fmap_id (Main.windows s)) at 2.
      apply list_fmap_ext. intros ? w Hw%list_elem_of_lookup_2.
      rewrite decide_False; [done|].
      pose proof (ids_fresh s Hs w ltac:(apply elem_of_app; by left)). lia.
  - change (Main.closeSummaryWindow (Main.closeSummaryWindow s) =
            Main.closeSummaryWindow s).
    set (s1 := Main.closeSummaryWindow s).
    assert (Main.summaryWindow s1 = None) as Hnone.
    { subst s1. unfold Main.closeSummaryWindow.
      by destruct (Main.summaryWindow s) eqn:Hh. }
    unfold Main.closeSummaryWindow. by rewrite Hnone.
Qed.

(** X10.  Where the windows are put.  As long as the work area keeps the
    size [screenW] by [screenH] it had when the host started, in every state
    the host can be in a panel on screen ends 20 pixels left of where the
    companion begins, panel and companion both end at [screenH - 40], and
    the companion ends at [screenW - 40]; for a size of at least 700 by 660
    no coordinate is negative.  (The coordinates are computed from the size
    of the work area alone, and from the size read when the window is
    created.) *)
Theorem panel_beside_companion (screenW screenH : Z) (es : list Main.event)
    (panel companion : Main.BrowserWindow) :
  let s := Main.run (Main.whenReady screenW screenH) es in
  Forall same_display es →
  panel ∈ Main.live "summary" s →
  companion ∈ Main.live "pet" s →
  Main.x panel + Main.width panel + 20 = Main.x companion ∧
  Main.y panel + Main.height panel = screenH - 40 ∧
  Main.y companion + Main.height companion = screenH - 40 ∧
  Main.x companion + Main.width companion = screenW - 40 ∧
  (700 ≤ screenW → 660 ≤ screenH →
   0 ≤ Main.x panel ∧ 0 ≤ Main.y panel ∧ 0 ≤ Main.x companion ∧ 0 ≤ Main.y companion).
Proof.
  intros s Hes [Hp1 Hp2]%list_elem_of_filter [Hc1 Hc2]%list_elem_of_filter.
  assert (consistent s) as Hs by apply consistent_run.
  destruct (placed_run screenW screenH es Hes) as [_ Hplaced]. fold s in Hplaced.
  pose proof (proj1 (Forall_forall _ _) Hplaced _ Hp2) as Pp.
  pose proof (proj1 (Forall_forall _ _) Hplaced _ Hc2) as Pc.
  unfold placed in Pp, Pc.
  destruct (windows_made s Hs panel Hp2) as [_ [[Hpg _]|[_ Hl1]]];
    [by rewrite Hp1 in Hpg|].
  destruct (windows_made s Hs companion Hc2) as [_ [[_ Hl2]|[Hpg _]]];
    [|by rewrite Hc1 in Hpg].
  rewrite Hl1 in Pp. rewrite Hl2 in Pc.
  unfold Main.PET_WIDTH, Main.PET_HEIGHT, Main.SUMMARY_WIDTH, Main.SUMMARY_HEIGHT in *.
  lia.
Qed.

Lemma panel_beside_companion_witness :
  let s := Main.run (Main.whenReady 1920 1080) [Main.Ipc "open-summary"] in
  ∃ panel companion,
    Main.windows s = [panel; companion] ∧
    Main.x panel + Main.width panel + 20 = Main.x companion ∧
    0 ≤ Main.x panel ∧ 0 ≤ Main.y panel.
Proof.
  intros s. eexists _, _. split; [reflexivity|].
  edestruct (panel_beside_companion 1920 1080 [Main.Ipc "open-summary"])
    as (Hgap & _ & _ & _ & Hin).
  - by repeat constructor.
  - apply list_elem_of_filter. split; [|by left]. done.
  - apply list_elem_of_filter. split; [|right; by left]. done.
  - split; [exact Hgap|]. destruct Hin as (? & ? & _); [lia..|]. done.
Defined.

(** A panel created after the work area has grown is put where the new
    size says, over the companion that was put where the old size said. *)
Example display_change_misplaces_panel :
  let s := Main.run (Main.whenReady 1920 1080)
             [Main.DisplayMetricsChanged (2560, 1440); Main.Ipc "open-summary"] in
  (λ w, (Main.page w, Main.x w, Main.width w)) <$> Main.windows s
    = [("summary", 1860, 420); ("pet", 1660, 220)].
Proof. vm_compute. reflexivity. Qed.

(** X11.  No command from a UI process touches the companion: whatever
    channel is received, in any state the host can be in, the companion's
    handle and the companion windows are what they were. *)
Theorem commands_leave_companion (screenW screenH : Z) (es : list Main.event)
    (channel : string) :
  let s := Main.run (Main.whenReady screenW screenH) es in
  let s' := Main.step s (Main.Ipc channel) in
  Main.petWindow s' = Main.petWindow s ∧
  Main.id <$> Main.live "pet" s' = Main.id <$> Main.live "pet" s.
Proof.
  intros s s'.
  assert (consistent s) as Hs by apply consistent_run.
  assert (consistent s') as Hs' by (by apply consistent_step).
  assert (Main.petWindow s' = Main.petWindow s) as Hpet
    by (by apply ipcMain_petWindow).
  split; [done|].
  rewrite (live_registered "pet" (Main.petWindow s') s'),
    (live_registered "pet" (Main.petWindow s) s);
    [by rewrite Hpet|by apply windows_unique|by destruct Hs
    |by apply windows_unique|by destruct Hs'].
Qed.

(** X12.  Activation restores the companion: after an activation there is
    exactly one companion window, whether or not the companion had been
    closed before; with the companion present, activation changes
    nothing. *)
Theorem activation_restores_companion (screenW screenH : Z) (es : list Main.event) :
  let s := Main.run (Main.whenReady screenW screenH) es in
  let s' := Main.step s Main.Activate in
  length (Main.live "pet" s') = 1%nat ∧
  (is_Some (Main.petWindow s) → s' = s) ∧
  Main.summaryWindow s' = Main.summaryWindow s.
Proof.
  intros s s'.
  assert (consistent s) as Hs by apply consistent_run.
  assert (consistent s') as Hs' by (by apply consistent_step).
  assert (is_Some (Main.petWindow s')) as [h Hh].
  { subst s'. simpl. unfold Main.activate.
    destruct (Main.petWindow s) eqn:Hp; simpl; [by rewrite Hp|].
    unfold Main.createPetWindow. by destruct (Main.workAreaSize s). }
  split; [|split].
  - rewrite <-(length_fmap Main.id),
      (live_registered "pet" (Main.petWindow s') s'), Hh;
      [done|by apply windows_unique|by destruct Hs'].
  - intros [h' Hh']. subst s'. simpl. unfold Main.activate. by rewrite Hh'.
  - subst s'. simpl. unfold Main.activate. destruct (truthy _); [done|].
    unfold Main.createPetWindow. by destruct (Main.workAreaSize s).
Qed.

Lemma activation_restores_companion_witness :
  let s := Main.run (Main.whenReady 1920 1080) [Main.Closed 0; Main.Activate] in
  Main.step s Main.Activate = s.
Proof.
  intros s.
  destruct (activation_restores_companion 1920 1080 [Main.Closed 0; Main.Activate])
    as (_ & Hsame & _).
  apply Hsame. by eexists.
Defined.

Lemma replace_hash_leading (p : string) :
  App.replace_hash (String "#"%char p) = p.
Proof. done. Qed.

(** X13.  Every window of the host shows the view of its kind: in any
    state the host can be in, the page of a window whose closing clears the
    panel handle settles on the panel view, and the page of a window whose
    closing clears the companion handle on the companion view.  Any hash
    other than ['#summary'] gives the companion view. *)
Theorem windows_show_their_view (screenW screenH : Z) (es : list Main.event)
    (w : Main.BrowserWindow) :
  let s := Main.run (Main.whenReady screenW screenH) es in
  w ∈ Main.windows s →
  App.App (location_hash w) =
    match Main.on_closed w with
    | Main.clear_summaryWindow => App.summary
    | Main.clear_petWindow => App.pet
    end ∧
  (∀ p, App.App (String "#"%char p) = App.summary ↔ p = "summary").
Proof.
  intros s Hw.
  assert (consistent s) as Hs by apply consistent_run.
  split.
  - unfold location_hash, App.App. rewrite replace_hash_leading.
    destruct (windows_made s Hs w Hw) as [_ [[-> ->]|[-> ->]]]; by case_decide.
  - intros p. unfold App.App. rewrite replace_hash_leading.
    by case_decide.
Qed.

Lemma windows_show_their_view_witness :
  let s := Main.run (Main.whenReady 1920 1080) [Main.Ipc "toggle-summary"] in
  App.App <$> (location_hash <$> Main.windows s) = [App.summary; App.pet].
Proof.
  intros s.
  assert (∀ w, w ∈ Main.windows s →
               App.App (location_hash w) =
               match Main.on_closed w with
               | Main.clear_summaryWindow => App.summary
               | Main.clear_petWindow => App.pet
               end) as H.
  { intros w Hw.
    by destruct (windows_show_their_view 1920 1080 [Main.Ipc "toggle-summary"] w Hw). }
  destruct (Main.windows s) as [|w1 [|w2 [|]]] eqn:Hwin; try done.
  injection Hwin as <- <-.
  simpl. rewrite !H by (apply list_elem_of_In; simpl; tauto). done.
Defined.

(** ** The companion beyond the claims *)

Lemma elem_of_delete_other {A} (l : list A) (n : nat) (x y : A) :
  x ∈ l → l !! n = Some y → x ≠ y → x ∈ delete n l.
Proof.
  intros (i & Hi)%list_elem_of_lookup_1 Hn Hne.
  destruct (decide (i < n)%nat).
  - apply (list_elem_of_lookup_2 _ i). by rewrite list_lookup_delete_lt.
  - assert (i ≠ n) by (intros ->; congruence).
    destruct i as [|i]; [lia|].
    apply (list_elem_of_lookup_2 _ i). rewrite list_lookup_delete_ge by lia. done.
Qed.

Section PetMore.
Context (electronAPI : option ElectronAPI).

Lemma step_animations_end w i :
  animations_end w → animations_end (step (BunnyPet.handler electronAPI) w i).
Proof.
  intros (Hbounce & Hblink & Ht & Hin).
  assert (∀ w0, animations_end w0 →
            animations_end (exec BunnyPet.pollUnread w0)) as Hpoll.
  { intros w0 (? & ? & ? & Hin0). repeat split; simpl; try done.
    apply Forall_app. split; [done|]. by repeat constructor. }
  destruct i as [e|n o|n]; simpl.
  - destruct e; simpl.
    + by apply Hpoll.
    + by apply Hpoll.
    + repeat split; simpl.
      * intros Hb. destruct (Hbounce Hb) as [?|?]; [left|right];
          apply elem_of_app; by left.
      * intros _. apply elem_of_app. right. by left.
      * apply Forall_app. split; [done|]. apply Forall_singleton. auto.
      * done.
    + assert (∀ w0 : world BunnyPet.state Api.request Api.data,
                animations_end w0 →
                animations_end
                  (exec (setState (BunnyPet.setBouncing true);;
                         setTimeout (setState (BunnyPet.setBouncing false)) 600) w0))
        as Hclick.
      { intros w0 (Hb0 & Hl0 & Ht0 & Hin0). repeat split; simpl.
        - intros _. right. apply elem_of_app. right. by left.
        - intros Hb. apply elem_of_app. left. by apply Hl0.
        - apply Forall_app. split; [done|]. apply Forall_singleton. auto.
        - done. }
      unfold BunnyPet.handleClick. destruct electronAPI as [api|]; simpl.
      * apply (Hclick (record (Sent (toggleSummary api)) w)). by repeat split.
      * apply (Hclick w). by repeat split.
  - destruct (inflight w !! n) as [[r k]|] eqn:Hn; [|done].
    pose proof (Forall_lookup_1 _ _ _ _ Hin Hn) as [= -> ->].
    assert (Forall (λ e, e = (Api.GetUnreadCount, poll_continuation))
              (delete n (inflight w))) as Hin' by (by apply Forall_delete).
    destruct o as [d|]; simpl.
    + case_decide; simpl.
      * repeat split; simpl; try done.
        -- intros _. left. apply elem_of_app. right. by left.
        -- intros Hb. apply elem_of_app. left. by apply Hblink.
        -- apply Forall_app. split; [done|]. apply Forall_singleton. auto.
      * by repeat split.
    + by repeat split.
  - destruct (timers w !! n) as [[ms cb]|] eqn:Hn; [|done].
    pose proof (Forall_lookup_1 _ _ _ _ Ht Hn) as Hcb.
    assert (Forall (λ t, t = (2000, bounce_reset) ∨ t = (600, bounce_reset) ∨
                         t = (200, blink_reset)) (delete n (timers w))) as Ht'
      by (by apply Forall_delete).
    destruct Hcb as [[= -> ->]|[[= -> ->]|[= -> ->]]]; simpl.
    + repeat split; simpl; try done. intros Hb.
      by apply (elem_of_delete_other _ n _ (2000, bounce_reset)); [apply Hblink| |].
    + repeat split; simpl; try done. intros Hb.
      by apply (elem_of_delete_other _ n _ (600, bounce_reset)); [apply Hblink| |].
    + repeat split; simpl; try done. intros Hb.
      destruct (Hbounce Hb) as [?|?]; [left|right];
        by apply (elem_of_delete_other _ n _ (200, blink_reset)).
Qed.

Lemma run_animations_end ins :
  animations_end (run (BunnyPet.handler electronAPI) (start BunnyPet.initial) ins).
Proof.
  unfold run.
  assert (animations_end (start BunnyPet.initial)) as Hw by (by repeat split).
  revert Hw. generalize (start BunnyPet.initial
                           : world BunnyPet.state Api.request Api.data).
  induction ins as [|i ins IH]; simpl; [done|].
  intros w Hw. apply IH. by apply step_animations_end.
Qed.
End PetMore.

(** X14.  The companion's animations always end.  Along every run,
    whenever the companion is bouncing, a timeout of 600 or 2000 ms that
    turns the bounce off is pending, and whenever it blinks, a timeout of
    200 ms that ends the blink is pending: no poll result, click or tick
    leaves an animation on without its end scheduled. *)
Theorem animations_always_end (electronAPI : option ElectronAPI)
    (ins : list (input BunnyPet.user Api.data)) :
  let handler := BunnyPet.handler electronAPI in
  let w := run handler (start BunnyPet.initial) ins in
  (BunnyPet.bouncing (ui w) = true →
   ∃ n ms cb, timers w !! n = Some (ms, cb) ∧ (ms = 600 ∨ ms = 2000) ∧
              BunnyPet.bouncing (ui (step handler w (Fire n))) = false) ∧
  (BunnyPet.blinking (ui w) = true →
   ∃ n cb, timers w !! n = Some (200, cb) ∧
           BunnyPet.blinking (ui (step handler w (Fire n))) = false).
Proof.
  intros handler w.
  destruct (run_animations_end electronAPI ins) as (Hbounce & Hblink & _ & _).
  fold handler in Hbounce, Hblink. fold w in Hbounce, Hblink.
  split.
  - intros Hb.
    destruct (Hbounce Hb) as [Hin|Hin]; apply list_elem_of_lookup_1 in Hin as [n Hn].
    + exists n, 2000, bounce_reset. split; [done|]. split; [by right|].
      simpl. by rewrite Hn.
    + exists n, 600, bounce_reset. split; [done|]. split; [by left|].
      simpl. by rewrite Hn.
  - intros Hb. destruct (list_elem_of_lookup_1 _ _ (Hblink Hb)) as [n Hn].
    exists n, blink_reset. split; [done|]. simpl. by rewrite Hn.
Qed.

Lemma animations_always_end_witness :
  let handler := BunnyPet.handler None in
  let w := run handler (start BunnyPet.initial)
             [User BunnyPet.Click; User BunnyPet.BlinkInterval] in
  (∃ n ms cb, timers w !! n = Some (ms, cb) ∧ (ms = 600 ∨ ms = 2000) ∧
              BunnyPet.bouncing (ui (step handler w (Fire n))) = false) ∧
  (∃ n cb, timers w !! n = Some (200, cb) ∧
           BunnyPet.blinking (ui (step handler w (Fire n))) = false).
Proof.
  intros handler w.
  destruct (animations_always_end None
              [User BunnyPet.Click; User BunnyPet.BlinkInterval]) as [Hb Hl].
  split; [apply Hb|apply Hl]; reflexivity.
Defined.

(** ** What a card displays *)

Lemma append_cons (c : ascii) (a b : string) :
  String c a +:+ b = String c (a +:+ b).
Proof. done. Qed.

Lemma append_empty_r (a : string) : a +:+ "" = a.
Proof. induction a as [|c a IH]; [done|]. by rewrite append_cons, IH. Qed.

Lemma length_append (a b : string) :
  String.length (a +:+ b) = (String.length a + String.length b)%nat.
Proof.
  induction a as [|c a IH]; [done|]. rewrite append_cons. simpl. by rewrite IH.
Qed.

Lemma slice_to_length (n : nat) (s : string) :
  String.length (slice_to n s) = (n `min` String.length s)%nat.
Proof.
  revert s. induction n as [|n IH]; intros [|c s]; simpl; try done.
  by rewrite IH.
Qed.

Lemma slice_to_all (n : nat) (s : string) :
  (String.length s ≤ n)%nat → slice_to n s = s.
Proof.
  revert s. induction n as [|n IH]; intros [|c s]; simpl; try done; [lia|].
  intros H. rewrite IH; [done|lia].
Qed.

Lemma slice_to_from (n : nat) (s : string) :
  slice_to n s +:+ slice_from n s = s.
Proof.
  revert s. induction n as [|n IH]; intros [|c s]; simpl; try done.
  rewrite append_cons. by rewrite IH.
Qed.

Lemma slice_from_length (n : nat) (s : string) :
  String.length (slice_from n s) = (String.length s - n)%nat.
Proof.
  revert s. induction n as [|n IH]; intros [|c s]; simpl; try done.
Qed.

(** X15.  The preview of a card is taken from the last message of the
    conversation: a text of at most 80 code units is shown as it is, a
    longer one is cut to its first 80 code units followed by "...", so a
    preview is never longer than 83 code units; a conversation without
    messages shows "No messages". *)
Theorem preview_is_bounded (conversation : Conversation.t) :
  (String.length (CardView.preview conversation) ≤ 83)%nat ∧
  (Conversation.messages conversation = [] →
   CardView.preview conversation = "No messages") ∧
  (∀ earlier m,
     Conversation.messages conversation = earlier ++ [m] →
     ((String.length (Message.text m) ≤ 80)%nat →
      CardView.preview conversation = Message.text m) ∧
     ((80 < String.length (Message.text m))%nat →
      String.length (CardView.preview conversation) = 83%nat ∧
      ∃ rest, Message.text m = slice_to 80 (Message.text m) +:+ rest ∧
              CardView.preview conversation = slice_to 80 (Message.text m) +:+ "...")).
Proof.
  unfold CardView.preview, CardView.lastMessage.
  split; [|split].
  - destruct (last _) as [m|]; [|simpl; lia].
    rewrite length_append, slice_to_length.
    case_decide;
      [change (String.length "...") with 3%nat|change (String.length "") with 0%nat];
      lia.
  - by intros ->.
  - intros earlier m ->. rewrite last_snoc. split.
    + intros Hle. rewrite decide_False by lia. rewrite slice_to_all by done.
      apply append_empty_r.
    + intros Hgt. rewrite decide_True by done. split.
      * rewrite length_append, slice_to_length.
        change (String.length "...") with 3%nat. lia.
      * exists (slice_from 80 (Message.text m)).
        split; [by rewrite slice_to_from|done].
Qed.

Lemma preview_is_bounded_witness :
  let m := {| Message.from := "A"; Message.text := "see you at noon";
              Message.timestamp := 100 |} in
  let c := {| Conversation.sender := "A"; Conversation.conversation_id := "A";
              Conversation.started_at := 0; Conversation.last_activity := 100;
              Conversation.messages := [m]; Conversation.read := false;
              Conversation.summary := None |} in
  CardView.preview c = "see you at noon" ∧
  CardView.preview (conversation_of "A" 100 false None) = "No messages".
Proof.
  intros m c. split.
  - destruct (preview_is_bounded c) as (_ & _ & Hlast).
    destruct (Hlast [] m eq_refl) as [Hshort _]. apply Hshort. simpl. lia.
  - destruct (preview_is_bounded (conversation_of "A" 100 false None))
      as (_ & Hnone & _).
    apply Hnone. reflexivity.
Defined.

(** X16.  The avatar of a card is the end of the sender label: its last
    two code units, the whole label when that is shorter. *)
Theorem avatar_is_suffix (conversation : Conversation.t) :
  let sender := Conversation.sender conversation in
  String.length (CardView.avatar conversation) = (2 `min` String.length sender)%nat ∧
  ∃ front, sender = front +:+ CardView.avatar conversation.
Proof.
  intros sender. unfold CardView.avatar, slice_last. fold sender. split.
  - rewrite slice_from_length. lia.
  - exists (slice_to (String.length sender - 2) sender).
    by rewrite slice_to_from.
Qed.

(** X17.  [timeAgo] never shows a zero count and never a count that
    belongs to the next unit: a timestamp less than a minute old, or in
    the future, reads "just now"; otherwise the text is a count followed by
    "m ago" (1 to 59 whole minutes), "h ago" (1 to 23 whole hours) or
    "d ago" (1 or more whole days), the count being the age rounded down. *)
Theorem timeAgo_counts (now ts : Z) :
  let seconds := now `div` 1000 - ts in
  (seconds < 60 → CardView.timeAgo now ts = "just now") ∧
  (60 ≤ seconds →
   ∃ count unit,
     CardView.timeAgo now ts = pretty count +:+ unit ∧
     ((unit = "m ago" ∧ 1 ≤ count ≤ 59 ∧ count * 60 ≤ seconds < (count + 1) * 60) ∨
      (unit = "h ago" ∧ 1 ≤ count ≤ 23 ∧ count * 3600 ≤ seconds < (count + 1) * 3600) ∨
      (unit = "d ago" ∧ 1 ≤ count ∧ count * 86400 ≤ seconds < (count + 1) * 86400))).
Proof.
  intros seconds. unfold CardView.timeAgo. fold seconds. split.
  - intros H. by rewrite decide_True.
  - intros H. rewrite decide_False by lia.
    pose proof (Z.div_mod seconds 60 ltac:(lia)).
    pose proof (Z.mod_pos_bound seconds 60 ltac:(lia)).
    pose proof (Z.div_mod seconds 3600 ltac:(lia)).
    pose proof (Z.mod_pos_bound seconds 3600 ltac:(lia)).
    pose proof (Z.div_mod seconds 86400 ltac:(lia)).
    pose proof (Z.mod_pos_bound seconds 86400 ltac:(lia)).
    repeat case_decide.
    + exists (seconds `div` 60), "m ago". split; [done|].
      left. split; [done|lia].
    + exists (seconds `div` 3600), "h ago". split; [done|].
      right. left. split; [done|lia].
    + exists (seconds `div` 86400), "d ago". split; [done|].
      right. right. split; [done|lia].
Qed.

Lemma timeAgo_counts_witness :
  CardView.timeAgo 1000000 2000 = "just now" ∧
  ∃ count unit,
    CardView.timeAgo 7300000 100 = pretty count +:+ unit ∧
    ((unit = "m ago" ∧ 1 ≤ count ≤ 59 ∧ count * 60 ≤ 7200 < (count + 1) * 60) ∨
     (unit = "h ago" ∧ 1 ≤ count ≤ 23 ∧ count * 3600 ≤ 7200 < (count + 1) * 3600) ∨
     (unit = "d ago" ∧ 1 ≤ count ∧ count * 86400 ≤ 7200 < (count + 1) * 86400)).
Proof.
  split.
  - apply (timeAgo_counts 1000000 2000). vm_compute. done.
  - apply (timeAgo_counts 7300000 100). vm_compute. discriminate.
Defined.

(** ** The chat view *)

Section ChatFacts.
Context (trim : string → string).

Lemma sendMessage_runs (w : world ChatView.state ChatView.request ChatView.data) :
  let s := ui w in
  ChatView.loading s = false → trim (ChatView.input s) ≠ "" →
  ∃ k,
    answers k ∧
    exec (ChatView.sendMessage trim s) w =
    World
      {| ChatView.messages :=
           ChatView.messages s ++
           [{| ChatView.role := ChatView.user;
               ChatView.content := trim (ChatView.input s) |}];
         ChatView.input := "";
         ChatView.loading := true |}
      (inflight w ++
       [(ChatView.Chat (trim (ChatView.input s)) (drop 1 (ChatView.messages s)), k)])
      (timers w)
      (log w ++ [Issued (ChatView.Chat (trim (ChatView.input s))
                           (drop 1 (ChatView.messages s)))]).
Proof.
  intros s Hl Ht. unfold ChatView.sendMessage. fold s.
  rewrite Hl, bool_decide_eq_false_2 by done. simpl.
  assert (ChatView.slice_but_last
            ((λ m, {| ChatView.role := ChatView.role m;
                      ChatView.content := ChatView.content m |}) <$>
             drop 1 (ChatView.messages s ++
                     [{| ChatView.role := ChatView.user;
                         ChatView.content := trim (ChatView.input s) |}])) =
          drop 1 (ChatView.messages s)) as ->.
  { assert (∀ l : list ChatView.ChatMessage,
              (λ m, {| ChatView.role := ChatView.role m;
                       ChatView.content := ChatView.content m |}) <$> l = l) as ->.
    { induction l as [|[] l IH]; [done|]. simpl. by f_equal. }
    unfold ChatView.slice_but_last.
    destruct (ChatView.messages s) as [|m0 ms]; [done|]. simpl.
    rewrite !drop_0, length_app. simpl.
    replace (length ms + 1 - 1)%nat with (length ms) by lia.
    by rewrite take_app_length. }
  eexists. split; [|reflexivity].
  by intros [result|] w'.
Qed.

Lemma step_chat_ok w e :
  chat_ok w → chat_ok (step (ChatView.handler trim) w e).
Proof.
  intros Hw0. pose proof Hw0 as (Ht & [rest Hm] & Hstate).
  assert (∀ w0 : world ChatView.state ChatView.request ChatView.data,
            chat_ok w0 → ChatView.loading (ui w0) = false →
            chat_ok (exec (ChatView.sendMessage trim (ui w0)) w0)) as Hsend.
  { intros w0 (Ht0 & [rest0 Hm0] & Hstate0) Hl0.
    destruct Hstate0 as [[_ Hin0]|[Hl1 _]]; [|congruence].
    destruct (decide (trim (ChatView.input (ui w0)) = "")) as [He|Hne].
    - unfold ChatView.sendMessage. rewrite bool_decide_eq_true_2 by done. simpl.
      split; [done|]. split; [by exists rest0|]. by left.
    - destruct (sendMessage_runs w0 Hl0 Hne) as (k & Hk & ->).
      split; [done|]. simpl. split; [rewrite Hm0; by eexists|].
      right. split; [done|]. rewrite Hin0. by eexists _, k. }
  destruct e as [ev|n o|n]; simpl.
  - destruct Hstate as [[Hl Hin]|(Hl & r & k & Hin & Hk)].
    + assert (chat_ok w) as Hw.
      { split; [done|]. split; [by exists rest|]. by left. }
      destruct ev as [value|key shiftKey| |]; simpl; rewrite ?Hl; simpl.
      * split; [done|]. split; [by exists rest|]. by left.
      * unfold ChatView.handleKeyDown.
        destruct (_ && _); simpl; [by apply Hsend|done].
      * destruct (bool_decide _); simpl; [done|by apply Hsend].
      * split; [done|]. split; [by exists []|]. by left.
    + assert (chat_ok w) as Hw.
      { split; [done|]. split; [by exists rest|]. right. split; [done|].
        by exists r, k. }
      destruct ev as [value|key shiftKey| |]; simpl; rewrite ?Hl; simpl;
        try done.
      split; [done|]. split; [by exists []|]. right. split; [done|].
      by exists r, k.
  - destruct (inflight w !! n) as [[r k]|] eqn:Hn; [|done].
    destruct Hstate as [[_ Hin]|(Hl & r' & k' & Hin & Hk)];
      [by rewrite Hin in Hn|].
    rewrite Hin in Hn. destruct n as [|n]; [|done]. injection Hn as <- <-.
    rewrite Hk. unfold chat_ok, set_ui, record, drop_inflight. simpl.
    split; [done|].
    split; [rewrite Hm; by eexists|]. left. split; [done|]. by rewrite Hin.
  - by rewrite Ht.
Qed.

Lemma run_chat_ok ins :
  chat_ok (run (ChatView.handler trim) (start ChatView.initial) ins).
Proof.
  unfold run.
  assert (chat_ok (start ChatView.initial)) as Hw.
  { split; [done|]. split; [by eexists|]. by left. }
  revert Hw. generalize (start ChatView.initial
                           : world ChatView.state ChatView.request ChatView.data).
  induction ins as [|i ins IH]; simpl; [done|].
  intros w Hw. apply IH. by apply step_chat_ok.
Qed.
End ChatFacts.

(** X18.  Chat requests are single-flight.  Along every run of the chat
    view at most one request is outstanding, [loading] is set exactly while
    there is one, and while it is set typing, Enter and the send button do
    nothing. *)
Theorem chat_is_single_flight (trim : string → string)
    (ins : list (input ChatView.event ChatView.data)) :
  let handler := ChatView.handler trim in
  let w := run handler (start ChatView.initial) ins in
  (length (inflight w) ≤ 1)%nat ∧
  (ChatView.loading (ui w) = true ↔ length (inflight w) = 1%nat) ∧
  (ChatView.loading (ui w) = true →
   ∀ value key shiftKey,
     step handler w (User (ChatView.Change value)) = w ∧
     step handler w (User (ChatView.KeyDown key shiftKey)) = w ∧
     step handler w (User ChatView.ClickSend) = w).
Proof.
  intros handler w.
  destruct (run_chat_ok trim ins) as (_ & _ & Hstate).
  fold handler in Hstate. fold w in Hstate.
  destruct Hstate as [[Hl Hin]|(Hl & r & k & Hin & _)]; rewrite Hl, Hin; simpl.
  - split; [lia|]. split; [split; [done|lia]|done].
  - split; [lia|]. split; [done|]. intros _ value key shiftKey.
    subst handler. simpl. by rewrite Hl.
Qed.

Lemma chat_is_single_flight_witness :
  let handler := ChatView.handler id in
  let w := run handler (start ChatView.initial)
             [User (ChatView.Change "hello"); User ChatView.ClickSend] in
  length (inflight w) = 1%nat ∧
  step handler w (User ChatView.ClickSend) = w.
Proof.
  intros handler w.
  destruct (chat_is_single_flight id
              [User (ChatView.Change "hello"); User ChatView.ClickSend])
    as (_ & Hiff & Hnoop).
  split.
  - apply Hiff. reflexivity.
  - apply (Hnoop eq_refl "" "" false).
Defined.

(** X19.  What a send transmits.  Along every run the transcript starts
    with the greeting.  A send that goes through (not loading, input not
    blank) appends the trimmed input as a user message, clears the input,
    and issues one request carrying that text and, as history, the
    transcript as it was before without its first entry: the greeting is
    never sent and the new message is not repeated in the history. *)
Theorem send_transmits_transcript (trim : string → string)
    (ins : list (input ChatView.event ChatView.data)) :
  let handler := ChatView.handler trim in
  let w := run handler (start ChatView.initial) ins in
  let s := ui w in
  (∃ rest, ChatView.messages s = ChatView.GREETING :: rest) ∧
  (ChatView.loading s = false → trim (ChatView.input s) ≠ "" →
   let w' := step handler w (User ChatView.ClickSend) in
   ChatView.messages (ui w') =
     ChatView.messages s ++
     [{| ChatView.role := ChatView.user; ChatView.content := trim (ChatView.input s) |}] ∧
   ChatView.input (ui w') = "" ∧
   ChatView.loading (ui w') = true ∧
   ∀ rest, ChatView.messages s = ChatView.GREETING :: rest →
     fst <$> inflight w' = [ChatView.Chat (trim (ChatView.input s)) rest] ∧
     log w' = log w ++ [Issued (ChatView.Chat (trim (ChatView.input s)) rest)]).
Proof.
  intros handler w s.
  destruct (run_chat_ok trim ins) as (_ & Hgreet & Hstate).
  fold handler in Hgreet, Hstate. fold w in Hgreet, Hstate. fold s in Hgreet, Hstate.
  split; [done|]. intros Hl Hne w'.
  destruct Hstate as [[_ Hin]|[Hl' _]]; [|congruence].
  destruct (sendMessage_runs trim w Hl Hne) as (k & _ & Hrun). fold s in Hrun.
  assert (w' = exec (ChatView.sendMessage trim s) w) as ->.
  { subst w' handler. simpl. fold s. by rewrite Hl, bool_decide_eq_false_2. }
  rewrite Hrun. simpl. repeat split.
  - rewrite Hin, H. done.
  - by rewrite H.
Qed.

Lemma send_transmits_transcript_witness :
  let handler := ChatView.handler id in
  let w := run handler (start ChatView.initial) [User (ChatView.Change "hello")] in
  fst <$> inflight (step handler w (User ChatView.ClickSend)) =
    [ChatView.Chat "hello" []].
Proof.
  intros handler w.
  destruct (send_transmits_transcript id [User (ChatView.Change "hello")])
    as (_ & Hsend).
  destruct Hsend as (_ & _ & _ & Hreq); [reflexivity|done|].
  by destruct (Hreq [] eq_refl).
Defined.

(** X20.  Every request is answered in the transcript exactly once: when
    the outstanding request settles, one assistant message is appended, the
    reply when it resolved and the fixed apology when it failed, [loading]
    is cleared, the input is left alone and nothing is thrown.  This also
    holds when the transcript was cleared in the meantime: the answer then
    follows the greeting. *)
Theorem every_request_is_answered (trim : string → string)
    (ins : list (input ChatView.event ChatView.data)) (o : outcome ChatView.data) :
  let handler := ChatView.handler trim in
  let w := run handler (start ChatView.initial) ins in
  ChatView.loading (ui w) = true →
  let w' := step handler w (Settle 0 o) in
  ChatView.messages (ui w') = ChatView.messages (ui w) ++ [ChatView.answer o] ∧
  ChatView.role (ChatView.answer o) = ChatView.assistant ∧
  ChatView.loading (ui w') = false ∧
  ChatView.input (ui w') = ChatView.input (ui w) ∧
  inflight w' = [] ∧
  Uncaught ∉ drop (length (log w)) (log w').
Proof.
  intros handler w Hl w'.
  destruct (run_chat_ok trim ins) as (_ & _ & Hstate).
  fold handler in Hstate. fold w in Hstate.
  destruct Hstate as [[Hl' _]|(_ & r & k & Hin & Hk)]; [congruence|].
  subst w'. simpl. rewrite Hin. simpl. rewrite Hk. simpl.
  repeat split; [by destruct o|by rewrite Hin|].
  rewrite drop_app_length. by intros [=]%list_elem_of_singleton.
Qed.

Lemma every_request_is_answered_witness :
  let handler := ChatView.handler id in
  let w := run handler (start ChatView.initial)
             [User (ChatView.Change "hello"); User ChatView.ClickSend;
              User ChatView.ClickClear] in
  ChatView.messages (ui (step handler w (Settle 0 Rejected))) =
    [ChatView.GREETING; ChatView.errMsg].
Proof.
  intros handler w.
  destruct (every_request_is_answered id
              [User (ChatView.Change "hello"); User ChatView.ClickSend;
               User ChatView.ClickClear] Rejected) as (Hm & _); [reflexivity|].
  exact Hm.
Defined.

(** ** The calendar view *)

Lemma filter_delete_length {A} (P : A → Prop) `{∀ x, Decision (P x)}
    (l : list A) (n : nat) (x : A) :
  l !! n = Some x →
  length (filter P l) =
  (length (filter P (delete n l)) + (if decide (P x) then 1 else 0))%nat.
Proof.
  revert n. induction l as [|y l IH]; intros [|n] Hn; try done.
  - injection Hn as ->. simpl. rewrite filter_cons.
    destruct (decide (P x)); simpl; lia.
  - simpl. rewrite !filter_cons. specialize (IH n Hn).
    destruct (decide (P y)); simpl; lia.
Qed.

Section CalendarFacts.
Context (trim : string → string).

Lemma exec_loadData
    (w : world CalendarView.state CalendarView.request CalendarView.data) :
  ∃ k,
    loads k ∧
    exec CalendarView.loadData w =
    add_inflight (CalendarView.FetchCalendar 14) k
      (record (Issued (CalendarView.FetchCalendar 14))
         (set_ui (λ s, CalendarView.setError None (CalendarView.setLoading true s)) w)).
Proof.
  eexists. split; [|reflexivity].
  intros [result|] w'; [|done]. unfold CalendarView.loaded. simpl.
  by destruct (truthy_string _).
Qed.

Lemma exec_handleSchedule_incomplete
    (w : world CalendarView.state CalendarView.request CalendarView.data) s :
  ¬ complete trim (CalendarView.form s) → exec (CalendarView.handleSchedule trim s) w = w.
Proof.
  intros Hc. unfold CalendarView.handleSchedule.
  destruct (_ || _) eqn:Hb; [done|]. destruct Hc.
  rewrite !orb_false_iff, !bool_decide_eq_false in Hb. unfold complete. tauto.
Qed.

Lemma exec_handleSchedule_complete
    (w : world CalendarView.state CalendarView.request CalendarView.data) s :
  complete trim (CalendarView.form s) →
  ∃ req k,
    from_form trim req ∧ schedules k ∧
    ScheduleRequest.title req = trim (ScheduleForm.title (CalendarView.form s)) ∧
    ScheduleRequest.start_iso req =
      ScheduleForm.date (CalendarView.form s) +:+ "T" +:+
      ScheduleForm.startTime (CalendarView.form s) +:+ ":00" ∧
    ScheduleRequest.end_iso req =
      ScheduleForm.date (CalendarView.form s) +:+ "T" +:+
      ScheduleForm.endTime (CalendarView.form s) +:+ ":00" ∧
    exec (CalendarView.handleSchedule trim s) w =
    add_inflight (CalendarView.ScheduleEvent req) k
      (record (Issued (CalendarView.ScheduleEvent req))
         (set_ui (CalendarView.setScheduling true) w)).
Proof.
  intros (H1 & H2 & H3 & H4). unfold CalendarView.handleSchedule.
  rewrite !bool_decide_eq_false_2 by done. simpl.
  eexists _, _. split; [|split; [|split; [|split; [|split; [|reflexivity]]]]];
    try reflexivity.
  - exists (CalendarView.form s). simpl. repeat split; try done.
    by case_bool_decide.
  - by intros [result|] w'.
Qed.
End CalendarFacts.

Section CalendarInvariant.
Context (trim : string → string).

Lemma calendar_ok_loadData w :
  calendar_ok trim w → calendar_ok trim (exec CalendarView.loadData w).
Proof.
  intros (Hin & Htm & Hlog & Hsch & Htoast & Hload).
  destruct (exec_loadData w) as (k & Hk & ->).
  destruct w as [s inf tm lg]. unfold calendar_ok, outstanding in *. simpl in *.
  rewrite !filter_app, !length_app. simpl.
  split; [apply Forall_app; split; [done|by apply Forall_singleton]|].
  split; [done|].
  split; [apply Forall_app; split; [done|by apply Forall_singleton]|].
  split; [rewrite Hsch; simpl; lia|].
  split; [done|]. right. intros _.
  lia.
Qed.

Lemma calendar_ok_set_ui (f : CalendarView.state → CalendarView.state) w :
  calendar_ok trim w →
  w ≠ start CalendarView.initial →
  (∀ s, CalendarView.scheduling (f s) = CalendarView.scheduling s) →
  (∀ s, CalendarView.successMsg (f s) = CalendarView.successMsg s) →
  (∀ s, CalendarView.loading (f s) = CalendarView.loading s) →
  calendar_ok trim (set_ui f w).
Proof.
  intros (Hin & Htm & Hlog & Hsch & Htoast & Hload) Hw H1 H2 H3.
  destruct Hload as [?|Hload]; [done|].
  destruct w as [s inf tm lg]. unfold calendar_ok, outstanding in *. simpl in *.
  rewrite H1, H2, H3. repeat split; try done. by right.
Qed.

Lemma initial_screen :
  CalendarView.screen CalendarView.initial = CalendarView.LoadingScreen.
Proof. done. Qed.

Lemma step_calendar_ok w i :
  calendar_ok trim w → calendar_ok trim (step (CalendarView.handler trim) w i).
Proof.
  intros Hw.
  destruct (decide (CalendarView.loading (ui w) = true ∧ inflight w = [] ∧
                    timers w = [])) as [(Hl & Hi & Ht)|Hstarted].
  { (* nothing is on screen but the spinner, and nothing is pending *)
    destruct i as [e|n o|n]; simpl; rewrite ?Hi, ?Ht; try done.
    unfold CalendarView.handler, CalendarView.screen. rewrite Hl.
    destruct e; try done. by apply calendar_ok_loadData. }
  assert (w ≠ start CalendarView.initial) as Hne.
  { intros ->. by apply Hstarted. }
  pose proof Hw as (Hin & Htm & Hlog & Hsch & Htoast & Hload).
  destruct Hload as [?|Hload]; [done|].
  destruct i as [e|n o|n]; simpl.
  - unfold CalendarView.handler.
    destruct e as [| | |field value|]; try by apply calendar_ok_loadData.
    + destruct (CalendarView.screen _); try done. by apply calendar_ok_loadData.
    + destruct (CalendarView.screen _); try done.
      by apply (calendar_ok_set_ui
                  (λ s, CalendarView.setShowForm (negb (CalendarView.showForm s)) s)).
    + destruct (CalendarView.screen _); try done.
      destruct (CalendarView.showForm _); [|done].
      by apply (calendar_ok_set_ui
                  (λ s, CalendarView.setForm
                          (ScheduleForm.set field value (CalendarView.form s)) s)).
    + destruct (CalendarView.screen _) eqn:Hscr; try done.
      destruct (CalendarView.showForm _); [|done]. simpl.
      destruct (CalendarView.scheduling (ui w)) eqn:Hs; [done|]. simpl.
      destruct (decide (complete trim (CalendarView.form (ui w)))) as [Hc|Hc];
        [|by rewrite exec_handleSchedule_incomplete].
      destruct (exec_handleSchedule_complete trim w (ui w) Hc)
        as (req & k & Hreq & Hk & _ & _ & _ & ->).
      assert (CalendarView.loading (ui w) = false) as Hl.
      { unfold CalendarView.screen in Hscr.
        by destruct (CalendarView.loading (ui w)). }
      destruct w as [s inf tm lg]. unfold calendar_ok, outstanding in *.
      simpl in *. rewrite !filter_app, !length_app. simpl.
      split; [apply Forall_app; split; [done|by apply Forall_singleton]|].
      split; [done|].
      split; [apply Forall_app; split; [done|by apply Forall_singleton]|].
      split; [lia|].
      split; [done|]. right. by rewrite Hl.
  - destruct (inflight w !! n) as [[r k]|] eqn:Hn; [|done].
    pose proof (Forall_lookup_1 _ _ _ _ Hin Hn) as Hk.
    pose proof (filter_delete_length
                  (λ e : CalendarView.request * _, CalendarView.is_schedule e.1 = true)
                  _ _ _ Hn) as Hcs.
    pose proof (filter_delete_length
                  (λ e : CalendarView.request * _, CalendarView.is_load e.1 = true)
                  _ _ _ Hn) as Hcl.
    destruct w as [s inf tm lg]. unfold calendar_ok, outstanding in *.
    simpl in *. unfold calendar_entry in Hk. simpl in Hk.
    destruct r as [days|req]; simpl in *.
    + rewrite Hk. unfold set_ui. simpl.
      split; [by apply Forall_delete|]. split; [done|].
      split; [apply Forall_app; split; [done|by apply Forall_singleton]|].
      split.
      { destruct o; simpl; [destruct (truthy_string _)|]; simpl; lia. }
      split; [by destruct o as [result|]; simpl;
                try destruct (truthy_string _)|].
      by right.
    + rewrite Hk. rewrite Hcs in Hsch.
      destruct (CalendarView.scheduling s) eqn:Hs; [|lia].
      assert (length (filter (λ e : CalendarView.request * _,
                                CalendarView.is_schedule e.1 = true)
                        (delete n inf)) = 0%nat) as Hz by lia.
      rewrite Nat.add_0_r in Hcl.
      destruct o as [result|].
      * destruct (exec_loadData
                    (add_timer 3000 CalendarView.clear_toast
                       (set_ui (λ s0, CalendarView.setSuccessMsg (Some CalendarView.added)
                                        (CalendarView.setShowForm false
                                           (CalendarView.setForm EMPTY_FORM s0)))
                          (record (Settled (CalendarView.ScheduleEvent req)
                                     (Resolved result))
                             (drop_inflight n (World s inf tm lg))))))
          as (k' & Hk' & ->).
        unfold set_ui, add_timer, add_inflight, record, drop_inflight. simpl.
        rewrite !filter_app, !length_app. simpl.
        split; [apply Forall_app; split;
                  [by apply Forall_delete|by apply Forall_singleton]|].
        split; [apply Forall_app; split;
                  [done|apply Forall_singleton; split; [done|by left]]|].
        split; [rewrite !Forall_app; repeat split;
                  [done|by apply Forall_singleton|by apply Forall_singleton]|].
        split; [lia|].
        split; [intros _; by destruct tm|].
        right. intros _. lia.
      * unfold set_ui, add_timer, add_inflight, record, drop_inflight. simpl.
        split; [by apply Forall_delete|].
        split; [apply Forall_app; split;
                  [done|apply Forall_singleton; split; [done|by right]]|].
        split; [apply Forall_app; split; [done|by apply Forall_singleton]|].
        split; [done|].
        split; [intros _; by destruct tm|].
        right. rewrite <- Hcl. done.
  - destruct (timers w !! n) as [[ms cb]|] eqn:Hn; [|done].
    pose proof (Forall_lookup_1 _ _ _ _ Htm Hn) as [Hcb _]. simpl in Hcb.
    subst cb.
    destruct w as [s inf tm lg]. unfold calendar_ok, outstanding in *.
    simpl in *.
    split; [done|]. split; [by apply Forall_delete|].
    split; [done|]. split; [done|]. split; [done|]. by right.
Qed.

Lemma run_calendar_ok ins :
  calendar_ok trim (run (CalendarView.handler trim) (start CalendarView.initial) ins).
Proof.
  unfold run.
  assert (calendar_ok trim (start CalendarView.initial)) as Hw.
  { unfold calendar_ok, outstanding. simpl. repeat split; try done. by left. }
  revert Hw. generalize (start CalendarView.initial
                           : world CalendarView.state CalendarView.request
                               CalendarView.data).
  induction ins as [|i ins IH]; simpl; [done|].
  intros w Hw. apply IH. by apply step_calendar_ok.
Qed.
End CalendarInvariant.

Section LogGrows.
Context {S R D E : Type} (handler : E → S → prog S R D).

Lemma exec_log_length (p : prog S R D) (w : world S R D) :
  (length (log w) ≤ length (log (exec p w)))%nat.
Proof.
  revert w. induction p as [| |f k IH|a IHa k IH|r k IH|cb IHcb ms k IH|c k IH];
    intros w; simpl; try rewrite length_app; simpl; try lia.
  - etrans; [|apply IH]. done.
  - etrans; [|apply IH]. apply IHa.
  - etrans; [|apply IH]. done.
  - etrans; [|apply IH]. simpl. rewrite length_app. lia.
Qed.

Lemma step_log_length (w : world S R D) (i : input E D) :
  (length (log w) ≤ length (log (step handler w i)))%nat.
Proof.
  destruct i as [e|n o|n]; simpl.
  - apply exec_log_length.
  - destruct (inflight w !! n) as [[r k]|]; [|done].
    etrans; [|apply exec_log_length]. simpl. rewrite length_app. lia.
  - destruct (timers w !! n) as [[ms cb]|]; [|done].
    etrans; [|apply exec_log_length]. done.
Qed.

Lemma run_log_length (w : world S R D) (ins : list (input E D)) :
  (length (log w) ≤ length (log (run handler w ins)))%nat.
Proof.
  revert w. induction ins as [|i ins IH]; intros w; simpl; [done|].
  etrans; [apply (step_log_length w i)|apply IH].
Qed.
End LogGrows.

(** X21.  What is sent to the calendar.  Along every run of the calendar
    view, a schedule request is only ever issued from a complete form: its
    title is the trimmed title and is not blank, its start and end are
    [date] followed by [T], the time and [:00] for one and the same
    non-empty date and non-empty times, and the calendar name is never
    empty ([Calendar] stands in for an empty one). *)
Theorem schedule_requests_are_complete (trim : string → string)
    (ins : list (input CalendarView.user CalendarView.data))
    (n : nat) (req : ScheduleRequest.t) :
  let w := run (CalendarView.handler trim) (start CalendarView.initial) ins in
  log w !! n = Some (Issued (CalendarView.ScheduleEvent req)) →
  ScheduleRequest.title req ≠ "" ∧
  ScheduleRequest.calendar_name req ≠ "" ∧
  ∃ title date startTime endTime,
    ScheduleRequest.title req = trim title ∧
    date ≠ "" ∧ startTime ≠ "" ∧ endTime ≠ "" ∧
    ScheduleRequest.start_iso req = date +:+ "T" +:+ startTime +:+ ":00" ∧
    ScheduleRequest.end_iso req = date +:+ "T" +:+ endTime +:+ ":00".
Proof.
  intros w Hn.
  destruct (run_calendar_ok trim ins) as (_ & _ & Hlog & _).
  apply (Forall_lookup_1 _ _ _ _ Hlog) in Hn.
  destruct Hn as (form & Ht & Hne & Hd & Hs & He & Hsi & Hei & _ & Hc).
  split; [done|]. split; [done|].
  by exists (ScheduleForm.title form), (ScheduleForm.date form),
            (ScheduleForm.startTime form), (ScheduleForm.endTime form).
Qed.

Lemma schedule_requests_are_complete_witness :
  ∃ req,
    log (run (CalendarView.handler id) (start CalendarView.initial)
           (fill_in ++ [User CalendarView.Submit])) !! 2%nat =
      Some (Issued (CalendarView.ScheduleEvent req)) ∧
    ScheduleRequest.title req ≠ "".
Proof.
  eexists. split; [reflexivity|].
  eapply (schedule_requests_are_complete id (fill_in ++ [User CalendarView.Submit])
            2%nat).
  reflexivity.
Defined.

(** X22.  Scheduling is single-flight.  Along every run at most one
    schedule request is outstanding, [scheduling] is set exactly while there
    is one, and while it is set submitting the form does nothing. *)
Theorem scheduling_is_single_flight (trim : string → string)
    (ins : list (input CalendarView.user CalendarView.data)) :
  let handler := CalendarView.handler trim in
  let w := run handler (start CalendarView.initial) ins in
  (outstanding CalendarView.is_schedule w ≤ 1)%nat ∧
  (CalendarView.scheduling (ui w) = true ↔
   outstanding CalendarView.is_schedule w = 1%nat) ∧
  (CalendarView.scheduling (ui w) = true →
   step handler w (User CalendarView.Submit) = w).
Proof.
  intros handler w.
  destruct (run_calendar_ok trim ins) as (_ & _ & _ & Hsch & _).
  fold handler in Hsch. fold w in Hsch. rewrite Hsch.
  destruct (CalendarView.scheduling (ui w)) eqn:Hs.
  - split; [lia|]. split; [done|]. intros _. subst handler. simpl.
    unfold CalendarView.handler. rewrite Hs, andb_false_r.
    by destruct (CalendarView.screen _).
  - split; [lia|]. split; [|done]. split; [done|lia].
Qed.

Lemma scheduling_is_single_flight_witness :
  let handler := CalendarView.handler id in
  let w := run handler (start CalendarView.initial)
             (fill_in ++ [User CalendarView.Submit]) in
  outstanding CalendarView.is_schedule w = 1%nat ∧
  step handler w (User CalendarView.Submit) = w.
Proof.
  intros handler w.
  destruct (scheduling_is_single_flight id (fill_in ++ [User CalendarView.Submit]))
    as (_ & Hiff & Hnoop).
  split; [apply Hiff; reflexivity|apply Hnoop; reflexivity].
Defined.

(** X23.  How a schedule request ends.  Along every run, when an
    outstanding schedule request fails, the form and its visibility, the
    events, the reminders and the load state are left as they are, the
    failure toast is shown with a 4000 ms timer to clear it, [scheduling] is
    cleared and no request is issued: the user's input is not lost.  When it
    succeeds, the form is emptied and hidden, the success toast is shown
    with a 3000 ms timer, [scheduling] is cleared, and one reload for 14
    days is issued, which puts the view back on the loading screen. *)
Theorem schedule_outcome (trim : string → string)
    (ins : list (input CalendarView.user CalendarView.data))
    (n : nat) (req : ScheduleRequest.t) :
  let handler := CalendarView.handler trim in
  let w := run handler (start CalendarView.initial) ins in
  fst <$> inflight w !! n = Some (CalendarView.ScheduleEvent req) →
  (let w' := step handler w (Settle n Rejected) in
   ui w' =
     CalendarView.setScheduling false
       (CalendarView.setSuccessMsg (Some CalendarView.failed) (ui w)) ∧
   timers w' = timers w ++ [(4000, CalendarView.clear_toast)] ∧
   (inflight w').*1 = (delete n (inflight w)).*1 ∧
   log w' = log w ++ [Settled (CalendarView.ScheduleEvent req) Rejected]) ∧
  (∀ d,
   let w' := step handler w (Settle n (Resolved d)) in
   ui w' =
     CalendarView.setScheduling false
       (CalendarView.setError None
          (CalendarView.setLoading true
             (CalendarView.setSuccessMsg (Some CalendarView.added)
                (CalendarView.setShowForm false
                   (CalendarView.setForm EMPTY_FORM (ui w)))))) ∧
   CalendarView.screen (ui w') = CalendarView.LoadingScreen ∧
   timers w' = timers w ++ [(3000, CalendarView.clear_toast)] ∧
   (inflight w').*1 = (delete n (inflight w)).*1 ++ [CalendarView.FetchCalendar 14] ∧
   log w' = log w ++ [Settled (CalendarView.ScheduleEvent req) (Resolved d);
                      Issued (CalendarView.FetchCalendar 14)]).
Proof.
  intros handler w Hn.
  destruct (run_calendar_ok trim ins) as (Hin & _).
  fold handler in Hin. fold w in Hin.
  destruct (inflight w !! n) as [[r k]|] eqn:Hk; [|done].
  simpl in Hn. injection Hn as ->.
  pose proof (Forall_lookup_1 _ _ _ _ Hin Hk) as Hs.
  unfold calendar_entry in Hs. simpl in Hs.
  split; [|intros d]; simpl; rewrite Hk, Hs.
  - done.
  - destruct (exec_loadData
                (add_timer 3000 CalendarView.clear_toast
                   (set_ui (λ s, CalendarView.setSuccessMsg (Some CalendarView.added)
                                   (CalendarView.setShowForm false
                                      (CalendarView.setForm EMPTY_FORM s)))
                      (record (Settled (CalendarView.ScheduleEvent req) (Resolved d))
                         (drop_inflight n w)))))
      as (k' & _ & ->).
    simpl. rewrite fmap_app, <- (assoc_L (++)). done.
Qed.

Lemma schedule_outcome_witness :
  let handler := CalendarView.handler id in
  let w := run handler (start CalendarView.initial)
             (fill_in ++ [User CalendarView.Submit]) in
  CalendarView.form (ui (step handler w (Settle 0 Rejected))) = CalendarView.form (ui w) ∧
  CalendarView.form (ui (step handler w (Settle 0 (Resolved no_data)))) = EMPTY_FORM.
Proof.
  intros handler w.
  edestruct (schedule_outcome id (fill_in ++ [User CalendarView.Submit]) 0)
    as [(Hf & _) Hok]; [reflexivity|].
  destruct (Hok no_data) as (Hs & _).
  fold handler in Hf, Hs. fold w in Hf, Hs.
  rewrite Hf, Hs. done.
Defined.

(** X24.  Every toast is taken down.  Along every run, whenever a toast
    is showing a timer is pending; every pending timer was set for 3000 or
    4000 ms, and when it fires it clears the toast and changes nothing
    else. *)
Theorem toast_always_cleared (trim : string → string)
    (ins : list (input CalendarView.user CalendarView.data)) :
  let handler := CalendarView.handler trim in
  let w := run handler (start CalendarView.initial) ins in
  (CalendarView.successMsg (ui w) ≠ None → timers w ≠ []) ∧
  ∀ n ms cb, timers w !! n = Some (ms, cb) →
    (ms = 3000 ∨ ms = 4000) ∧
    step handler w (Fire n) =
      set_ui (CalendarView.setSuccessMsg None) (drop_timer n w).
Proof.
  intros handler w.
  destruct (run_calendar_ok trim ins) as (_ & Htm & _ & _ & Htoast & _).
  fold handler in Htm, Htoast. fold w in Htm, Htoast.
  split; [done|]. intros n ms cb Hn.
  destruct (Forall_lookup_1 _ _ _ _ Htm Hn) as [Hcb Hms]. simpl in Hcb, Hms.
  split; [done|]. simpl. by rewrite Hn, Hcb.
Qed.

Lemma toast_always_cleared_witness :
  let handler := CalendarView.handler id in
  let w := run handler (start CalendarView.initial)
             (fill_in ++ [User CalendarView.Submit; Settle 0 Rejected]) in
  CalendarView.successMsg (ui w) = Some CalendarView.failed ∧
  CalendarView.successMsg (ui (step handler w (Fire 0))) = None.
Proof.
  intros handler w.
  destruct (toast_always_cleared id
              (fill_in ++ [User CalendarView.Submit; Settle 0 Rejected]))
    as (_ & Hfire).
  edestruct (Hfire 0%nat) as (_ & Hw); [reflexivity|].
  fold handler in Hw. fold w in Hw. rewrite Hw. done.
Defined.

(** X25.  A failed load keeps what was loaded.  Along every run, when an
    outstanding load fails, events, reminders, form and toast stay as they
    are, the error text is set and [loading] is cleared; nothing is issued
    or thrown.  The error screen then shows exactly when there are neither
    events nor reminders; otherwise the main screen shows the kept data. *)
Theorem load_failure_keeps_calendar (trim : string → string)
    (ins : list (input CalendarView.user CalendarView.data))
    (n : nat) (days : Z) :
  let handler := CalendarView.handler trim in
  let w := run handler (start CalendarView.initial) ins in
  fst <$> inflight w !! n = Some (CalendarView.FetchCalendar days) →
  let w' := step handler w (Settle n Rejected) in
  ui w' =
    CalendarView.setLoading false
      (CalendarView.setError (Some CalendarView.unreachable) (ui w)) ∧
  (inflight w').*1 = (delete n (inflight w)).*1 ∧
  timers w' = timers w ∧
  log w' = log w ++ [Settled (CalendarView.FetchCalendar days) Rejected] ∧
  CalendarView.screen (ui w') =
    (if bool_decide (CalendarView.events (ui w) = [] ∧ CalendarView.reminders (ui w) = [])
     then CalendarView.ErrorScreen else CalendarView.MainScreen).
Proof.
  intros handler w Hn.
  destruct (run_calendar_ok trim ins) as (Hin & _).
  fold handler in Hin. fold w in Hin.
  destruct (inflight w !! n) as [[r k]|] eqn:Hk; [|done].
  simpl in Hn. injection Hn as ->.
  pose proof (Forall_lookup_1 _ _ _ _ Hin Hk) as Hs.
  unfold calendar_entry in Hs. simpl in Hs.
  simpl. rewrite Hk, Hs. simpl. repeat split.
  unfold CalendarView.screen. simpl.
  destruct (CalendarView.events (ui w)), (CalendarView.reminders (ui w)); done.
Qed.

Lemma load_failure_keeps_calendar_witness :
  let handler := CalendarView.handler id in
  let w := run handler (start CalendarView.initial) [User CalendarView.Mount] in
  CalendarView.screen (ui (step handler w (Settle 0 Rejected))) =
    CalendarView.ErrorScreen.
Proof.
  intros handler w.
  edestruct (load_failure_keeps_calendar id [User CalendarView.Mount] 0)
    as (_ & _ & _ & _ & Hscr); [reflexivity|].
  exact Hscr.
Defined.

(** X26.  What a successful load installs.  Along every run, when an
    outstanding load resolves, events and reminders become the lists of the
    answer, the empty list standing in for an absent one, [loading] is
    cleared, and the error becomes the first non-empty permission error of
    the answer (the events' before the reminders'), or stays as it is when
    there is none.  Data that came with a permission error is shown: the
    error screen appears only if both lists are empty. *)
Theorem load_success_installs_answer (trim : string → string)
    (ins : list (input CalendarView.user CalendarView.data))
    (n : nat) (days : Z) (d : CalendarView.data) :
  let handler := CalendarView.handler trim in
  let w := run handler (start CalendarView.initial) ins in
  fst <$> inflight w !! n = Some (CalendarView.FetchCalendar days) →
  let w' := step handler w (Settle n (Resolved d)) in
  let s' := ui w' in
  let permErr :=
    js_or_string (EventsData.permission_error (CalendarView.eventsData d))
                 (RemindersData.permission_error (CalendarView.remindersData d)) in
  CalendarView.events s' =
    default [] (EventsData.events (CalendarView.eventsData d)) ∧
  CalendarView.reminders s' =
    default [] (RemindersData.reminders (CalendarView.remindersData d)) ∧
  CalendarView.loading s' = false ∧
  CalendarView.error s' =
    (if truthy_string permErr then permErr else CalendarView.error (ui w)) ∧
  (CalendarView.screen s' = CalendarView.ErrorScreen →
   CalendarView.events s' = [] ∧ CalendarView.reminders s' = []) ∧
  CalendarView.form s' = CalendarView.form (ui w) ∧
  CalendarView.successMsg s' = CalendarView.successMsg (ui w) ∧
  (inflight w').*1 = (delete n (inflight w)).*1 ∧
  timers w' = timers w.
Proof.
  intros handler w Hn.
  destruct (run_calendar_ok trim ins) as (Hin & _).
  fold handler in Hin. fold w in Hin.
  destruct (inflight w !! n) as [[r k]|] eqn:Hk; [|done].
  simpl in Hn. injection Hn as ->.
  pose proof (Forall_lookup_1 _ _ _ _ Hin Hk) as Hs.
  unfold calendar_entry in Hs. simpl in Hs.
  simpl. rewrite Hk, Hs. simpl.
  set (permErr := js_or_string _ _).
  split; [by destruct (EventsData.events _)|].
  split; [by destruct (RemindersData.reminders _)|].
  split; [done|].
  split; [by destruct (truthy_string permErr)|].
  split.
  { unfold CalendarView.screen. simpl.
    destruct (truthy_string (CalendarView.error _)); simpl; [|done].
    destruct (js_or_list _ _), (js_or_list _ _); done. }
  split; [by destruct (truthy_string permErr)|].
  split; [by destruct (truthy_string permErr)|done].
Qed.

Lemma load_success_installs_answer_witness :
  let handler := CalendarView.handler id in
  let w := run handler (start CalendarView.initial) [User CalendarView.Mount] in
  CalendarView.events (ui (step handler w (Settle 0 (Resolved no_data)))) = [].
Proof.
  intros handler w.
  edestruct (load_success_installs_answer id [User CalendarView.Mount] 0 14 no_data)
    as (He & _); [reflexivity|].
  exact He.
Defined.

(** X27.  The loading screen is never stuck.  Once the view has mounted,
    whenever the loading screen is showing a load is outstanding, whose
    settling, either way, takes the loading screen down. *)
Theorem loading_screen_has_a_load (trim : string → string)
    (ins : list (input CalendarView.user CalendarView.data)) :
  let handler := CalendarView.handler trim in
  let w := run handler (start CalendarView.initial) (User CalendarView.Mount :: ins) in
  CalendarView.screen (ui w) = CalendarView.LoadingScreen →
  ∃ n days,
    fst <$> inflight w !! n = Some (CalendarView.FetchCalendar days) ∧
    ∀ o, CalendarView.screen (ui (step handler w (Settle n o))) ≠
         CalendarView.LoadingScreen.
Proof.
  intros handler w Hscr.
  destruct (run_calendar_ok trim (User CalendarView.Mount :: ins))
    as (Hin & _ & _ & _ & _ & Hload).
  fold handler in Hin, Hload. fold w in Hin, Hload.
  assert (CalendarView.loading (ui w) = true) as Hl.
  { unfold CalendarView.screen in Hscr.
    destruct (CalendarView.loading (ui w)); [done|].
    by destruct (_ && _). }
  destruct Hload as [Hw0|Hload].
  { pose proof (run_log_length handler
                  (step handler (start CalendarView.initial) (User CalendarView.Mount))
                  ins) as Hlen.
    change (run handler _ ins) with w in Hlen. rewrite Hw0 in Hlen.
    simpl in Hlen. lia. }
  specialize (Hload Hl). unfold outstanding in Hload.
  destruct (filter _ (inflight w)) as [|[r k] l] eqn:Hf; [done|].
  assert ((r, k) ∈ filter (λ e : CalendarView.request * _,
                             CalendarView.is_load e.1 = true) (inflight w)) as Hel.
  { rewrite Hf. left. }
  apply list_elem_of_filter in Hel as [Hr Hel]. simpl in Hr.
  apply list_elem_of_lookup_1 in Hel as [n Hn].
  destruct r as [days|]; [|done].
  exists n, days. rewrite Hn. split; [done|]. intros o.
  pose proof (Forall_lookup_1 _ _ _ _ Hin Hn) as Hs.
  unfold calendar_entry in Hs. simpl in Hs.
  simpl. rewrite Hn, Hs. unfold CalendarView.screen. simpl.
  by destruct (_ && _).
Qed.

Lemma loading_screen_has_a_load_witness :
  ∃ n days,
    fst <$> inflight (run (CalendarView.handler id) (start CalendarView.initial)
                        [User CalendarView.Mount]) !! n =
    Some (CalendarView.FetchCalendar days).
Proof.
  destruct (loading_screen_has_a_load id []) as (n & days & Hn & _); [reflexivity|].
  by exists n, days.
Defined.

(** X28.  The calendar view leaves no rejection unhandled: along every
    run nothing is thrown out of a handler, although requests may fail at
    any time and [loadData] is called without being awaited; and every load
    asks for 14 days. *)
Theorem calendar_catches_every_failure (trim : string → string)
    (ins : list (input CalendarView.user CalendarView.data)) :
  let w := run (CalendarView.handler trim) (start CalendarView.initial) ins in
  (Uncaught ∉ log w) ∧
  ∀ days, Issued (CalendarView.FetchCalendar days) ∈ log w → days = 14.
Proof.
  intros w.
  destruct (run_calendar_ok trim ins) as (_ & _ & Hlog & _). fold w in Hlog.
  rewrite Forall_forall in Hlog. split.
  - intros Hu. by apply Hlog in Hu.
  - intros days Hd. by apply Hlog in Hd.
Qed.

(** X29.  The overdue mark and the due label agree.  The mark is computed
    before the label, each from its own reading of the clock; with a clock
    that does not go back, a reminder marked overdue is labelled [Overdue],
    and a reminder without a due date is labelled [No due date] and never
    marked. *)
Theorem overdue_mark_has_overdue_label
    (getTime : string → option Z) (toLocaleDateString : string → string)
    (now1 now2 : Z) (due : option string) :
  now1 ≤ now2 →
  (CalendarView.dueClass getTime now1 due ≠ "" →
   CalendarView.formatDue getTime toLocaleDateString now2 due = "Overdue") ∧
  (truthy_string due = false →
   CalendarView.dueClass getTime now1 due = "" ∧
   CalendarView.formatDue getTime toLocaleDateString now2 due = "No due date").
Proof.
  intros Hnow. unfold CalendarView.dueClass, CalendarView.formatDue.
  destruct (truthy_string due); simpl; [|done].
  split; [|done].
  destruct (getTime _) as [t|]; [|done].
  case_bool_decide; [|done]. intros _.
  rewrite decide_True by lia. done.
Qed.

Lemma overdue_mark_has_overdue_label_witness :
  CalendarView.formatDue (λ _, Some 5) id 10 (Some "2026-01-05") = "Overdue".
Proof.
  apply (overdue_mark_has_overdue_label (λ _, Some 5) id 10 10 (Some "2026-01-05"));
    [lia|done].
Defined.
